(** * curia-irc-client: the iframe bridge and the identity-bridge snippets

    A shallow embedding of the JavaScript / TypeScript code of the
    repository, definitions first, properties after:

    - [Js]: JavaScript values, as far as the bridge converts them to
      strings;
    - [Iframe]: public/iframe-integration.js, the postMessage bridge that
      runs inside the embedded web client, as a transition system over the
      page (DOM fields, timers, listeners, console, posted messages);
    - [Redirect]: the Lounge deep-link builders [buildChatUrl] (identity
      bridge implementation plan) and [buildLoungeUrl] (auth bridge page);
    - [Bcryptjs], [Soju]: the hashing library and the bouncer's tables, as
      far as the endpoints use them;
    - [Provision]: POST /api/irc-user-provision of the endpoint
      specification, with [generateIrcUsername], [generateSecurePassword],
      [hashIrcPassword] and [upsertSojuUser];
    - [ProvisionDraft]: the earlier draft of the same endpoint and of
      [upsertSojuUser] (lib/irc-db.ts);
    - [AuthCallback]: /api/irc-auth, the bouncer's HTTP auth callback.

    Strings are sequences of 8-bit characters; the code only ever inspects
    ASCII letters, digits, line breaks and a few punctuation marks.  The
    two places that look beyond ASCII, the lower-casing of a community id
    and the character count of a database column, read such text as
    UTF-8.  A script either returns or throws, and an exception that
    nothing catches ends the task that raised it.  A database operation returns or throws
    as well; whether the server answers a round trip is part of the
    database state.  Randomness ([Math.random], the bcrypt salt) is an
    explicit argument of the functions that draw it. *)

From Stdlib Require Import Ascii.
From stdpp Require Import gmap strings list.

(** ** JavaScript strings *)

Module JsString.

(** [s.startsWith(t)] *)
Fixpoint starts_with (s t : string) {struct t} : bool :=
  match t, s with
  | EmptyString, _ => true
  | String c t', String d s' => if Ascii.eqb c d then starts_with s' t' else false
  | String _ _, EmptyString => false
  end.

(** [s.includes(t)] *)
Fixpoint includes (s t : string) : bool :=
  if starts_with s t then true
  else match s with
       | EmptyString => false
       | String _ s' => includes s' t
       end.

(** [xs.join(sep)] on an array of strings *)
Fixpoint join (sep : string) (xs : list string) : string :=
  match xs with
  | [] => ""
  | [x] => x
  | x :: rest => x +:+ sep +:+ join sep rest
  end.

Definition to_list (s : string) : list ascii := String.list_ascii_of_string s.
Definition of_list (l : list ascii) : string := String.string_of_list_ascii l.

(** [s.slice(0, n)] for a non-negative [n] *)
Definition slice_to (n : nat) (s : string) : string :=
  of_list (take n (to_list s)).

(** [s.slice(-n)] for a positive [n]: the last [n] characters, or the
    whole string when it is shorter *)
Definition slice_last (n : nat) (s : string) : string :=
  of_list (drop (length (to_list s) - n) (to_list s)).

Definition is_digit (c : ascii) : bool :=
  let n := nat_of_ascii c in ((48 <=? n) && (n <=? 57))%nat.
Definition is_upper (c : ascii) : bool :=
  let n := nat_of_ascii c in ((65 <=? n) && (n <=? 90))%nat.
Definition is_lower (c : ascii) : bool :=
  let n := nat_of_ascii c in ((97 <=? n) && (n <=? 122))%nat.
Definition is_alnum (c : ascii) : bool :=
  is_digit c || is_upper c || is_lower c.

Definition lower_char (c : ascii) : ascii :=
  if is_upper c then ascii_of_nat (nat_of_ascii c + 32) else c.

(** [s.toLowerCase()] on the ASCII range *)
Definition to_lower (s : string) : string :=
  of_list (map lower_char (to_list s)).

(** A line feed or a carriage return. *)
Definition is_line_break (c : ascii) : bool :=
  Ascii.eqb c "010" || Ascii.eqb c "013".

(** The string without its line breaks: what the [value] setter of a
    single-line input keeps of the string it is given. *)
Definition strip_newlines (s : string) : string :=
  of_list (List.filter (fun c => negb (is_line_break c)) (to_list s)).

(** [t] occurs in [s]: what [includes] decides. *)
Definition occurs (t s : string) : Prop := ∃ a b, s = a +:+ t +:+ b.

End JsString.

(** ** JavaScript values carried by messages and console calls *)

Module Js.

(** A number, as far as the script can tell numbers apart: it converts
    them to a boolean and to a string and does nothing else with them.
    [falsy] holds of 0, -0 and NaN; [text] is the result of
    [Number.prototype.toString], as in "42", "0.5", "1e+21" or "NaN". *)
Record number : Type := {
  falsy : bool;
  text : string
}.

(** The values a message or a console call carries: what the structured
    clone of JSON-like data can hold.  None of them is callable. *)
#[warnings="-register-all"]
Inductive value : Type :=
| VUndefined
| VNull
| VBool (b : bool)
| VNum (n : number)
| VStr (s : string)
| VArr (items : list value)
| VObj (fields : list (string * value)).

(** ToBoolean *)
Definition truthy (v : value) : bool :=
  match v with
  | VUndefined | VNull => false
  | VBool b => b
  | VNum n => negb (falsy n)
  | VStr s => negb (String.eqb s "")
  | VArr _ | VObj _ => true
  end.

Fixpoint lookup_field (k : string) (fields : list (string * value)) : value :=
  match fields with
  | [] => VUndefined
  | (k', v) :: rest => if String.eqb k k' then v else lookup_field k rest
  end.

(** [v.k] for a named (non-index) property [k] that no prototype
    defines: only plain objects answer.  The keys of an object are
    distinct. *)
Definition get (v : value) (k : string) : value :=
  match v with
  | VObj fields => lookup_field k fields
  | _ => VUndefined
  end.

(** Whether the object has an own property called [k]. *)
Definition has_own (k : string) (fields : list (string * value)) : bool :=
  existsb (fun kv => String.eqb k kv.1) fields.

(** ToString, [None] when it throws a TypeError.  An array joins its
    items with a comma, printing null and undefined items as the empty
    string.  A plain object prints as "[object Object]" through
    [Object.prototype.toString], unless an own property called toString
    shadows that method: the own property is not callable, [valueOf]
    returns the object itself, and the conversion throws. *)
Fixpoint to_string (v : value) : option string :=
  match v with
  | VUndefined => Some "undefined"
  | VNull => Some "null"
  | VBool true => Some "true"
  | VBool false => Some "false"
  | VNum n => Some (text n)
  | VStr s => Some s
  | VArr items =>
      JsString.join "," <$>
        (fix items_to_strings (l : list value) : option (list string) :=
           match l with
           | [] => Some []
           | x :: rest =>
               match match x with
                     | VUndefined | VNull => Some ""
                     | _ => to_string x
                     end,
                     items_to_strings rest with
               | Some s, Some ss => Some (s :: ss)
               | _, _ => None
               end
           end) items
  | VObj fields =>
      if has_own "toString" fields then None else Some "[object Object]"
  end.

(** What an element contributes to [Array.prototype.join]. *)
Definition element_string (x : value) : option string :=
  match x with
  | VUndefined | VNull => Some ""
  | _ => to_string x
  end.

(** [Array.prototype.join.call(args, sep)], [None] when the conversion
    of an element throws. *)
Definition join_values (sep : string) (args : list value) : option string :=
  JsString.join sep <$> mapM element_string args.

(** [v1 === v2] against a string literal *)
Definition strict_eq_str (v : value) (s : string) : bool :=
  match v with
  | VStr s' => String.eqb s' s
  | _ => false
  end.

End Js.

(** ** public/iframe-integration.js *)

Module Iframe.
Import Js.

(** The page the script runs in.  The three inputs and the form are what
    [document.querySelector] finds: [None] (or [false]) when the element is
    not in the document, the current [value] of the input otherwise.  The
    inputs of the connect form are single-line text and password inputs. *)
Record Dom : Type := {
  nickInput : option string;      (* input[name="nick"] *)
  passwordInput : option string;  (* input[name="password"] *)
  realnameInput : option string;  (* input[name="realname"] *)
  connectForm : bool              (* form.connect *)
}.

(** Callbacks handed to [setInterval] and [setTimeout], with the variables
    they close over. *)
Inductive task : Type :=
| WaitForForm (nick password realname : value)  (* the 100 ms interval *)
| SubmitForm                                    (* the 100 ms timeout *)
| StopWaiting (interval : nat)                  (* the 10 s timeout *)
| ReadySignal.                                  (* the 1 s timeout *)

Inductive level : Type := Log | Warn.

(** Entry of the two login / theme handlers, recorded for the proofs. *)
Inductive call : Type :=
| HandleIrcLogin (data : value)
| HandleThemeChange (data : value).

(** What the script reads from [window] and [navigator]. *)
Record Window : Type := {
  self_is_top : bool;      (* window.self === window.top *)
  parent_is_other : bool;  (* window.parent && window.parent !== window *)
  href : string;           (* window.location.href *)
  userAgent : string       (* navigator.userAgent *)
}.

Record Page : Type := {
  dom : Dom;
  loading : bool;                      (* document.readyState === 'loading' *)
  message_listeners : nat;             (* 'message' listeners of the script *)
  dcl_listeners : nat;                 (* 'DOMContentLoaded' listeners *)
  log_wrappers : nat;                  (* how often console.log was wrapped *)
  timers : list (nat * task);          (* live timers by id *)
  next_timer : nat;
  console : list (level * list value); (* what reached the native console *)
  posted : list (value * string);      (* parent.postMessage(message, target) *)
  submits : list Dom;                  (* connectForm.submit(), with the page then *)
  calls : list call
}.

Definition set_dom (d : Dom) (p : Page) : Page :=
  {| dom := d; loading := loading p; message_listeners := message_listeners p;
     dcl_listeners := dcl_listeners p; log_wrappers := log_wrappers p;
     timers := timers p; next_timer := next_timer p; console := console p;
     posted := posted p; submits := submits p; calls := calls p |}.

Definition set_loading (b : bool) (p : Page) : Page :=
  {| dom := dom p; loading := b; message_listeners := message_listeners p;
     dcl_listeners := dcl_listeners p; log_wrappers := log_wrappers p;
     timers := timers p; next_timer := next_timer p; console := console p;
     posted := posted p; submits := submits p; calls := calls p |}.

Definition set_message_listeners (n : nat) (p : Page) : Page :=
  {| dom := dom p; loading := loading p; message_listeners := n;
     dcl_listeners := dcl_listeners p; log_wrappers := log_wrappers p;
     timers := timers p; next_timer := next_timer p; console := console p;
     posted := posted p; submits := submits p; calls := calls p |}.

Definition set_dcl_listeners (n : nat) (p : Page) : Page :=
  {| dom := dom p; loading := loading p; message_listeners := message_listeners p;
     dcl_listeners := n; log_wrappers := log_wrappers p;
     timers := timers p; next_timer := next_timer p; console := console p;
     posted := posted p; submits := submits p; calls := calls p |}.

Definition set_log_wrappers (n : nat) (p : Page) : Page :=
  {| dom := dom p; loading := loading p; message_listeners := message_listeners p;
     dcl_listeners := dcl_listeners p; log_wrappers := n;
     timers := timers p; next_timer := next_timer p; console := console p;
     posted := posted p; submits := submits p; calls := calls p |}.

Definition set_timers (ts : list (nat * task)) (next : nat) (p : Page) : Page :=
  {| dom := dom p; loading := loading p; message_listeners := message_listeners p;
     dcl_listeners := dcl_listeners p; log_wrappers := log_wrappers p;
     timers := ts; next_timer := next; console := console p;
     posted := posted p; submits := submits p; calls := calls p |}.

Definition set_console (c : list (level * list value)) (p : Page) : Page :=
  {| dom := dom p; loading := loading p; message_listeners := message_listeners p;
     dcl_listeners := dcl_listeners p; log_wrappers := log_wrappers p;
     timers := timers p; next_timer := next_timer p; console := c;
     posted := posted p; submits := submits p; calls := calls p |}.

Definition set_posted (ms : list (value * string)) (p : Page) : Page :=
  {| dom := dom p; loading := loading p; message_listeners := message_listeners p;
     dcl_listeners := dcl_listeners p; log_wrappers := log_wrappers p;
     timers := timers p; next_timer := next_timer p; console := console p;
     posted := ms; submits := submits p; calls := calls p |}.

Definition set_submits (s : list Dom) (p : Page) : Page :=
  {| dom := dom p; loading := loading p; message_listeners := message_listeners p;
     dcl_listeners := dcl_listeners p; log_wrappers := log_wrappers p;
     timers := timers p; next_timer := next_timer p; console := console p;
     posted := posted p; submits := s; calls := calls p |}.

Definition set_calls (c : list call) (p : Page) : Page :=
  {| dom := dom p; loading := loading p; message_listeners := message_listeners p;
     dcl_listeners := dcl_listeners p; log_wrappers := log_wrappers p;
     timers := timers p; next_timer := next_timer p; console := console p;
     posted := posted p; submits := submits p; calls := c |}.

(** A page on which the script has not run yet. *)
Definition fresh_page (d : Dom) (is_loading : bool) : Page :=
  {| dom := d; loading := is_loading; message_listeners := 0;
     dcl_listeners := 0; log_wrappers := 0; timers := []; next_timer := 1;
     console := []; posted := []; submits := []; calls := [] |}.

(** *** Statements that can throw *)

(** How a piece of the script ends: it runs to its end, or it throws and
    the exception travels up to its caller. *)
Inductive completion : Type := Returns | Throws.

(** A piece of the script: what it does to the page and how it ends.
    What was done before an exception stays done. *)
Definition Script : Type := Page → completion * Page.

Definition skip : Script := fun p => (Returns, p).

(** [throw new TypeError(...)] *)
Definition throw : Script := fun p => (Throws, p).

(** A statement that cannot throw. *)
Definition act (f : Page → Page) : Script := fun p => (Returns, f p).

(** [a; b] *)
Definition seq (a b : Script) : Script :=
  fun p =>
    match a p with
    | (Returns, p') => b p'
    | (Throws, p') => (Throws, p')
    end.

Local Notation "a ;; b" := (seq a b) (at level 100, right associativity).

(** A listener, a timer callback or the script itself, run by the
    browser: an exception that nothing caught ends it, the browser reports
    the exception and goes on. *)
Definition uncaught (s : Script) (p : Page) : Page := (s p).2.

(** [setInterval] / [setTimeout]: the new timer gets the next id. *)
Definition add_timer (t : task) (p : Page) : Page :=
  set_timers (timers p ++ [(next_timer p, t)]) (S (next_timer p)) p.

(** [clearInterval(id)], also the removal of a timeout that has fired. *)
Definition clear_timer (id : nat) (p : Page) : Page :=
  set_timers (filter (fun t => t.1 ≠ id) (timers p)) (next_timer p) p.

Fixpoint find_timer (id : nat) (ts : list (nat * task)) : option task :=
  match ts with
  | [] => None
  | (i, t) :: rest => if Nat.eqb i id then Some t else find_timer id rest
  end.

Definition allowedOrigins : list string :=
  [ "https://curia.network";
    "https://www.curia.network";
    "http://localhost:3000";
    "http://localhost:3001" ].

(** [allowedOrigins.includes(origin)] *)
Definition origin_allowed (origin : string) : bool :=
  existsb (String.eqb origin) allowedOrigins.

Definition irc_event (eventType : string) (data : value) : value :=
  VObj [("type", VStr "irc-event"); ("eventType", VStr eventType); ("data", data)].

Definition notifyParent (w : Window) (eventType : string) (data : value)
    (p : Page) : Page :=
  if parent_is_other w
  then set_posted (posted p ++ [(irc_event eventType data, "*")]) p
  else p.

(** The body of the function that [setupConnectionMonitoring] installs as
    [console.log], up to its call of the previous [console.log].  The
    [join] of the arguments comes first, and it can throw. *)
Definition monitor (w : Window) (args : list value) : Script :=
  match join_values " " args with
  | None => throw
  | Some message =>
      act (fun p =>
             (* Look for connection-related messages *)
             if JsString.includes message "Connected to"
             then notifyParent w "connected" (VObj [("message", VStr message)]) p
             else if JsString.includes message "Disconnected from"
             then notifyParent w "disconnected" (VObj [("message", VStr message)]) p
             else if JsString.includes message "Joined channel"
             then notifyParent w "joined" (VObj [("message", VStr message)]) p
             else p)
  end.

(** [console.log(...args)] through [depth] nested wrappers down to the
    native function, which prints whatever it is given. *)
Fixpoint console_log_at (depth : nat) (w : Window) (args : list value)
    : Script :=
  match depth with
  | O => act (fun p => set_console (console p ++ [(Log, args)]) p)
  | S d => monitor w args ;; console_log_at d w args
  end.

Definition console_log (w : Window) (args : list value) : Script :=
  fun p => console_log_at (log_wrappers p) w args p.

(** [console.warn] is never wrapped. *)
Definition console_warn (args : list value) (p : Page) : Page :=
  set_console (console p ++ [(Warn, args)]) p.

Definition setupConnectionMonitoring (p : Page) : Page :=
  set_log_wrappers (S (log_wrappers p)) p.

Definition handleIrcLogin (w : Window) (data : value) : Script :=
  let nick := get data "nick" in
  let password := get data "password" in
  let realname := get data "realname" in
  act (fun p => set_calls (calls p ++ [HandleIrcLogin data]) p) ;;
  console_log w [VStr "Attempting IRC login for user:"; nick] ;;
  (* Wait for the connect form to be available *)
  act (fun p =>
         let waitForForm := next_timer p in
         let p := add_timer (WaitForForm nick password realname) p in
         (* Clear the interval after 10 seconds to avoid infinite loop *)
         add_timer (StopWaiting waitForForm) p).

Definition handleThemeChange (w : Window) (data : value) : Script :=
  let theme := get data "theme" in
  act (fun p => set_calls (calls p ++ [HandleThemeChange data]) p) ;;
  if truthy theme
  then console_log w [VStr "Applying theme:"; theme]
  else skip.

(** The 'message' listener, applied to [event.origin] and [event.data]. *)
Definition on_message (w : Window) (origin : string) (data : value)
    (p : Page) : Page :=
  if negb (origin_allowed origin)
  then console_warn [VStr "Ignored message from unauthorized origin:"; VStr origin] p
  else
    uncaught
      (console_log w [VStr "Received message from parent:"; data] ;;
       if truthy data && strict_eq_str (get data "type") "irc-login"
       then handleIrcLogin w data
       else if truthy data && strict_eq_str (get data "type") "irc-theme"
       then handleThemeChange w data
       else skip) p.

(** The inputs that the interval callback writes to. *)
Inductive field : Type := Nick | Password | Realname.

Definition write (f : field) (s : string) (d : Dom) : Dom :=
  match f with
  | Nick =>
      {| nickInput := Some s; passwordInput := passwordInput d;
         realnameInput := realnameInput d; connectForm := connectForm d |}
  | Password =>
      {| nickInput := nickInput d; passwordInput := Some s;
         realnameInput := realnameInput d; connectForm := connectForm d |}
  | Realname =>
      {| nickInput := nickInput d; passwordInput := passwordInput d;
         realnameInput := Some s; connectForm := connectForm d |}
  end.

(** [input.value = v]: the value is converted to a string, which can
    throw, and the input keeps the string without its line breaks. *)
Definition set_value (f : field) (v : value) : Script :=
  match to_string v with
  | None => throw
  | Some s => act (fun p => set_dom (write f (JsString.strip_newlines s) (dom p)) p)
  end.

(** One run of the interval callback of [handleIrcLogin]; [id] is the
    interval's own id, the [waitForForm] it closes over. *)
Definition wait_for_form (id : nat) (nick password realname : value)
    : Script :=
  fun p =>
    let d := dom p in
    match nickInput d, passwordInput d, connectForm d with
    | Some _, Some _, true =>
        (act (clear_timer id) ;;
         (* Fill in the form *)
         (if truthy nick then set_value Nick nick else skip) ;;
         (if truthy password then set_value Password password else skip) ;;
         (if truthy realname && bool_decide (is_Some (realnameInput d))
          then set_value Realname realname else skip) ;;
         (* Auto-submit the form *)
         act (add_timer SubmitForm)) p
    | _, _, _ => (Returns, p)
    end.

(** The timer [id] fires. *)
Definition fire (w : Window) (id : nat) (p : Page) : Page :=
  match find_timer id (timers p) with
  | None => p
  | Some (WaitForForm nick password realname) =>
      uncaught (wait_for_form id nick password realname) p
  | Some SubmitForm =>
      uncaught
        (act (clear_timer id) ;;
         console_log w [VStr "Submitting IRC connection form"] ;;
         act (fun p => set_submits (submits p ++ [dom p]) p)) p
  | Some (StopWaiting interval) =>
      clear_timer interval (clear_timer id p)
  | Some ReadySignal =>
      notifyParent w "ready"
        (VObj [("url", VStr (href w)); ("userAgent", VStr (userAgent w))])
        (clear_timer id p)
  end.

(** The script itself: the body of the immediately invoked function. *)
Definition run_script (w : Window) (p : Page) : Page :=
  if self_is_top w then p
  else
    uncaught
      (console_log w [VStr "CommonGround IRC integration loaded"] ;;
       act (fun p =>
              let p := set_message_listeners (S (message_listeners p)) p in
              let p :=
                if loading p
                then set_dcl_listeners (S (dcl_listeners p)) p
                else setupConnectionMonitoring p in
              add_timer ReadySignal p)) p.

(** What can happen to the page. *)
Inductive event : Type :=
| ScriptLoaded                                  (* the script element runs *)
| Message (origin : string) (data : value)      (* a 'message' event *)
| TimerFired (id : nat)
| DomContentLoaded
| PageLog (args : list value)                   (* the web client logs *)
| DomChanged (d : Dom).                         (* the web client re-renders *)

Definition step (w : Window) (p : Page) (e : event) : Page :=
  match e with
  | ScriptLoaded => run_script w p
  | Message origin data =>
      Nat.iter (message_listeners p) (on_message w origin data) p
  | TimerFired id => fire w id p
  | DomContentLoaded =>
      if loading p
      then Nat.iter (dcl_listeners p) setupConnectionMonitoring
             (set_loading false p)
      else p
  | PageLog args => uncaught (console_log w args) p
  | DomChanged d => set_dom d p
  end.

Definition run (w : Window) (p : Page) (events : list event) : Page :=
  fold_left (step w) events p.

(** *** Pages that differ in console output only *)

Definition same_but_console (p q : Page) : Prop :=
  dom p = dom q ∧ loading p = loading q ∧
  message_listeners p = message_listeners q ∧
  dcl_listeners p = dcl_listeners q ∧ log_wrappers p = log_wrappers q ∧
  timers p = timers q ∧ next_timer p = next_timer q ∧
  posted p = posted q ∧ submits p = submits q ∧ calls p = calls q.

(** A script does the same on two pages that differ in console output
    only, and ends the same way. *)
Definition respects_console (s : Script) : Prop :=
  ∀ p q, same_but_console p q →
    (s p).1 = (s q).1 ∧ same_but_console (s p).2 (s q).2.

(** A script keeps a property of the page, however it ends. *)
Definition preserves (I : Page → Prop) (s : Script) : Prop :=
  ∀ p, I p → I (s p).2.

(** Every message the script has posted is an 'irc-event' sent to '*'. *)
Definition irc_event_to_any (m : value * string) : Prop :=
  m.2 = "*" ∧
  ∃ eventType data,
    m.1 = VObj [("type", VStr "irc-event");
                ("eventType", VStr eventType);
                ("data", data)].

Definition posts_ok (p : Page) : Prop := Forall irc_event_to_any (posted p).

(** A page the script has left no trace on. *)
Definition untouched (p : Page) : Prop :=
  message_listeners p = 0%nat ∧ dcl_listeners p = 0%nat ∧
  log_wrappers p = 0%nat ∧ timers p = [] ∧ posted p = [] ∧
  submits p = [] ∧ calls p = [].

(** The document as the web client last rendered it. *)
Definition last_render (d : Dom) (e : event) : Dom :=
  match e with
  | DomChanged d' => d'
  | _ => d
  end.

(** Concrete pages and messages used in the examples. *)
Definition embedded_window : Window :=
  {| self_is_top := false; parent_is_other := true;
     href := "https://chat.curia.network/"; userAgent := "Mozilla/5.0" |}.

Definition top_window : Window :=
  {| self_is_top := true; parent_is_other := false;
     href := "https://chat.curia.network/"; userAgent := "Mozilla/5.0" |}.

Definition connect_page : Dom :=
  {| nickInput := Some ""; passwordInput := Some "";
     realnameInput := Some ""; connectForm := true |}.

Definition login_message : value :=
  VObj [("type", VStr "irc-login"); ("nick", VStr "mallory");
        ("password", VStr "hunter2"); ("realname", VStr "Mallory");
        ("channels", VArr [VStr "#general"])].

End Iframe.

(** ** The Lounge deep links: buildChatUrl and buildLoungeUrl *)

Module Redirect.

(** A parsed [URL] object.  [before_query] is the serialized scheme,
    authority and path; [fragment] is empty or starts with '#'. *)
Record Url : Type := {
  before_query : string;
  searchParams : list (string * string);
  fragment : string
}.

(** [url.searchParams.set(name, value)]: the first pair called [name]
    takes the value and the other pairs called [name] go; without such a
    pair, the new pair is appended. *)
Fixpoint set_param (name value : string) (l : list (string * string))
    : list (string * string) :=
  match l with
  | [] => [(name, value)]
  | (k, v) :: rest =>
      if String.eqb k name
      then (name, value) :: filter (fun kv => kv.1 ≠ name) rest
      else (k, v) :: set_param name value rest
  end.

Definition hex_digit (n : nat) : ascii :=
  match n with
  | 0 => "0" | 1 => "1" | 2 => "2" | 3 => "3" | 4 => "4" | 5 => "5"
  | 6 => "6" | 7 => "7" | 8 => "8" | 9 => "9" | 10 => "A" | 11 => "B"
  | 12 => "C" | 13 => "D" | 14 => "E" | _ => "F"
  end%nat%char.

(** One byte under the application/x-www-form-urlencoded serializer: a
    space becomes '+', letters, digits and [* - . _] stay, every other
    byte is written as a percent sign and two upper-case hex digits. *)
Definition encode_byte (c : ascii) : string :=
  if Ascii.eqb c " " then "+"
  else if JsString.is_alnum c
          || Ascii.eqb c "*" || Ascii.eqb c "-"
          || Ascii.eqb c "." || Ascii.eqb c "_"
  then String c ""
  else String "%"
         (String (hex_digit (nat_of_ascii c / 16))
            (String (hex_digit (nat_of_ascii c `mod` 16)) "")).

Fixpoint encode (s : string) : string :=
  match s with
  | EmptyString => ""
  | String c rest => encode_byte c +:+ encode rest
  end.

Definition encode_pair (kv : string * string) : string :=
  encode kv.1 +:+ "=" +:+ encode kv.2.

(** The query string that [URLSearchParams] serializes to. *)
Definition serialize (l : list (string * string)) : string :=
  JsString.join "&" (map encode_pair l).

(** [url.toString()] *)
Definition href (u : Url) : string :=
  before_query u
  +:+ match searchParams u with
      | [] => ""
      | l => "?" +:+ serialize l
      end
  +:+ fragment u.

Record ChatParams : Type := {
  username : string;
  password : string;
  nick : string;
  realname : string;
  channels : list string
}.

(** docs/identity-bridge-implementation-plan.md, [buildChatUrl].
    [baseUrl] is [new URL(process.env.NEXT_PUBLIC_CHAT_BASE_URL)]. *)
Definition buildChatUrl (baseUrl : Url) (params : ChatParams) : string :=
  let q := searchParams baseUrl in
  (* Auto-login parameters *)
  let q := set_param "autologin" "" q in
  let q := set_param "user" (username params) q in
  let q := set_param "al-password" (password params) q in
  (* Auto-connect parameters *)
  let q := set_param "autoconnect" "" q in
  let q := set_param "nick" (nick params) q in
  let q := set_param "username" (username params) q in
  let q := set_param "realname" (realname params) q in
  (* Channels to join *)
  let q :=
    if (0 <? length (channels params))%nat
    then set_param "join" (JsString.join "," (channels params)) q
    else q in
  (* Iframe-friendly options *)
  let q := set_param "nofocus" "" q in
  let q := set_param "lockchannel" "" q in
  href {| before_query := before_query baseUrl;
          searchParams := q;
          fragment := fragment baseUrl |}.

(** What one byte of the community id contributes to the channel name.
    A character outside ASCII is the bytes of its UTF-8 encoding.
    [toLowerCase] keeps such a character outside ASCII and at its number
    of UTF-16 code units, each of which the replacement turns into a
    hyphen: one for a character of two or three bytes, two for one of
    four bytes.  The first byte stands for the character and the bytes
    that continue it add nothing.  The two exceptions are U+0130, which
    lower-cases to i followed by U+0307, and U+212A, the Kelvin sign,
    which lower-cases to k. *)
Definition channel_piece (c : ascii) (rest : string) : string :=
  let n := nat_of_ascii c in
  if (n <? 128)%nat
  then
    let l := JsString.lower_char c in
    String (if JsString.is_lower l || JsString.is_digit l then l else "-"%char) ""
  else if (n <? 192)%nat then ""
  else if (n =? 196)%nat && JsString.starts_with rest (String "176" "")
  then "i-"
  else if (n =? 226)%nat
          && JsString.starts_with rest (String "132" (String "170" ""))
  then "k"
  else if (n <? 240)%nat then "-"
  else "--".

(** [communityId.toLowerCase().replace(/[^a-z0-9]/g, '-')] *)
Fixpoint channel_name (communityId : string) : string :=
  match communityId with
  | EmptyString => ""
  | String c rest => channel_piece c rest +:+ channel_name rest
  end.

(** The auth bridge page's [buildLoungeUrl]: a template string, nothing
    is encoded. *)
Definition buildLoungeUrl (ircUsername ircPassword communityId : string)
    : string :=
  let baseUrl := "http://localhost:9000" in
  let channelName := channel_name communityId in
  baseUrl +:+ "?autologin&user=" +:+ ircUsername
    +:+ "&al-password=" +:+ ircPassword
    +:+ "&autoconnect&nick=" +:+ ircUsername
    +:+ "&username=" +:+ ircUsername +:+ "/commonground"
    +:+ "&realname=" +:+ ircUsername
    +:+ "&join=%23" +:+ channelName
    +:+ "&lockchannel&nofocus".

(** The example of the specification. *)
Definition alice : ChatParams :=
  {| username := "alice_42"; password := "s3cr3t"; nick := "alice";
     realname := "Alice A."; channels := ["general"] |}.

Definition alice_hash_channel : ChatParams :=
  {| username := "alice_42"; password := "s3cr3t"; nick := "alice";
     realname := "Alice A."; channels := ["#general"] |}.

(** [new URL('http://localhost:9000')] *)
Definition lounge_base : Url :=
  {| before_query := "http://localhost:9000/"; searchParams := [];
     fragment := "" |}.

End Redirect.

(** ** bcryptjs, as far as the endpoints use it *)

Module Bcryptjs.

(** bcrypt itself.  The library is not part of the repository; the
    endpoints are modelled over any library of its shape.  [bcrypt_minor]
    is the revision letter that the library writes into a new salt (a for
    bcryptjs 2, b for bcryptjs 3).  [bcrypt_digest] is the
    password-hashing core: from the 29 characters of revision, cost and
    salt, and the password, to the 31 characters of digest. *)
Class Bcrypt : Type := {
  bcrypt_minor : ascii;
  bcrypt_digest : string → string → string;
  bcrypt_digest_length salt password :
    String.length (bcrypt_digest salt password) = 31%nat
}.

Definition base64_alphabet : list ascii :=
  JsString.to_list
    "./ABCDEFGHIJKLMNOPQRSTUVWXYZabcdefghijklmnopqrstuvwxyz0123456789".

Definition base64_char (n : nat) : ascii :=
  nth (n `mod` 64) base64_alphabet "."%char.

(** [bcrypt.genSalt(10)]: the revision, the cost and 22 characters of
    bcrypt's base-64 alphabet, drawn from the random [seed] (missing draws
    count as 0). *)
Definition genSalt `{Bcrypt} (seed : list nat) : string :=
  "$2" +:+ String bcrypt_minor
    ("$10$" +:+
     JsString.of_list (map base64_char (take 22 (seed ++ replicate 22 0%nat)))).

(** The hash string for a given salt string: the salt string, then the
    digest. *)
Definition hash_with `{Bcrypt} (salt password : string) : string :=
  salt +:+ bcrypt_digest salt password.

(** [bcrypt.hash(password, 10)] with the random seed of its salt *)
Definition hash `{Bcrypt} (seed : list nat) (password : string) : string :=
  hash_with (genSalt seed) password.

(** [bcrypt.compare(password, hash)]: a string that has not the 60
    characters of a hash is no match; otherwise hash the password again
    under the revision, cost and salt that [hash] starts with, and
    compare. *)
Definition compare `{Bcrypt} (password h : string) : bool :=
  (String.length h =? 60)%nat
  && String.eqb (hash_with (String.substring 0 29 h) password) h.

(** The character of [s] at [i], or a dot. *)
Definition char_or_dot (s : string) (i : nat) : ascii :=
  match String.get i s with
  | Some c => c
  | None => "."%char
  end.

(** A stand-in for the examples: revision a, and as the digest the
    password itself, cut or filled up with dots to 31 characters. *)
Definition example_digest (password : string) : string :=
  JsString.of_list (map (char_or_dot password) (seq 0 31)).

Definition example_bcrypt : Bcrypt :=
  {| bcrypt_minor := "a";
     bcrypt_digest := fun _ password => example_digest password;
     bcrypt_digest_length := fun _ _ => eq_refl |}.

End Bcryptjs.

(** ** The bouncer's database, as the endpoints reach it *)

Module Soju.

Record UserRow : Type := {
  user_id : nat;
  user_username : string;   (* VARCHAR(255) UNIQUE *)
  user_password : string;   (* VARCHAR(255) *)
  user_nick : string;       (* VARCHAR(255) *)
  user_realname : string;   (* VARCHAR(255) *)
  user_admin : bool;
  user_enabled : bool
}.

Record NetworkRow : Type := {
  net_id : nat;
  net_name : string;        (* VARCHAR(255) *)
  net_user : nat;           (* REFERENCES User(id) *)
  net_addr : string;        (* VARCHAR(255) *)
  net_nick : string;        (* VARCHAR(255) *)
  net_username : string;    (* VARCHAR(255) *)
  net_enabled : bool
}.

(** The module-level [Client] of lib/irc-db.ts.  A pg [Client] connects
    once: [connect()] on a client that was connected before throws,
    whether or not the client has ended since. *)
Inductive client_state : Type := ClientNew | ClientOpen | ClientEnded.

(** The two tables with their sequences, and the way to them: [link]
    tells for the round trips to come whether the server answers (after
    these it does), [client] is the state of the draft's client. *)
Record Db : Type := {
  users : list UserRow;       (* table "User" *)
  networks : list NetworkRow; (* table "Network" *)
  next_user_id : nat;         (* the SERIAL sequences *)
  next_network_id : nat;
  link : list bool;
  client : client_state
}.

Inductive error : Type :=
| ConnectionError
| ClientReused
| DataError
| UniqueViolation
| ForeignKeyViolation.

Inductive outcome (A : Type) : Type :=
| Ok (a : A)
| Thrown (e : error).
Arguments Ok {A} a.
Arguments Thrown {A} e.

(** An awaited database operation: it returns or throws, and leaves the
    database in some state either way (no transaction is opened). *)
Definition Query (A : Type) : Type := Db → outcome A * Db.

Definition ret {A} (a : A) : Query A := fun db => (Ok a, db).

Definition throw {A} (e : error) : Query A := fun db => (Thrown e, db).

Definition bind {A B} (m : Query A) (k : A → Query B) : Query B :=
  fun db =>
    match m db with
    | (Ok a, db') => k a db'
    | (Thrown e, db') => (Thrown e, db')
    end.

Notation "'await' x ← m ;; k" := (bind m (fun x => k))
  (at level 100, x name, m at next level, k at level 200, right associativity).

(** [try { body } finally { cleanup }] *)
Definition try_finally {A} (body : Query A) (cleanup : Query unit) : Query A :=
  fun db =>
    match body db with
    | (r, db') =>
        match cleanup db' with
        | (Ok _, db'') => (r, db'')
        | (Thrown e, db'') => (Thrown e, db'')
        end
    end.

Definition set_users (rows : list UserRow) (next : nat) (db : Db) : Db :=
  {| users := rows; networks := networks db; next_user_id := next;
     next_network_id := next_network_id db; link := link db;
     client := client db |}.

Definition set_networks (rows : list NetworkRow) (next : nat) (db : Db) : Db :=
  {| users := users db; networks := rows; next_user_id := next_user_id db;
     next_network_id := next; link := link db; client := client db |}.

Definition set_link (l : list bool) (db : Db) : Db :=
  {| users := users db; networks := networks db;
     next_user_id := next_user_id db; next_network_id := next_network_id db;
     link := l; client := client db |}.

Definition set_client (c : client_state) (db : Db) : Db :=
  {| users := users db; networks := networks db;
     next_user_id := next_user_id db; next_network_id := next_network_id db;
     link := link db; client := c |}.

(** One round trip to the server: getting a connection and sending a
    statement over it.  It throws when the server does not answer, before
    the statement has had any effect. *)
Definition round_trip : Query unit :=
  fun db =>
    match link db with
    | false :: rest => (Thrown ConnectionError, set_link rest db)
    | _ :: rest => (Ok (), set_link rest db)
    | [] => (Ok (), set_link [] db)
    end.

(** *** What the server accepts as a parameter *)

(** The server counts characters, and reads a text parameter as UTF-8:
    a byte that continues a character. *)
Definition is_continuation (c : ascii) : bool :=
  let n := nat_of_ascii c in ((128 <=? n) && (n <? 192))%nat.

(** A text parameter must not hold the NUL character. *)
Definition text_ok (s : string) : bool :=
  forallb (fun c => negb (Ascii.eqb c "000")) (JsString.to_list s).

(** The bytes of the first [n] characters of a string, and the bytes
    after them. *)
Fixpoint take_chars (n : nat) (l : list ascii) : list ascii :=
  match l with
  | [] => []
  | c :: rest =>
      if is_continuation c then c :: take_chars n rest
      else match n with
           | O => []
           | S m => c :: take_chars m rest
           end
  end.

Fixpoint drop_chars (n : nat) (l : list ascii) : list ascii :=
  match l with
  | [] => []
  | c :: rest =>
      if is_continuation c then drop_chars n rest
      else match n with
           | O => c :: rest
           | S m => drop_chars m rest
           end
  end.

(** A value assigned to a VARCHAR(255) column may have more than 255
    characters only when the excess is all spaces. *)
Definition varchar_ok (s : string) : bool :=
  text_ok s && forallb (Ascii.eqb " ") (drop_chars 255 (JsString.to_list s)).

(** What the column keeps of the value: its first 255 characters, which
    is all of it unless there is such an excess. *)
Definition kept (s : string) : string :=
  JsString.of_list (take_chars 255 (JsString.to_list s)).

Arguments varchar_ok : simpl never.
Arguments kept : simpl never.

(** A statement whose parameters the server refuses has no effect. *)
Definition checked {A} (ok : bool) (statement : Query A) : Query A :=
  fun db => if ok then statement db else (Thrown DataError, db).

(** *** The statements *)

(** SELECT id FROM "User" WHERE username = $1 *)
Definition select_user_ids (username : string) : Query (list nat) :=
  checked (text_ok username)
    (fun db =>
       (Ok (map user_id
              (filter (fun r => user_username r = username) (users db))), db)).

Definition update_row (password nick realname : string) (r : UserRow) : UserRow :=
  {| user_id := user_id r; user_username := user_username r;
     user_password := password; user_nick := nick; user_realname := realname;
     user_admin := user_admin r; user_enabled := user_enabled r |}.

(** UPDATE "User" SET password = $2, nick = $3, realname = $4 WHERE id = $1 *)
Definition update_user_by_id (id : nat) (password nick realname : string)
    : Query unit :=
  checked (varchar_ok password && varchar_ok nick && varchar_ok realname)
    (fun db =>
       (Ok (),
        set_users
          (map (fun r => if Nat.eqb (user_id r) id
                         then update_row (kept password) (kept nick)
                                (kept realname) r
                         else r)
             (users db))
          (next_user_id db) db)).

(** UPDATE "User" SET password = $2, nick = $3, realname = $4
    WHERE username = $1 *)
Definition update_user_by_username (username password nick realname : string)
    : Query unit :=
  checked (text_ok username
           && varchar_ok password && varchar_ok nick && varchar_ok realname)
    (fun db =>
       (Ok (),
        set_users
          (map (fun r => if String.eqb (user_username r) username
                         then update_row (kept password) (kept nick)
                                (kept realname) r
                         else r)
             (users db))
          (next_user_id db) db)).

(** INSERT INTO "User" (username, password, nick, realname, admin, enabled)
    VALUES ($1, $2, $3, $4, false, true) RETURNING id *)
Definition insert_user (username password nick realname : string) : Query nat :=
  checked (varchar_ok username
           && varchar_ok password && varchar_ok nick && varchar_ok realname)
    (fun db =>
       let id := next_user_id db in
       if existsb (fun r => String.eqb (user_username r) (kept username))
            (users db)
       then (Thrown UniqueViolation, set_users (users db) (S id) db)
       else
         (Ok id,
          set_users
            (users db ++
             [ {| user_id := id; user_username := kept username;
                  user_password := kept password; user_nick := kept nick;
                  user_realname := kept realname; user_admin := false;
                  user_enabled := true |} ])
            (S id) db)).

Definition same_network (name : string) (user : nat) (n : NetworkRow) : bool :=
  String.eqb (net_name n) name && Nat.eqb (net_user n) user.

Definition new_network (id : nat) (name : string) (user : nat)
    (addr nick username : string) : NetworkRow :=
  {| net_id := id; net_name := name; net_user := user; net_addr := addr;
     net_nick := nick; net_username := username; net_enabled := true |}.

(** Whether "User" has a row with this id, as the foreign key of
    "Network" asks. *)
Definition user_exists (user : nat) (db : Db) : bool :=
  existsb (fun r => Nat.eqb (user_id r) user) (users db).

(** INSERT INTO "Network" (name, "user", addr, nick, username, enabled)
    VALUES ($1, $2, $3, $4, $5, true)
    ON CONFLICT (name, "user") DO UPDATE
      SET nick = EXCLUDED.nick, username = EXCLUDED.username
    The conflict target (name, "user") is the unique key of the table. *)
Definition upsert_network (name : string) (user : nat)
    (addr nick username : string) : Query unit :=
  checked (varchar_ok name && varchar_ok addr
           && varchar_ok nick && varchar_ok username)
    (fun db =>
       let id := next_network_id db in
       if existsb (same_network (kept name) user) (networks db)
       then
         (Ok (),
          set_networks
            (map (fun n => if same_network (kept name) user n
                           then {| net_id := net_id n; net_name := net_name n;
                                   net_user := net_user n; net_addr := net_addr n;
                                   net_nick := kept nick;
                                   net_username := kept username;
                                   net_enabled := net_enabled n |}
                           else n)
               (networks db))
            (S id) db)
       else if user_exists user db
       then
         (Ok (),
          set_networks
            (networks db ++
             [new_network id (kept name) user (kept addr) (kept nick)
                (kept username)])
            (S id) db)
       else (Thrown ForeignKeyViolation, set_networks (networks db) (S id) db)).

(** INSERT INTO "Network" (...) VALUES ($1, $2, $3, $4, $5, true)
    ON CONFLICT DO NOTHING *)
Definition insert_network_if_absent (name : string) (user : nat)
    (addr nick username : string) : Query unit :=
  checked (varchar_ok name && varchar_ok addr
           && varchar_ok nick && varchar_ok username)
    (fun db =>
       let id := next_network_id db in
       if existsb (same_network (kept name) user) (networks db)
       then (Ok (), set_networks (networks db) (S id) db)
       else if user_exists user db
       then
         (Ok (),
          set_networks
            (networks db ++
             [new_network id (kept name) user (kept addr) (kept nick)
                (kept username)])
            (S id) db)
       else (Thrown ForeignKeyViolation, set_networks (networks db) (S id) db)).

(** *** The two ways to the server *)

(** The [ircQuery] of the endpoint specification: a connection from the
    pool for every statement. *)
Definition ircQuery {A} (statement : Query A) : Query A :=
  await _ ← round_trip ;;
  statement.

(** [ircDb.connect()] on the draft's client. *)
Definition client_connect : Query unit :=
  fun db =>
    match client db with
    | ClientNew =>
        match round_trip db with
        | (Ok _, db') => (Ok (), set_client ClientOpen db')
        | (Thrown e, db') => (Thrown e, set_client ClientEnded db')
        end
    | ClientOpen | ClientEnded => (Thrown ClientReused, db)
    end.

(** [ircDb.query(...)] on the draft's client. *)
Definition client_query {A} (statement : Query A) : Query A :=
  fun db =>
    match client db with
    | ClientOpen => (await _ ← round_trip ;; statement) db
    | ClientNew | ClientEnded => (Thrown ConnectionError, db)
    end.

(** [ircDb.end()] *)
Definition client_end : Query unit :=
  fun db => (Ok (), set_client ClientEnded db).

(** The password column of the account called [username]. *)
Definition stored_password (username : string) (db : Db) : option string :=
  user_password <$>
    head (filter (fun r => user_username r = username) (users db)).

(** The accounts called [username]. *)
Abbreviation accounts username db :=
  (filter (fun r => user_username r = username) (users db)).

(** An empty database that answers, before the server process has used
    its client. *)
Definition empty_db : Db :=
  {| users := []; networks := []; next_user_id := 1; next_network_id := 1;
     link := []; client := ClientNew |}.

End Soju.

(** ** POST /api/irc-user-provision (the endpoint specification) *)

Module Provision.
Import Bcryptjs Soju.

(** The random draws of one call: two results of [Math.random()], each
    as the list of its base-36 digits after the point, and the seed of the
    bcrypt salt. *)
Record Entropy : Type := {
  random1 : list nat;
  random2 : list nat;
  salt_seed : list nat
}.

Definition digit36 (n : nat) : ascii :=
  nth (n `mod` 36)
    (JsString.to_list "0123456789abcdefghijklmnopqrstuvwxyz") "0"%char.

(** [Math.random().toString(36).slice(2)] *)
Definition random_base36 (digits : list nat) : string :=
  JsString.of_list (map digit36 digits).

Definition generateIrcUsername (name userId : string) : string :=
  (* Clean name and add user ID suffix for uniqueness *)
  let cleanName :=
    JsString.to_lower
      (JsString.of_list
         (filter (fun c => JsString.is_alnum c = true) (JsString.to_list name))) in
  let userSuffix := JsString.slice_last 4 userId in
  JsString.slice_to 32 (cleanName +:+ "_" +:+ userSuffix).

Definition generateSecurePassword (e : Entropy) : string :=
  random_base36 (random1 e) +:+ random_base36 (random2 e).

Definition hashIrcPassword `{Bcrypt} (e : Entropy) (password : string) : string :=
  Bcryptjs.hash (salt_seed e) password.

(** [req.user], the claims of the JWT. *)
Record JwtUser : Type := {
  sub : string;
  name : option string
}.

Record ProvisionRequest : Type := {
  communityId : option string
}.

(** The request after [withAuth]; [json] is [None] when [req.json()]
    throws. *)
Record Request : Type := {
  user : option JwtUser;
  json : option ProvisionRequest
}.

Inductive Response : Type :=
| Provisioned (ircUsername ircPassword networkName : string)  (* 200 *)
| Failed (status : nat) (error : string).

Definition status (r : Response) : nat :=
  match r with
  | Provisioned _ _ _ => 200
  | Failed st _ => st
  end.

(** [a || b] on an optional string *)
Definition or_else (a : option string) (b : string) : string :=
  match a with
  | Some s => if String.eqb s "" then b else s
  | None => b
  end.

Definition upsertSojuUser
    (curiaUserId ircUsername hashedPassword nickname realname communityId : string)
    : Query (nat * string) :=
  (* Check if user exists *)
  await existingUser ← ircQuery (select_user_ids ircUsername) ;;
  await userId ←
    match existingUser with
    | id :: _ =>
        (* Update existing user *)
        await _ ← ircQuery
                    (update_user_by_id id hashedPassword nickname realname) ;;
        ret id
    | [] =>
        (* Create new user *)
        ircQuery (insert_user ircUsername hashedPassword nickname realname)
    end ;;
  (* Ensure network exists for user *)
  await _ ← ircQuery
              (upsert_network "commonground" userId "irc+insecure://ergo:6667"
                 nickname ircUsername) ;;
  ret (userId, ircUsername).

Definition provisionIrcUserHandler `{Bcrypt} (e : Entropy) (req : Request)
    (db : Db) : Response * Db :=
  match user req with
  | None => (Failed 401 "User not found", db)
  | Some user =>
      match json req with
      | None => (Failed 500 "Failed to provision IRC user", db)
      | Some body =>
          match communityId body with
          | None | Some "" => (Failed 400 "communityId is required", db)
          | Some communityId =>
              (* Generate IRC username (avoid conflicts) *)
              let ircUsername :=
                generateIrcUsername (or_else (name user) (sub user)) (sub user) in
              (* Generate secure password for IRC *)
              let ircPassword := generateSecurePassword e in
              let hashedPassword := hashIrcPassword e ircPassword in
              (* Upsert user in Soju database *)
              match upsertSojuUser (sub user) ircUsername hashedPassword
                      (or_else (name user) ircUsername)
                      (or_else (name user) ircUsername)
                      communityId db with
              | (Ok _, db') =>
                  (Provisioned ircUsername ircPassword "commonground", db')
              | (Thrown _, db') =>
                  (Failed 500 "Failed to provision IRC user", db')
              end
          end
      end
  end.

(** The bouncer's check of a login against the password column: the
    [verify] of the credential store. *)
Definition verify `{Bcrypt} (username password : string) (db : Db) : bool :=
  match stored_password username db with
  | Some h => Bcryptjs.compare password h
  | None => false
  end.

(** The username that the handler derives for a user. *)
Definition username_of (u : JwtUser) : string :=
  generateIrcUsername (or_else (name u) (sub u)) (sub u).

(** A request that passed [withAuth] and names a community. *)
Definition authenticated (u : JwtUser) (community : string) : Request :=
  {| user := Some u; json := Some {| communityId := Some community |} |}.

(** Users and draws used in the examples. *)
Definition bob : JwtUser := {| sub := "cg-user-1234"; name := Some "Bob" |}.

Definition bob_renamed : JwtUser :=
  {| sub := "cg-user-1234"; name := Some "Robert" |}.

Definition other_bob : JwtUser := {| sub := "cg-admin-1234"; name := Some "Bob" |}.

Definition anonymous_request : Request :=
  {| user := None; json := Some {| communityId := Some "general" |} |}.

Definition draws_a : Entropy :=
  {| random1 := [10; 11; 12; 1; 2; 3]; random2 := [35; 34; 33; 9; 8; 7];
     salt_seed := [1; 2; 3; 4; 5; 6; 7; 8; 9; 10; 11] |}.

Definition draws_b : Entropy :=
  {| random1 := [20; 21; 22; 4; 5; 6]; random2 := [5; 4; 3; 30; 31; 32];
     salt_seed := [40; 41; 42; 43; 44; 45; 46; 47; 48; 49; 50] |}.

End Provision.

(** ** POST /api/irc-user-provision (the integration-points draft) *)

Module ProvisionDraft.
Import Soju.

(** What [getCurrentUser(request)] returns. *)
Record Session : Type := {
  id : string;
  name : option string
}.

Record Request : Type := {
  session : option Session;
  json : option Provision.ProvisionRequest
}.

Definition or_empty (a : option string) : string :=
  match a with
  | Some s => s
  | None => ""
  end.

(** lib/irc-db.ts: here the third argument is the password itself.
    [ircDb] is one client for the whole server process; the function
    connects it, sends its statements over it and ends it. *)
Definition upsertSojuUser
    (curiaUserId ircUsername ircPassword nickname realname communityId : string)
    : Query nat :=
  await _ ← client_connect ;;
  try_finally
    ((* Check if user exists *)
     await existingUser ← client_query (select_user_ids ircUsername) ;;
     match existingUser with
     | id :: _ =>
         (* Update existing user *)
         await _ ← client_query
                     (update_user_by_username ircUsername ircPassword
                        nickname realname) ;;
         ret id
     | [] =>
         (* Create new user *)
         await newUser ← client_query
                           (insert_user ircUsername ircPassword nickname realname) ;;
         (* Ensure network exists for user *)
         await _ ← client_query
                     (insert_network_if_absent "commonground" newUser
                        "irc+insecure://ergo:6667" nickname ircUsername) ;;
         ret newUser
     end)
    client_end.

Definition POST (e : Provision.Entropy) (req : Request) (db : Db)
    : Provision.Response * Db :=
  (* 1. Validate user session *)
  match session req with
  | None => (Provision.Failed 401 "Unauthorized", db)
  | Some session =>
      match json req, name session with
      | Some body, Some name =>
          (* 2. Connect to IRC postgres database *)
          let ircPassword := Provision.generateSecurePassword e in
          let ircUsername := Provision.generateIrcUsername name (id session) in
          (* 3. Upsert user in Soju database *)
          match upsertSojuUser (id session) ircUsername ircPassword name name
                  (or_empty (Provision.communityId body)) db with
          | (Ok _, db') =>
              (* 4. Return credentials for auto-login *)
              (Provision.Provisioned ircUsername ircPassword "commonground", db')
          | (Thrown _, db') => (Provision.Failed 500 "Provisioning failed", db')
          end
      | _, _ => (Provision.Failed 500 "Provisioning failed", db)
      end
  end.

Definition request_of (id : string) (name : string) (community : string)
    : Request :=
  {| session := Some {| id := id; name := Some name |};
     json := Some {| Provision.communityId := Some community |} |}.

Definition anonymous_request : Request :=
  {| session := None; json := Some {| Provision.communityId := Some "general" |} |}.

(** The database as a new server process finds it: the tables are what
    they were, the module-level client is new. *)
Definition restart (db : Db) : Db := set_client ClientNew db.

End ProvisionDraft.

(** ** /api/irc-auth, the bouncer's HTTP auth callback *)

Module AuthCallback.

(** A row of the [irc_users] table. *)
Record IrcUser : Type := {
  id : nat;
  cgUserId : string;
  ircUsername : string;
  ircPasswordHash : string;
  ircRealname : string;
  lastUsedAt : nat
}.

(** What the handler did, in order. *)
Inductive operation : Type :=
| FindIrcUserByUsername (username : string)
| VerifyPassword (password hash : string)
| UpdateIrcUserLastUsed (id : nat).

Record Response : Type := {
  status : nat;
  body : string + bool   (* { error } or { success } *)
}.

(** The handler awaits three helpers that the plan names and the
    repository does not hold: [findIrcUserByUsername], [verifyPassword]
    and [updateIrcUserLastUsed]. *)

(** Modelled from the spec: [verify] "updates last_used_at on success
    only".  [touch] writes the time into [last_used_at] of a row and
    changes nothing else in it. *)
Definition touch (now : nat) (u : IrcUser) : IrcUser :=
  {| id := id u; cgUserId := cgUserId u; ircUsername := ircUsername u;
     ircPasswordHash := ircPasswordHash u; ircRealname := ircRealname u;
     lastUsedAt := now |}.

(** Modelled from the spec: [updateIrcUserLastUsed(id)] is that update,
    on the rows with this id. *)
Definition updateIrcUserLastUsed (now : nat) (user : nat)
    (table : gmap string IrcUser) : gmap string IrcUser :=
  (fun u => if Nat.eqb (id u) user then touch now u else u) <$> table.

Section Handler.

(** [verifyPassword(password, hash)], the check of a password against a
    stored hash. *)
Variable verifyPassword : string → string → bool.

(** The time of the request. *)
Variable now : nat.

(** The handler, from the parsed credentials on; [table] is the
    [irc_users] table, by its unique [irc_username].  The handler has no
    [try]: when an awaited helper throws it gives no answer of its own,
    and what is described here are the requests in which the helpers
    return. *)
Definition handler (username password : string) (table : gmap string IrcUser)
    : Response * gmap string IrcUser * list operation :=
  (* Validate against our IRC user database *)
  match table !! username with
  | None =>
      ({| status := 403; body := inl "User not found" |}, table,
       [FindIrcUserByUsername username])
  | Some ircUser =>
      if verifyPassword password (ircPasswordHash ircUser)
      then
        (* Update last used timestamp *)
        ({| status := 200; body := inr true |},
         updateIrcUserLastUsed now (id ircUser) table,
         [FindIrcUserByUsername username;
          VerifyPassword password (ircPasswordHash ircUser);
          UpdateIrcUserLastUsed (id ircUser)])
      else
        ({| status := 403; body := inl "Invalid password" |}, table,
         [FindIrcUserByUsername username;
          VerifyPassword password (ircPasswordHash ircUser)])
  end.

End Handler.

(** The salt of the examples, and a stand-in for [verifyPassword] that
    takes the salt followed by the password for the hash of the
    password. *)
Definition example_salt : string := "$2a$10$/AB...................".

Definition example_verify (password hash : string) : bool :=
  String.eqb hash (example_salt +:+ password).

(** A table with one account, whose hash is that of ["s3cr3t"]. *)
Definition alice_row : IrcUser :=
  {| id := 1; cgUserId := "cg-user-123"; ircUsername := "alice_42";
     ircPasswordHash := example_salt +:+ "s3cr3t";
     ircRealname := "Alice A."; lastUsedAt := 0 |}.

Definition one_user : gmap string IrcUser := {[ "alice_42" := alice_row ]}.

End AuthCallback.

(** ** The iframe integration script: further notions *)

Module IframeMore.
Import Js Iframe.

(** Pages that agree on everything except what was written to the
    console and posted to the parent. *)
Definition same_but_output (p q : Page) : Prop :=
  dom p = dom q ∧ loading p = loading q ∧
  message_listeners p = message_listeners q ∧
  dcl_listeners p = dcl_listeners q ∧ log_wrappers p = log_wrappers q ∧
  timers p = timers q ∧ next_timer p = next_timer q ∧
  submits p = submits q ∧ calls p = calls q.

(** The label under which the wrapper of [setupConnectionMonitoring]
    reports a log line, if it reports it. *)
Definition connection_event (message : string) : option string :=
  if JsString.includes message "Connected to" then Some "connected"
  else if JsString.includes message "Disconnected from" then Some "disconnected"
  else if JsString.includes message "Joined channel" then Some "joined"
  else None.

(** Timers that belong to a login: the polling interval and the delayed
    submit. *)
Definition is_login_task (t : nat * task) : bool :=
  match t.2 with
  | WaitForForm _ _ _ | SubmitForm => true
  | StopWaiting _ | ReadySignal => false
  end.

Definition is_login_call (c : call) : bool :=
  match c with
  | HandleIrcLogin _ => true
  | HandleThemeChange _ => false
  end.

Definition pending_logins (p : Page) : nat :=
  length (List.filter is_login_task (timers p)).

Definition login_calls (p : Page) : nat :=
  length (List.filter is_login_call (calls p)).

(** Every live timer has an id below the next one to be handed out, and
    so has the interval that a stop timer refers to. *)
Definition timers_fresh (p : Page) : Prop :=
  Forall (fun t => t.1 < next_timer p ∧
                   match t.2 with
                   | StopWaiting interval => interval < next_timer p
                   | _ => True
                   end) (timers p).

(** Submissions made and logins still under way are covered by the
    entries of [handleIrcLogin]. *)
Definition login_budget (p : Page) : Prop :=
  length (submits p) + pending_logins p ≤ login_calls p.

(** The id was handed out and its timer is gone. *)
Definition dead_timer (id : nat) (p : Page) : Prop :=
  id < next_timer p ∧ find_timer id (timers p) = None.

(** No message of the run comes from an origin on the allow-list. *)
Definition unauthorized_only (events : list event) : Prop :=
  Forall (fun e => match e with
                   | Message origin _ => origin_allowed origin = false
                   | _ => True
                   end) events.

(** [data && data.type === 'irc-login'] *)
Definition is_irc_login (data : value) : bool :=
  truthy data && strict_eq_str (get data "type") "irc-login".

(** A page whose script runs embedded, polling for the form. *)
Definition polling_page : Page :=
  run embedded_window
    (fresh_page {| nickInput := None; passwordInput := None;
                   realnameInput := None; connectForm := false |} false)
    [ScriptLoaded; Message "https://curia.network" login_message].

End IframeMore.

(** ** The deep links: further notions *)

Module RedirectMore.
Import Redirect.

(** The query of the URL that [buildChatUrl] returns: its chain of
    [searchParams.set] calls on the parameters of the base URL. *)
Definition chat_query (baseUrl : Url) (params : ChatParams)
    : list (string * string) :=
  let q := searchParams baseUrl in
  let q := set_param "autologin" "" q in
  let q := set_param "user" (username params) q in
  let q := set_param "al-password" (password params) q in
  let q := set_param "autoconnect" "" q in
  let q := set_param "nick" (nick params) q in
  let q := set_param "username" (username params) q in
  let q := set_param "realname" (realname params) q in
  let q :=
    if (0 <? length (channels params))%nat
    then set_param "join" (JsString.join "," (channels params)) q
    else q in
  let q := set_param "nofocus" "" q in
  set_param "lockchannel" "" q.

(** The pairs of a query that carry the name [name]. *)
Definition named (name : string) (q : list (string * string))
    : list (string * string) :=
  filter (fun kv => kv.1 = name) q.

(** How often the character [c] occurs in [s]. *)
Definition count_char (c : ascii) (s : string) : nat :=
  length (filter (fun x => x = c) (JsString.to_list s)).

(** The characters of an IRC channel name as [buildLoungeUrl] makes it. *)
Definition is_channel_char (c : ascii) : bool :=
  JsString.is_lower c || JsString.is_digit c || Ascii.eqb c "-".

(** The characters of ASCII. *)
Definition is_ascii (c : ascii) : bool := (nat_of_ascii c <? 128)%nat.

(** The characters that the serializer of a query leaves as they are. *)
Definition unreserved (c : ascii) : bool :=
  JsString.is_alnum c
  || Ascii.eqb c "*" || Ascii.eqb c "-"
  || Ascii.eqb c "." || Ascii.eqb c "_".

(** The characters that an encoded name or value can consist of. *)
Definition url_safe (c : ascii) : bool :=
  unreserved c || Ascii.eqb c "+" || Ascii.eqb c "%".

Definition all_chars (f : ascii → bool) (s : string) : bool :=
  forallb f (JsString.to_list s).

(** The names that [buildChatUrl] always sets. *)
Definition fixed_names : list string :=
  ["autologin"; "user"; "al-password"; "autoconnect"; "nick"; "username";
   "realname"; "nofocus"; "lockchannel"].

(** A base URL that already carries parameters, two of them twice. *)
Definition busy_base : Url :=
  {| before_query := "https://chat.curia.network/";
     searchParams := [("user", "admin"); ("theme", "dark"); ("user", "root");
                      ("join", "#lobby"); ("join", "#old")];
     fragment := "#top" |}.

(** Two inputs with the same comma-joined channel list. *)
Definition two_channels : ChatParams :=
  {| username := "alice_42"; password := "s3cr3t"; nick := "alice";
     realname := "Alice A."; channels := ["#general"; "#test"] |}.

Definition channel_with_comma : ChatParams :=
  {| username := "alice_42"; password := "s3cr3t"; nick := "alice";
     realname := "Alice A."; channels := ["#general,#test"] |}.

End RedirectMore.

(** ** The provisioning endpoint: further notions *)

Module ProvisionMore.
Import Soju Provision.

(** [name.replace(/[^a-zA-Z0-9]/g, '').toLowerCase()], the first step of
    [generateIrcUsername]. *)
Definition clean_name (name : string) : string :=
  JsString.to_lower
    (JsString.of_list
       (filter (fun c => JsString.is_alnum c = true) (JsString.to_list name))).

(** The digits of base 36. *)
Definition is_base36 (c : ascii) : bool :=
  JsString.is_digit c || JsString.is_lower c.

(** The constraints of the "User" table: unique usernames, unique ids,
    and ids below the next value of the sequence. *)
Definition users_ok (db : Db) : Prop :=
  NoDup (map user_username (users db)) ∧
  NoDup (map user_id (users db)) ∧
  Forall (fun r => user_id r < next_user_id db) (users db).

(** The networks called [name] of the account [user]. *)
Definition user_networks (name : string) (user : nat) (db : Db)
    : list NetworkRow :=
  List.filter (same_network name user) (networks db).

(** The id of the account that an upsert for [username] writes to. *)
Definition target_id (username : string) (db : Db) : nat :=
  match accounts username db with
  | r :: _ => user_id r
  | [] => next_user_id db
  end.

(** The "User" table after an upsert for [username]: the row of the
    account updated in place, or a new row at the end. *)
Definition upserted_users (username password nick realname : string) (db : Db)
    : list UserRow :=
  match accounts username db with
  | r0 :: _ =>
      map (fun r => if Nat.eqb (user_id r) (user_id r0)
                    then update_row password nick realname r else r)
        (users db)
  | [] =>
      users db ++
      [ {| user_id := next_user_id db; user_username := username;
           user_password := password; user_nick := nick;
           user_realname := realname; user_admin := false;
           user_enabled := true |} ]
  end.

(** The "Network" table after the upsert of the account's network. *)
Definition upserted_networks (user : nat) (nick username : string) (db : Db)
    : list NetworkRow :=
  if existsb (same_network "commonground" user) (networks db)
  then
    map (fun n => if same_network "commonground" user n
                  then {| net_id := net_id n; net_name := net_name n;
                          net_user := net_user n; net_addr := net_addr n;
                          net_nick := nick; net_username := username;
                          net_enabled := net_enabled n |}
                  else n)
      (networks db)
  else
    networks db ++
    [new_network (next_network_id db) "commonground" user
       "irc+insecure://ergo:6667" nick username].

(** The nick and real name that the handler writes for a user. *)
Definition nickname_of (u : JwtUser) : string :=
  or_else (name u) (username_of u).

(** A display name of forty letters. *)
Definition long_name : string := "Bartholomew Maximilian Featherstonehaugh IV".

(** The server answers the first two round trips and not the third. *)
Definition drops_third (db : Db) : Db := set_link [true; true; false] db.

(** A database with two accounts. *)
Definition two_accounts : Db :=
  (@provisionIrcUserHandler Bcryptjs.example_bcrypt draws_b
     (authenticated {| sub := "cg-user-9999"; name := Some "Carol" |} "general")
     (@provisionIrcUserHandler Bcryptjs.example_bcrypt draws_a
        (authenticated bob "general") empty_db).2).2.

End ProvisionMore.

(** ** The chat modal's link to the auth bridge *)

Module ChatModal.

(** The characters that [encodeURIComponent] leaves as they are. *)
Definition uri_unreserved (c : ascii) : bool :=
  JsString.is_alnum c
  || Ascii.eqb c "-" || Ascii.eqb c "_" || Ascii.eqb c "." || Ascii.eqb c "!"
  || Ascii.eqb c "~" || Ascii.eqb c "*" || Ascii.eqb c "'" || Ascii.eqb c "("
  || Ascii.eqb c ")".

Definition encode_uri_byte (c : ascii) : string :=
  if uri_unreserved c then String c ""
  else String "%"
         (String (Redirect.hex_digit (nat_of_ascii c / 16))
            (String (Redirect.hex_digit (nat_of_ascii c `mod` 16)) "")).

(** [encodeURIComponent(s)] *)
Fixpoint encodeURIComponent (s : string) : string :=
  match s with
  | EmptyString => ""
  | String c rest => encode_uri_byte c +:+ encodeURIComponent rest
  end.

(** The part of the link that [getChatUrl] puts after [curiaBaseUrl]. *)
Definition bridge_path (communityId userId : string) : string :=
  "/irc-auth-bridge?"
  +:+ ("community=" +:+ encodeURIComponent communityId)
  +:+ "&"
  +:+ ("user=" +:+ encodeURIComponent userId).

(** ChatModal.tsx, [getChatUrl], as a function of [curiaBaseUrl],
    [community.id] and [user.id]. *)
Definition getChatUrl (curiaBaseUrl communityId userId : string) : string :=
  let communityParam := "community=" +:+ encodeURIComponent communityId in
  let userParam := "user=" +:+ encodeURIComponent userId in
  curiaBaseUrl +:+ "/irc-auth-bridge?" +:+ communityParam +:+ "&" +:+ userParam.

End ChatModal.

(** * Properties

    ** Strings *)

Module JsStringFacts.
Import JsString.

Lemma append_cons c (a b : string) : String c a +:+ b = String c (a +:+ b).
Proof. reflexivity. Qed.

Lemma append_empty_l (b : string) : "" +:+ b = b.
Proof. reflexivity. Qed.

Lemma append_assoc (a b c : string) : (a +:+ b) +:+ c = a +:+ b +:+ c.
Proof.
  induction a as [|x a IH]; [done|]. rewrite !append_cons. by rewrite IH.
Qed.

Lemma append_empty_r (a : string) : a +:+ "" = a.
Proof.
  induction a as [|x a IH]; [done|]. rewrite append_cons. by rewrite IH.
Qed.

Lemma starts_with_spec s t : starts_with s t = true ↔ ∃ b, s = t +:+ b.
Proof.
  revert s. induction t as [|c t IH]; intros s.
  - split; [|done]. intros _. by exists s.
  - destruct s as [|d s]; simpl.
    + split; [done|]. by intros [b Hb].
    + destruct (Ascii.eqb_spec c d) as [->|Hne].
      * rewrite IH. split; intros [b Hb]; exists b.
        -- rewrite append_cons. by rewrite Hb.
        -- rewrite append_cons in Hb. congruence.
      * split; [done|]. intros [b Hb]. rewrite append_cons in Hb. congruence.
Qed.

Lemma includes_spec s t : includes s t = true ↔ occurs t s.
Proof.
  unfold occurs. induction s as [|c s IH].
  - unfold includes. destruct (starts_with "" t) eqn:E.
    + split; [|done]. intros _. apply starts_with_spec in E as [b Hb].
      by exists "", b.
    + split; [done|]. intros (a & b & Hab). destruct a; [|done].
      rewrite append_empty_l in Hab.
      assert (starts_with "" t = true) as E'
        by (apply starts_with_spec; eauto). congruence.
  - change (includes (String c s) t)
      with (if starts_with (String c s) t then true else includes s t).
    destruct (starts_with (String c s) t) eqn:E.
    + split; [|done]. intros _. apply starts_with_spec in E as [b Hb].
      by exists "", b.
    + rewrite IH. split.
      * intros (a & b & ->). by exists (String c a), b.
      * intros (a & b & Hab). destruct a as [|x a].
        -- rewrite append_empty_l in Hab.
           assert (starts_with (String c s) t = true) as E'
             by (apply starts_with_spec; eauto). congruence.
        -- rewrite append_cons in Hab. injection Hab as -> ->. by exists a, b.
Qed.

Lemma occurs_refl t : occurs t t.
Proof. exists "", "". by rewrite append_empty_l, append_empty_r. Qed.

Lemma occurs_app_l t s b : occurs t s → occurs t (s +:+ b).
Proof.
  intros (a & c & ->). exists a, (c +:+ b). by rewrite !append_assoc.
Qed.

Lemma occurs_app_r t s a : occurs t s → occurs t (a +:+ s).
Proof.
  intros (a' & c & ->). exists (a +:+ a'), c. by rewrite !append_assoc.
Qed.

Lemma occurs_join sep x l : x ∈ l → occurs x (join sep l).
Proof.
  induction l as [|y l IH]; intros Hin; [by apply elem_of_nil in Hin|].
  apply elem_of_cons in Hin as [->|Hin].
  - destruct l as [|z l]; simpl; [apply occurs_refl|].
    apply occurs_app_l, occurs_refl.
  - destruct l as [|z l]; [by apply elem_of_nil in Hin|].
    change (join sep (y :: z :: l)) with (y +:+ sep +:+ join sep (z :: l)).
    by apply occurs_app_r, occurs_app_r, IH.
Qed.

(** *** Strings as lists of characters *)

Lemma to_list_length s : length (to_list s) = String.length s.
Proof. induction s as [|c s IH]; simpl; congruence. Qed.

Lemma of_list_length (l : list ascii) : String.length (of_list l) = length l.
Proof. induction l as [|c l IH]; simpl; congruence. Qed.

Lemma to_list_of_list l : to_list (of_list l) = l.
Proof. apply String.list_ascii_of_string_of_list_ascii. Qed.

Lemma of_to_list s : of_list (to_list s) = s.
Proof. apply String.string_of_list_ascii_of_string. Qed.

Lemma string_length_app (a b : string) :
  String.length (a +:+ b) = String.length a + String.length b.
Proof.
  induction a as [|x a IH]; [done|]. rewrite append_cons. simpl. by rewrite IH.
Qed.

End JsStringFacts.

(** ** The iframe integration script *)

Module IframeFacts.
Import Js Iframe.

Ltac sim_intro :=
  let Hd := fresh "Hdom" in
  let Hl := fresh "Hload" in
  let Hm := fresh "Hmsg" in
  let Hc := fresh "Hdcl" in
  let Hw := fresh "Hwrap" in
  let Ht := fresh "Htim" in
  let Hn := fresh "Hnext" in
  let Hp := fresh "Hpost" in
  let Hs := fresh "Hsub" in
  let Hk := fresh "Hcalls" in
  intros (Hd & Hl & Hm & Hc & Hw & Ht & Hn & Hp & Hs & Hk).

Ltac sim_close := unfold same_but_console; simpl; repeat split; congruence.

(** *** Scripts *)

Lemma preserves_skip I : preserves I skip.
Proof. by intros p H. Qed.

Lemma preserves_throw I : preserves I throw.
Proof. by intros p H. Qed.

Lemma preserves_act I (f : Page → Page) :
  (∀ p, I p → I (f p)) → preserves I (act f).
Proof. intros Hf p H. by apply Hf. Qed.

Lemma preserves_seq I (a b : Script) :
  preserves I a → preserves I b → preserves I (seq a b).
Proof.
  intros Ha Hb p H. unfold seq. specialize (Ha p H).
  destruct (a p) as [[|] p']; simpl in *; [by apply Hb|done].
Qed.

Lemma preserves_if I (c : bool) (a b : Script) :
  preserves I a → preserves I b → preserves I (if c then a else b).
Proof. by destruct c. Qed.

Lemma preserves_uncaught I (s : Script) p :
  preserves I s → I p → I (uncaught s p).
Proof. intros Hs H. by apply Hs. Qed.

Lemma preserves_iter I (f : Page → Page) n p :
  (∀ p, I p → I (f p)) → I p → I (Nat.iter n f p).
Proof. intros Hf H. induction n as [|n IH]; simpl; auto. Qed.

Lemma respects_skip : respects_console skip.
Proof. by intros p q H. Qed.

Lemma respects_throw : respects_console throw.
Proof. by intros p q H. Qed.

Lemma respects_act (f : Page → Page) :
  (∀ p q, same_but_console p q → same_but_console (f p) (f q)) →
  respects_console (act f).
Proof. intros Hf p q H. split; [done|by apply Hf]. Qed.

Lemma respects_seq (a b : Script) :
  respects_console a → respects_console b → respects_console (seq a b).
Proof.
  intros Ha Hb p q H. unfold seq. destruct (Ha p q H) as [Hc Hs].
  destruct (a p) as [[|] p'], (a q) as [[|] q']; simpl in *; try discriminate;
    [by apply Hb|done].
Qed.

Lemma respects_if (c : bool) (a b : Script) :
  respects_console a → respects_console b →
  respects_console (if c then a else b).
Proof. by destruct c. Qed.

Section Simulation.
Variable w : Window.

Lemma same_but_console_refl p : same_but_console p p.
Proof. sim_close. Qed.

Lemma same_but_console_trans p q r :
  same_but_console p q → same_but_console q r → same_but_console p r.
Proof. sim_intro. sim_intro. sim_close. Qed.

Lemma set_console_sim c p : same_but_console (set_console c p) p.
Proof. sim_close. Qed.

Lemma notifyParent_sim ty d p q :
  same_but_console p q →
  same_but_console (notifyParent w ty d p) (notifyParent w ty d q).
Proof.
  unfold notifyParent. destruct (parent_is_other w); sim_intro; sim_close.
Qed.

Lemma monitor_sim args : respects_console (monitor w args).
Proof.
  unfold monitor. destruct (join_values " " args) as [message|];
    [|apply respects_throw].
  apply respects_act. intros p q H.
  repeat match goal with |- context [if ?b then _ else _] => destruct b end;
    auto using notifyParent_sim.
Qed.

Lemma console_log_at_sim depth args :
  respects_console (console_log_at depth w args).
Proof.
  induction depth as [|d IH]; simpl.
  - apply respects_act. intros p q. sim_intro. sim_close.
  - apply respects_seq; [apply monitor_sim|apply IH].
Qed.

Lemma console_log_sim args : respects_console (console_log w args).
Proof.
  intros p q H. unfold console_log.
  replace (log_wrappers q) with (log_wrappers p) by apply H.
  by apply console_log_at_sim.
Qed.

Lemma add_timer_sim t p q :
  same_but_console p q → same_but_console (add_timer t p) (add_timer t q).
Proof. sim_intro. sim_close. Qed.

Lemma clear_timer_sim id p q :
  same_but_console p q → same_but_console (clear_timer id p) (clear_timer id q).
Proof. sim_intro. sim_close. Qed.

Lemma set_dom_sim d p q :
  same_but_console p q → same_but_console (set_dom d p) (set_dom d q).
Proof. sim_intro. sim_close. Qed.

Lemma set_calls_sim c p q :
  same_but_console p q →
  same_but_console (set_calls (calls p ++ c) p) (set_calls (calls q ++ c) q).
Proof. sim_intro. sim_close. Qed.

Lemma setupConnectionMonitoring_sim p q :
  same_but_console p q →
  same_but_console (setupConnectionMonitoring p) (setupConnectionMonitoring q).
Proof. sim_intro. sim_close. Qed.

Lemma handleIrcLogin_sim data : respects_console (handleIrcLogin w data).
Proof.
  unfold handleIrcLogin.
  apply respects_seq; [apply respects_act; intros p q; apply set_calls_sim|].
  apply respects_seq; [apply console_log_sim|].
  apply respects_act. intros p q H.
  replace (next_timer q) with (next_timer p) by apply H.
  by apply add_timer_sim, add_timer_sim.
Qed.

Lemma handleThemeChange_sim data : respects_console (handleThemeChange w data).
Proof.
  unfold handleThemeChange.
  apply respects_seq; [apply respects_act; intros p q; apply set_calls_sim|].
  apply respects_if; [apply console_log_sim|apply respects_skip].
Qed.

Lemma on_message_sim origin data p q :
  same_but_console p q →
  same_but_console (on_message w origin data p) (on_message w origin data q).
Proof.
  intros H. unfold on_message.
  destruct (negb (origin_allowed origin)).
  - unfold console_warn. revert H. sim_intro. sim_close.
  - unfold uncaught. revert p q H.
    apply respects_seq; [apply console_log_sim|].
    repeat apply respects_if;
      auto using handleIrcLogin_sim, handleThemeChange_sim, respects_skip.
Qed.

Lemma iter_sim (f : Page → Page) n p q :
  (∀ p q, same_but_console p q → same_but_console (f p) (f q)) →
  same_but_console p q →
  same_but_console (Nat.iter n f p) (Nat.iter n f q).
Proof. intros Hf H. induction n as [|n IH]; simpl; auto. Qed.

Lemma set_value_sim f v : respects_console (set_value f v).
Proof.
  unfold set_value. destruct (to_string v) as [s|]; [|apply respects_throw].
  apply respects_act. intros p q H.
  replace (dom q) with (dom p) by apply H. by apply set_dom_sim.
Qed.

Lemma wait_for_form_sim id nick password realname :
  respects_console (wait_for_form id nick password realname).
Proof.
  intros p q H. unfold wait_for_form.
  replace (dom q) with (dom p) by apply H.
  generalize (dom p). intros [[n|] [pw|] r [|]]; simpl; try done.
  revert p q H.
  apply respects_seq; [apply respects_act; intros p q; apply clear_timer_sim|].
  repeat (apply respects_seq;
          [apply respects_if; [apply set_value_sim|apply respects_skip]|]).
  apply respects_act. intros p q. apply add_timer_sim.
Qed.

Lemma fire_sim id p q :
  same_but_console p q → same_but_console (fire w id p) (fire w id q).
Proof.
  intros H. unfold fire.
  replace (timers q) with (timers p) by apply H.
  destruct (find_timer id (timers p)) as [[nick password realname| |i|]|].
  - by apply wait_for_form_sim.
  - unfold uncaught. revert p q H.
    apply respects_seq; [apply respects_act; intros p q; apply clear_timer_sim|].
    apply respects_seq; [apply console_log_sim|].
    apply respects_act. intros p q. sim_intro. sim_close.
  - by apply clear_timer_sim, clear_timer_sim.
  - by apply notifyParent_sim, clear_timer_sim.
  - assumption.
Qed.

Lemma run_script_sim p q :
  same_but_console p q → same_but_console (run_script w p) (run_script w q).
Proof.
  intros H. unfold run_script. destruct (self_is_top w); [assumption|].
  unfold uncaught. revert p q H.
  apply respects_seq; [apply console_log_sim|].
  apply respects_act. intros p q. sim_intro.
  unfold add_timer, setupConnectionMonitoring. simpl. rewrite Hload.
  destruct (loading q) eqn:Hq; sim_close.
Qed.

Lemma step_sim e p q :
  same_but_console p q → same_but_console (step w p e) (step w q e).
Proof.
  intros H. destruct e as [|origin data|id| |args|d]; simpl.
  - by apply run_script_sim.
  - replace (message_listeners q) with (message_listeners p) by apply H.
    apply iter_sim; auto using on_message_sim.
  - by apply fire_sim.
  - replace (loading q) with (loading p) by apply H.
    replace (dcl_listeners q) with (dcl_listeners p) by apply H.
    destruct (loading p); [|assumption].
    apply iter_sim; auto using setupConnectionMonitoring_sim.
    revert H. sim_intro. sim_close.
  - by apply console_log_sim.
  - by apply set_dom_sim.
Qed.

Lemma run_sim events p q :
  same_but_console p q → same_but_console (run w p events) (run w q events).
Proof.
  revert p q. induction events as [|e events IH]; intros p q H; simpl; [done|].
  apply IH, step_sim, H.
Qed.

End Simulation.

(** *** The allow-list *)

Lemma origin_allowed_spec origin :
  origin_allowed origin = true ↔ origin ∈ allowedOrigins.
Proof.
  unfold origin_allowed. rewrite existsb_exists. split.
  - intros (x & Hx & Heq). apply String.eqb_eq in Heq. subst x.
    by apply list_elem_of_In.
  - intros Hin. exists origin. split; [by apply list_elem_of_In|].
    apply String.eqb_refl.
Qed.

Lemma origin_rejected origin :
  origin ∉ allowedOrigins → origin_allowed origin = false.
Proof.
  intros Hnot. destruct (origin_allowed origin) eqn:E; [|done].
  by apply origin_allowed_spec in E.
Qed.

(** *** Outbound messages *)

Section Outbound.
Variable w : Window.

Lemma posts_ok_frame p q : posted q = posted p → posts_ok p → posts_ok q.
Proof. unfold posts_ok. by intros ->. Qed.

Lemma notifyParent_ok ty d p : posts_ok p → posts_ok (notifyParent w ty d p).
Proof.
  unfold notifyParent, posts_ok. intros H.
  destruct (parent_is_other w); [|done]. simpl.
  apply Forall_app. split; [done|].
  apply Forall_singleton. split; [done|]. by exists ty, d.
Qed.

Lemma monitor_ok args : preserves posts_ok (monitor w args).
Proof.
  unfold monitor. destruct (join_values " " args) as [message|];
    [|apply preserves_throw].
  apply preserves_act. intros p H.
  repeat match goal with |- context [if ?b then _ else _] => destruct b end;
    auto using notifyParent_ok.
Qed.

Lemma console_log_at_ok depth args :
  preserves posts_ok (console_log_at depth w args).
Proof.
  induction depth as [|n IH]; simpl.
  - apply preserves_act. intros p H. by apply (posts_ok_frame p).
  - apply preserves_seq; [apply monitor_ok|apply IH].
Qed.

Lemma console_log_ok args : preserves posts_ok (console_log w args).
Proof. intros p. apply console_log_at_ok. Qed.

Lemma act_ok (f : Page → Page) :
  (∀ p, posted (f p) = posted p) → preserves posts_ok (act f).
Proof. intros Hf. apply preserves_act. intros p. by apply posts_ok_frame. Qed.

Lemma handleIrcLogin_ok data : preserves posts_ok (handleIrcLogin w data).
Proof.
  unfold handleIrcLogin.
  apply preserves_seq; [by apply act_ok|].
  apply preserves_seq; [apply console_log_ok|by apply act_ok].
Qed.

Lemma handleThemeChange_ok data : preserves posts_ok (handleThemeChange w data).
Proof.
  unfold handleThemeChange. apply preserves_seq; [by apply act_ok|].
  apply preserves_if; [apply console_log_ok|apply preserves_skip].
Qed.

Lemma on_message_ok origin data p :
  posts_ok p → posts_ok (on_message w origin data p).
Proof.
  intros H. unfold on_message. destruct (negb _).
  - by apply (posts_ok_frame p).
  - apply preserves_uncaught; [|done].
    apply preserves_seq; [apply console_log_ok|].
    repeat apply preserves_if;
      auto using handleIrcLogin_ok, handleThemeChange_ok, preserves_skip.
Qed.

Lemma set_value_ok f v : preserves posts_ok (set_value f v).
Proof.
  unfold set_value. destruct (to_string v); [by apply act_ok|apply preserves_throw].
Qed.

Lemma wait_for_form_ok id nick password realname :
  preserves posts_ok (wait_for_form id nick password realname).
Proof.
  intros p H. unfold wait_for_form.
  generalize (dom p). intros [[n|] [pw|] r [|]]; simpl; try done.
  revert p H.
  apply preserves_seq; [by apply act_ok|].
  repeat (apply preserves_seq;
          [apply preserves_if; [apply set_value_ok|apply preserves_skip]|]).
  by apply act_ok.
Qed.

Lemma fire_ok id p : posts_ok p → posts_ok (fire w id p).
Proof.
  intros H. unfold fire.
  destruct (find_timer id (timers p)) as [[nick password realname| |i|]|].
  - by apply wait_for_form_ok.
  - apply preserves_uncaught; [|done].
    apply preserves_seq; [by apply act_ok|].
    apply preserves_seq; [apply console_log_ok|by apply act_ok].
  - by apply (posts_ok_frame p).
  - apply notifyParent_ok. by apply (posts_ok_frame p).
  - done.
Qed.

Lemma run_script_ok p : posts_ok p → posts_ok (run_script w p).
Proof.
  intros H. unfold run_script. destruct (self_is_top w); [done|].
  apply preserves_uncaught; [|done].
  apply preserves_seq; [apply console_log_ok|].
  apply act_ok. intros q. by destruct (loading _).
Qed.

Lemma step_ok e p : posts_ok p → posts_ok (step w p e).
Proof.
  intros H. destruct e as [|origin data|id| |args|d]; simpl.
  - by apply run_script_ok.
  - apply preserves_iter; auto using on_message_ok.
  - by apply fire_ok.
  - destruct (loading p); [|done]. apply preserves_iter; [|done].
    intros q Hq. by apply (posts_ok_frame q).
  - by apply console_log_ok.
  - by apply (posts_ok_frame p).
Qed.

Lemma run_ok events p : posts_ok p → posts_ok (run w p events).
Proof.
  revert p. induction events as [|e events IH]; intros p H; simpl; [done|].
  by apply IH, step_ok.
Qed.

End Outbound.

(** *** The script in a top-level window *)

Lemma step_untouched w e p :
  self_is_top w = true → untouched p →
  untouched (step w p e) ∧ dom (step w p e) = last_render (dom p) e.
Proof.
  intros Htop (Hm & Hd & Hw & Ht & Hp & Hs & Hc).
  destruct e as [|origin data|id| |args|d]; simpl.
  - unfold run_script. rewrite Htop. by repeat split.
  - rewrite Hm. simpl. by repeat split.
  - unfold fire. rewrite Ht. simpl. by repeat split.
  - destruct (loading p); [|by repeat split].
    rewrite Hd. simpl. by repeat split.
  - unfold uncaught, console_log. rewrite Hw. simpl. by repeat split.
  - by repeat split.
Qed.

Lemma run_untouched w events p :
  self_is_top w = true → untouched p →
  untouched (run w p events) ∧
  dom (run w p events) = fold_left last_render events (dom p).
Proof.
  intros Htop. revert p.
  induction events as [|e events IH]; intros p H; simpl; [done|].
  destruct (step_untouched w e p Htop H) as [H1 H2].
  destruct (IH _ H1) as [H3 H4]. split; [done|]. by rewrite H4, H2.
Qed.

Lemma iter_console_warn_sim args n p :
  same_but_console (Nat.iter n (console_warn args) p) p.
Proof.
  induction n as [|n IH]; simpl; [apply same_but_console_refl|].
  eapply same_but_console_trans; [apply set_console_sim|apply IH].
Qed.

Lemma iter_console_warn_console args n p :
  console (Nat.iter n (console_warn args) p)
  = console p ++ replicate n (Warn, args).
Proof.
  induction n as [|n IH]; simpl.
  - by rewrite app_nil_r.
  - rewrite IH, <- app_assoc. f_equal. symmetry. apply replicate_cons_app.
Qed.

Lemma deliver_unauthorized w origin data p :
  origin ∉ allowedOrigins →
  step w p (Message origin data)
  = Nat.iter (message_listeners p)
      (console_warn [VStr "Ignored message from unauthorized origin:"; VStr origin])
      p.
Proof.
  intros Hnot. simpl. generalize (message_listeners p) as n.
  induction n as [|n IH]; simpl; [done|].
  rewrite IH. unfold on_message at 1. by rewrite (origin_rejected _ Hnot).
Qed.

(** C1.  A message whose origin is not on the allow-list is ignored: the
    listener enters neither [handleIrcLogin] nor [handleThemeChange], sets
    no timer, leaves every form field as it was, submits nothing and posts
    nothing; all it does is print one warning per registered listener.
    Whatever happens on the page later happens exactly as it would have
    without that message.  This holds for every message payload, an
    'irc-login' one included. *)
Theorem unauthorized_message_ignored (w : Window) (origin : string)
    (data : value) (p : Page) :
  origin ∉ allowedOrigins →
  let p' := step w p (Message origin data) in
  calls p' = calls p ∧ dom p' = dom p ∧ submits p' = submits p ∧
  timers p' = timers p ∧ posted p' = posted p ∧
  console p' = console p ++
    replicate (message_listeners p)
      (Warn, [VStr "Ignored message from unauthorized origin:"; VStr origin]) ∧
  ∀ later : list event,
    same_but_console (run w p' later) (run w p later).
Proof.
  intros Hnot p'. subst p'. rewrite (deliver_unauthorized _ _ _ _ Hnot).
  pose proof (iter_console_warn_sim
    [VStr "Ignored message from unauthorized origin:"; VStr origin]
    (message_listeners p) p) as Hsim.
  pose proof Hsim as (Hd & _ & _ & _ & _ & Ht & _ & Hp & Hs & Hc).
  split_and!; try done.
  - apply iter_console_warn_console.
  - intros later. by apply run_sim.
Qed.

Lemma unauthorized_message_ignored_witness :
  let w := embedded_window in
  let p := run w (fresh_page connect_page false) [ScriptLoaded] in
  let p' := step w p (Message "https://evil.example" login_message) in
  calls p' = [] ∧ dom p' = connect_page ∧ submits p' = [] ∧
  timers p' = timers p ∧ posted p' = [] ∧
  same_but_console (run w p' [TimerFired 1; TimerFired 2; TimerFired 3])
                   (run w p [TimerFired 1; TimerFired 2; TimerFired 3]).
Proof.
  intros w p p'.
  destruct (unauthorized_message_ignored w "https://evil.example"
              login_message p) as (Hc & Hd & Hs & Ht & Hp & _ & Hlater).
  - unfold allowedOrigins. intros Hin.
    repeat (apply elem_of_cons in Hin as [Heq|Hin]; [discriminate Heq|]).
    by apply elem_of_nil in Hin.
  - split_and!; try assumption; apply Hlater.
Defined.

(** C9.  In a top-level window ([window.self === window.top]) the script
    returns at once and leaves the page exactly as it found it.  So on a
    page where nothing else has installed it, no message listener is ever
    registered, [console.log] is never wrapped, no timer is set, nothing
    is posted, no form is submitted, and the form fields are those the web
    client rendered last. *)
Theorem top_window_noop (w : Window) :
  self_is_top w = true →
  (∀ p : Page, run_script w p = p) ∧
  ∀ (d : Dom) (is_loading : bool) (events : list event),
    untouched (run w (fresh_page d is_loading) events) ∧
    dom (run w (fresh_page d is_loading) events) = fold_left last_render events d.
Proof.
  intros Htop. split.
  - intros p. unfold run_script. by rewrite Htop.
  - intros d l events. by apply run_untouched.
Qed.

Lemma top_window_noop_witness :
  run_script top_window (fresh_page connect_page true)
  = fresh_page connect_page true ∧
  untouched (run top_window (fresh_page connect_page true)
               [ScriptLoaded; DomContentLoaded;
                Message "https://curia.network" login_message;
                TimerFired 1; PageLog [VStr "Connected to irc"]]).
Proof.
  destruct (top_window_noop top_window eq_refl) as [H1 H2]. split.
  - apply H1.
  - apply (H2 connect_page true).
Defined.

(** C10.  Whatever happens on the page, every message the script has
    posted to the parent window is an object
    [{type: 'irc-event', eventType, data}] and was posted with the target
    origin ['*'], which is none of the origins of the inbound allow-list:
    the outbound side names no origin at all. *)
Theorem posted_messages_are_irc_events (w : Window) (d : Dom)
    (is_loading : bool) (events : list event) :
  Forall irc_event_to_any (posted (run w (fresh_page d is_loading) events)) ∧
  "*" ∉ allowedOrigins.
Proof.
  split.
  - apply run_ok. unfold posts_ok. simpl. constructor.
  - unfold allowedOrigins. intros Hin.
    repeat (apply elem_of_cons in Hin as [Heq|Hin]; [discriminate Heq|]).
    by apply elem_of_nil in Hin.
Qed.

(** The script does post: on an embedded page the ready signal and a
    monitored log line reach the parent. *)
Example posted_messages_example :
  posted (run embedded_window (fresh_page connect_page false)
            [ScriptLoaded; TimerFired 1; PageLog [VStr "Connected to"; VStr "irc"]])
  = [ (irc_event "ready"
         (VObj [("url", VStr "https://chat.curia.network/");
                ("userAgent", VStr "Mozilla/5.0")]), "*");
      (irc_event "connected" (VObj [("message", VStr "Connected to irc")]), "*") ].
Proof. reflexivity. Qed.

(** A message from an allowed origin does fill and submit the form. *)
Example authorized_login_example :
  let p := run embedded_window (fresh_page connect_page false)
             [ScriptLoaded; Message "https://curia.network" login_message;
              TimerFired 2; TimerFired 4] in
  submits p = [ {| nickInput := Some "mallory"; passwordInput := Some "hunter2";
                   realnameInput := Some "Mallory"; connectForm := true |} ] ∧
  calls p = [HandleIrcLogin login_message].
Proof. split; reflexivity. Qed.

End IframeFacts.

(** ** The deep-link builders *)

Module RedirectFacts.
Import Redirect.

Import JsString JsStringFacts.

Lemma set_param_in name value l : (name, value) ∈ set_param name value l.
Proof.
  induction l as [|[k v] l IH]; simpl; [apply list_elem_of_here|].
  destruct (String.eqb k name); [apply list_elem_of_here|].
  by apply list_elem_of_further.
Qed.

Lemma set_param_other name value k v l :
  k ≠ name → (k, v) ∈ l → (k, v) ∈ set_param name value l.
Proof.
  intros Hne. induction l as [|[k' v'] l IH]; intros Hin; simpl.
  - by apply elem_of_nil in Hin.
  - destruct (String.eqb_spec k' name) as [->|Hk'].
    + apply elem_of_cons in Hin as [Heq|Hin]; [congruence|].
      apply list_elem_of_further, list_elem_of_filter. by split.
    + apply elem_of_cons in Hin as [Heq|Hin].
      * rewrite Heq. apply list_elem_of_here.
      * by apply list_elem_of_further, IH.
Qed.

Lemma href_occurs k v u :
  (k, v) ∈ searchParams u → occurs (encode k +:+ "=" +:+ encode v) (href u).
Proof.
  intros Hin. unfold href.
  destruct (searchParams u) as [|kv l] eqn:E; [by apply elem_of_nil in Hin|].
  apply occurs_app_r, occurs_app_l, occurs_app_r. unfold serialize.
  apply occurs_join.
  change (encode k +:+ "=" +:+ encode v) with (encode_pair (k, v)).
  by apply list_elem_of_fmap_2.
Qed.

(** The parameters that [buildChatUrl] leaves in the query, whatever the
    base URL already carried. *)
Lemma buildChatUrl_params (baseUrl : Url) (params : ChatParams) k v :
  (k, v) ∈ [ ("autologin", ""); ("user", username params);
             ("al-password", password params); ("autoconnect", "");
             ("nick", nick params); ("username", username params);
             ("realname", realname params);
             ("nofocus", ""); ("lockchannel", "") ]
  ∨ (channels params ≠ [] ∧ (k, v) = ("join", join "," (channels params))) →
  occurs (encode k +:+ "=" +:+ encode v) (buildChatUrl baseUrl params).
Proof.
  intros Hkv. unfold buildChatUrl. apply href_occurs. simpl.
  destruct Hkv as [Hin|[Hch Heq]].
  - destruct (0 <? length (channels params))%nat;
      repeat (apply elem_of_cons in Hin as [[= -> ->]|Hin];
              [repeat first [ apply set_param_in
                            | apply set_param_other; [done|] ] |]);
      by apply elem_of_nil in Hin.
  - injection Heq as -> ->.
    destruct (channels params) as [|c cs] eqn:E; [done|]. simpl.
    repeat first [ apply set_param_in | apply set_param_other; [done|] ].
Qed.

Example buildChatUrl_alice_url :
  buildChatUrl lounge_base alice
  = "http://localhost:9000/?autologin=&user=alice_42&al-password=s3cr3t&autoconnect=&nick=alice&username=alice_42&realname=Alice+A.&join=general&nofocus=&lockchannel=".
Proof. reflexivity. Qed.

Example buildChatUrl_hash_channel_url :
  buildChatUrl lounge_base alice_hash_channel
  = "http://localhost:9000/?autologin=&user=alice_42&al-password=s3cr3t&autoconnect=&nick=alice&username=alice_42&realname=Alice+A.&join=%23general&nofocus=&lockchannel=".
Proof. reflexivity. Qed.

Example buildLoungeUrl_alice_url :
  buildLoungeUrl "alice_42" "s3cr3t" "general"
  = "http://localhost:9000?autologin&user=alice_42&al-password=s3cr3t&autoconnect&nick=alice_42&username=alice_42/commonground&realname=alice_42&join=%23general&lockchannel&nofocus".
Proof. reflexivity. Qed.

Lemma includes_encoded (baseUrl : Url) (params : ChatParams) k v :
  (k, v) ∈ [ ("autologin", ""); ("user", username params);
             ("al-password", password params); ("autoconnect", "");
             ("nick", nick params); ("username", username params);
             ("realname", realname params);
             ("nofocus", ""); ("lockchannel", "") ]
  ∨ (channels params ≠ [] ∧ (k, v) = ("join", join "," (channels params))) →
  includes (buildChatUrl baseUrl params) (encode k +:+ "=" +:+ encode v) = true.
Proof. intros H. by apply includes_spec, buildChatUrl_params. Qed.

(** C2, as the code has it.  For the example input, and whatever base
    URL the deployment configures, [buildChatUrl] returns a URL that
    contains [user=alice_42], [al-password=s3cr3t], the [autologin] and
    [autoconnect] flags and the other input values in URL-encoded form
    ([nick=alice], [username=alice_42], [realname=Alice+A.]).  The channel
    is carried as it was given, [join=general]; [join=%23general] is what
    the channel ["#general"] yields.  On a base URL without a query the
    whole URL is as displayed.  [buildLoungeUrl] does write [join=%23] in
    front of the channel, but takes a user name, a password and a
    community id only. *)
Theorem redirect_builder_example (baseUrl : Url) :
  let url := buildChatUrl baseUrl alice in
  includes url "user=alice_42" = true ∧
  includes url "al-password=s3cr3t" = true ∧
  includes url "autologin=" = true ∧
  includes url "autoconnect=" = true ∧
  includes url "nick=alice" = true ∧
  includes url "username=alice_42" = true ∧
  includes url "realname=Alice+A." = true ∧
  includes url "join=general" = true ∧
  includes (buildChatUrl baseUrl alice_hash_channel) "join=%23general" = true ∧
  buildChatUrl {| before_query := before_query baseUrl; searchParams := [];
                  fragment := fragment baseUrl |} alice
  = before_query baseUrl
    +:+ "?autologin=&user=alice_42&al-password=s3cr3t&autoconnect=&nick=alice&username=alice_42&realname=Alice+A.&join=general&nofocus=&lockchannel="
    +:+ fragment baseUrl ∧
  buildLoungeUrl "alice_42" "s3cr3t" "general"
  = "http://localhost:9000?autologin&user=alice_42&al-password=s3cr3t&autoconnect&nick=alice_42&username=alice_42/commonground&realname=alice_42&join=%23general&lockchannel&nofocus".
Proof.
  intros url. subst url.
  split_and!; try reflexivity.
  - apply (includes_encoded baseUrl alice "user" "alice_42"). left.
    apply list_elem_of_In. simpl. tauto.
  - apply (includes_encoded baseUrl alice "al-password" "s3cr3t"). left.
    apply list_elem_of_In. simpl. tauto.
  - apply (includes_encoded baseUrl alice "autologin" ""). left.
    apply list_elem_of_In. simpl. tauto.
  - apply (includes_encoded baseUrl alice "autoconnect" ""). left.
    apply list_elem_of_In. simpl. tauto.
  - apply (includes_encoded baseUrl alice "nick" "alice"). left.
    apply list_elem_of_In. simpl. tauto.
  - apply (includes_encoded baseUrl alice "username" "alice_42"). left.
    apply list_elem_of_In. simpl. tauto.
  - apply (includes_encoded baseUrl alice "realname" "Alice A."). left.
    apply list_elem_of_In. simpl. tauto.
  - apply (includes_encoded baseUrl alice "join" "general"). by right.
  - apply (includes_encoded baseUrl alice_hash_channel "join" "#general").
    by right.
Qed.

(** C2 as stated fails: on the example input [buildChatUrl] writes
    [join=general], so [join=%23general] does not occur in its result;
    and the result of [buildLoungeUrl] carries neither the nickname
    ["alice"] as nick nor the real name. *)
Lemma redirect_builder_counterexample :
  includes (buildChatUrl lounge_base alice) "join=%23general" = false ∧
  includes (buildLoungeUrl "alice_42" "s3cr3t" "general") "nick=alice&" = false ∧
  includes (buildLoungeUrl "alice_42" "s3cr3t" "general") "Alice" = false.
Proof. by vm_compute. Qed.

End RedirectFacts.

(** ** bcryptjs *)

Module BcryptFacts.
Import JsString JsStringFacts Bcryptjs.

Lemma genSalt_length `{Bcrypt} (seed : list nat) :
  String.length (genSalt seed) = 29%nat.
Proof.
  unfold genSalt. set (salt := of_list _).
  assert (String.length salt = 22%nat) as Hsalt.
  { subst salt. rewrite of_list_length, length_map, length_take, length_app.
    rewrite length_replicate. lia. }
  clearbody salt. rewrite string_length_app. cbn [String.length].
  rewrite string_length_app, Hsalt. reflexivity.
Qed.

Lemma substring_prefix (s d : string) :
  String.substring 0 (String.length s) (s +:+ d) = s.
Proof.
  induction s as [|c s IH]; [by destruct d|].
  rewrite append_cons. simpl. by rewrite IH.
Qed.

Lemma salt_of_hash `{Bcrypt} (salt password : string) :
  String.length salt = 29%nat →
  String.substring 0 29 (hash_with salt password) = salt.
Proof. intros Hlen. unfold hash_with. rewrite <- Hlen. apply substring_prefix. Qed.

Lemma append_inj_l (a b c : string) : a +:+ b = a +:+ c → b = c.
Proof.
  induction a as [|x a IH]; [done|]. rewrite !append_cons. intros [= Heq]. auto.
Qed.

Lemma hash_length `{Bcrypt} (seed : list nat) (password : string) :
  String.length (hash seed password) = 60%nat.
Proof.
  unfold hash, hash_with.
  by rewrite string_length_app, genSalt_length, bcrypt_digest_length.
Qed.

(** [compare] accepts exactly the passwords with the digest of the hashed
    one. *)
Lemma compare_hash `{Bcrypt} (seed : list nat) (p q : string) :
  compare q (hash seed p) = true
  ↔ bcrypt_digest (genSalt seed) q = bcrypt_digest (genSalt seed) p.
Proof.
  unfold compare. rewrite hash_length, Nat.eqb_refl, andb_true_l.
  unfold hash. rewrite salt_of_hash by apply genSalt_length.
  rewrite String.eqb_eq. unfold hash_with. split.
  - intros Heq. by apply append_inj_l in Heq.
  - by intros ->.
Qed.

Lemma compare_hash_same `{Bcrypt} (seed : list nat) (p : string) :
  compare p (hash seed p) = true.
Proof. by apply compare_hash. Qed.

End BcryptFacts.

(** ** The bouncer's database *)

Module SojuFacts.
Import JsStringFacts Soju.

Lemma no_account_existsb username rows :
  filter (fun r => user_username r = username) rows = [] →
  existsb (fun r => String.eqb (user_username r) username) rows = false.
Proof.
  induction rows as [|r rows IH]; [done|]. rewrite filter_cons. simpl.
  destruct (decide (user_username r = username)) as [Heq|Hne]; [done|].
  intros Hnil. apply String.eqb_neq in Hne. rewrite Hne. by apply IH.
Qed.

(** An update that keeps the usernames commutes with the selection by
    username. *)
Lemma accounts_map (f : UserRow → UserRow) username rows :
  (∀ r, user_username (f r) = user_username r) →
  filter (fun r => user_username r = username) (map f rows)
  = map f (filter (fun r => user_username r = username) rows).
Proof.
  intros Hf. induction rows as [|r rows IH]; [done|]. simpl.
  rewrite !filter_cons, Hf.
  destruct (decide (user_username r = username)); simpl; by rewrite IH.
Qed.

Lemma usernames_map (f : UserRow → UserRow) rows :
  (∀ r, user_username (f r) = user_username r) →
  map user_username (map f rows) = map user_username rows.
Proof. intros Hf. rewrite map_map. apply map_ext. auto. Qed.

(** *** What a VARCHAR(255) column keeps *)

Lemma take_drop_chars n l : take_chars n l ++ drop_chars n l = l.
Proof.
  revert n. induction l as [|c l IH]; intros n; [done|]. simpl.
  destruct (is_continuation c); simpl; [by rewrite IH|].
  destruct n as [|n]; simpl; [done|by rewrite IH].
Qed.

Lemma drop_chars_short n l : length l ≤ n → drop_chars n l = [].
Proof.
  revert n. induction l as [|c l IH]; intros n Hlen; [done|]. simpl in *.
  destruct (is_continuation c); [apply IH; lia|].
  destruct n as [|n]; [lia|]. apply IH. lia.
Qed.

(** What is cut off starts with a character of the string. *)
Lemma drop_chars_head n l c rest : drop_chars n l = c :: rest → c ∈ l.
Proof.
  revert n. induction l as [|x l IH]; intros n; [done|]. simpl.
  destruct (is_continuation x).
  - intros Hd. apply list_elem_of_further. by apply (IH n).
  - destruct n as [|n].
    + intros [= -> _]. apply list_elem_of_here.
    + intros Hd. apply list_elem_of_further. by apply (IH n).
Qed.

(** Nothing is cut off a value that the column accepts and that holds no
    space. *)
Lemma kept_no_space (s : string) :
  varchar_ok s = true → " "%char ∉ JsString.to_list s → kept s = s.
Proof.
  unfold varchar_ok, kept. intros [_ Hex]%andb_prop Hsp.
  pose proof (take_drop_chars 255 (JsString.to_list s)) as Htd.
  destruct (drop_chars 255 (JsString.to_list s)) as [|c rest] eqn:Hd.
  - rewrite app_nil_r in Htd. rewrite Htd. apply of_to_list.
  - exfalso. cbn [forallb] in Hex. apply andb_prop in Hex as [Hc _].
    apply Ascii.eqb_eq in Hc as <-. by apply drop_chars_head in Hd.
Qed.

(** Nothing is cut off a value of at most 255 bytes. *)
Lemma kept_short (s : string) : String.length s ≤ 255 → kept s = s.
Proof.
  intros Hlen. unfold kept.
  pose proof (take_drop_chars 255 (JsString.to_list s)) as Htd.
  rewrite drop_chars_short, app_nil_r in Htd by (by rewrite to_list_length).
  rewrite Htd. apply of_to_list.
Qed.

(** A round trip reads and writes no table. *)
Lemma round_trip_cases db :
  ∃ l, round_trip db = (Ok (), set_link l db)
       ∨ round_trip db = (Thrown ConnectionError, set_link l db).
Proof.
  unfold round_trip. destruct (link db) as [|[|] rest]; eauto.
Qed.

End SojuFacts.

(** ** The provisioning endpoint *)

Module ProvisionFacts.
Import JsString JsStringFacts Bcryptjs BcryptFacts Soju SojuFacts Provision.
Import ProvisionMore.

Ltac query_step Heq :=
  match type of Heq with
  | context [round_trip ?d] =>
      let l := fresh "l" in
      let H := fresh in
      destruct (round_trip_cases d) as (l & [H|H]); rewrite H in Heq; clear H;
      simpl in Heq
  | context [if ?b then _ else _] => destruct b eqn:?; simpl in Heq
  | (_, _) = (_, _) => injection Heq as <- <-; simpl
  end.

Lemma kept_commonground : kept "commonground" = "commonground".
Proof. reflexivity. Qed.

Lemma kept_addr : kept "irc+insecure://ergo:6667" = "irc+insecure://ergo:6667".
Proof. reflexivity. Qed.

(** How an upsert can end, for a username that the column keeps as it
    is.  When the upsert returns, the account's row is written and so is
    its network.  When it throws, the Network table is as before and the
    User table is as before or has the account's row written: the
    statements run one by one, each in a transaction of its own. *)
Lemma upsertSojuUser_cases cu username hp nick rn cid db result db' :
  kept username = username →
  upsertSojuUser cu username hp nick rn cid db = (result, db') →
  client db' = client db ∧
  match result with
  | Ok r =>
      r = (target_id username db, username) ∧
      users db' = upserted_users username (kept hp) (kept nick) (kept rn) db ∧
      networks db'
      = upserted_networks (target_id username db) (kept nick) username db ∧
      next_user_id db'
      = match accounts username db with
        | _ :: _ => next_user_id db
        | [] => S (next_user_id db)
        end ∧
      next_network_id db' = S (next_network_id db)
  | Thrown _ =>
      networks db' = networks db ∧
      ((users db' = users db ∧
        next_user_id db ≤ next_user_id db' ≤ S (next_user_id db)) ∨
       (users db' = upserted_users username (kept hp) (kept nick) (kept rn) db ∧
        next_user_id db'
        = match accounts username db with
          | _ :: _ => next_user_id db
          | [] => S (next_user_id db)
          end))
  end.
Proof.
  intros Hk Heq.
  unfold upsertSojuUser, target_id, upserted_users, upserted_networks in *.
  unfold bind, ircQuery, bind, ret, select_user_ids, checked in Heq.
  query_step Heq; [|query_step Heq; by eauto with lia].
  query_step Heq; [|query_step Heq; by eauto with lia].
  destruct (accounts username db) as [|r0 rest] eqn:Hacc; simpl in Heq.
  - (* create *)
    unfold insert_user, upsert_network, checked in Heq.
    rewrite Hk, kept_commonground, kept_addr in Heq.
    query_step Heq; [|query_step Heq; by eauto with lia].
    query_step Heq; [|query_step Heq; by eauto with lia].
    rewrite (no_account_existsb _ _ Hacc) in Heq. simpl in Heq.
    query_step Heq; [|query_step Heq; by eauto 6 with lia].
    query_step Heq; [|query_step Heq; by eauto 6 with lia].
    query_step Heq; [query_step Heq; done|].
    query_step Heq; query_step Heq; [done|by eauto 6 with lia].
  - (* update *)
    unfold update_user_by_id, upsert_network, checked in Heq.
    rewrite Hk, kept_commonground, kept_addr in Heq.
    query_step Heq; [|query_step Heq; by eauto with lia].
    query_step Heq; [|query_step Heq; by eauto with lia].
    query_step Heq; [|query_step Heq; by eauto 6 with lia].
    query_step Heq; [|query_step Heq; by eauto 6 with lia].
    query_step Heq; [query_step Heq; done|].
    query_step Heq; query_step Heq; [done|by eauto 6 with lia].
Qed.

(** The derived username has at most 32 bytes, and the column keeps it
    as it is. *)
Lemma username_fits (name userId : string) :
  String.length (generateIrcUsername name userId) ≤ 32.
Proof.
  unfold generateIrcUsername, slice_to. rewrite of_list_length, length_take. lia.
Qed.

Lemma kept_username (name userId : string) :
  kept (generateIrcUsername name userId) = generateIrcUsername name userId.
Proof. apply kept_short. pose proof (username_fits name userId). lia. Qed.

Lemma kept_hash `{Bcrypt} (seed : list nat) (password : string) :
  kept (Bcryptjs.hash seed password) = Bcryptjs.hash seed password.
Proof. apply kept_short. rewrite hash_length. lia. Qed.

(** The password column of the account after its row was written. *)
Lemma stored_upserted username hp nick rn db db' :
  users db' = upserted_users username hp nick rn db →
  stored_password username db' = Some hp.
Proof.
  intros Hu. unfold stored_password, upserted_users in *. rewrite Hu.
  destruct (accounts username db) as [|r0 rest] eqn:Hacc.
  - rewrite filter_app, Hacc, filter_cons. simpl. by rewrite decide_True.
  - assert (∀ r, user_username
                   (if Nat.eqb (user_id r) (user_id r0)
                    then update_row hp nick rn r else r) = user_username r)
      as Hkeep by (intros r; by destruct (Nat.eqb _ _)).
    rewrite (accounts_map _ _ _ Hkeep), Hacc. simpl.
    by rewrite Nat.eqb_refl.
Qed.

(** An upsert of a username that is taken adds no account. *)
Lemma upserted_taken username hp nick rn db :
  accounts username db ≠ [] →
  map user_username (upserted_users username hp nick rn db)
  = map user_username (users db) ∧
  map user_id (upserted_users username hp nick rn db) = map user_id (users db).
Proof.
  intros Hacc. unfold upserted_users.
  destruct (accounts username db) as [|r0 rest]; [done|].
  rewrite !map_map. split; apply map_ext; intros r; by destruct (Nat.eqb _ _).
Qed.

(** The shapes a request can have. *)
Lemma request_cases (req : Request) :
  user req = None ∨ json req = None ∨
  (∃ u, req = {| user := Some u; json := Some {| communityId := None |} |}) ∨
  (∃ u, req = {| user := Some u; json := Some {| communityId := Some "" |} |}) ∨
  (∃ u community, community ≠ "" ∧ req = authenticated u community).
Proof.
  destruct req as [[u|] [[[community|]]|]]; simpl; eauto.
  destruct community as [|c community]; [eauto 6|].
  do 4 right. by exists u, (String c community).
Qed.

(** How a call for an authenticated user and a community can end: with
    the 200 answer after the whole upsert, or with the 500 answer after
    as much of the upsert as ran. *)
Lemma provision_cases `{Bcrypt} (e : Entropy) (u : JwtUser) (community : string)
    (db : Db) :
  community ≠ "" →
  let result := provisionIrcUserHandler e (authenticated u community) db in
  let hashed := hashIrcPassword e (generateSecurePassword e) in
  client result.2 = client db ∧
  ((result.1
    = Provisioned (username_of u) (generateSecurePassword e) "commonground" ∧
    users result.2
    = upserted_users (username_of u) hashed (kept (nickname_of u))
        (kept (nickname_of u)) db ∧
    networks result.2
    = upserted_networks (target_id (username_of u) db) (kept (nickname_of u))
        (username_of u) db ∧
    next_user_id result.2
    = match accounts (username_of u) db with
      | _ :: _ => next_user_id db
      | [] => S (next_user_id db)
      end ∧
    next_network_id result.2 = S (next_network_id db)) ∨
   (result.1 = Failed 500 "Failed to provision IRC user" ∧
    networks result.2 = networks db ∧
    ((users result.2 = users db ∧
      next_user_id db ≤ next_user_id result.2 ≤ S (next_user_id db)) ∨
     (users result.2
      = upserted_users (username_of u) hashed (kept (nickname_of u))
        (kept (nickname_of u)) db ∧
      next_user_id result.2
      = match accounts (username_of u) db with
        | _ :: _ => next_user_id db
        | [] => S (next_user_id db)
        end)))).
Proof.
  intros Hc. cbv zeta. unfold provisionIrcUserHandler, authenticated. simpl.
  destruct community as [|c community]; [done|].
  fold (username_of u). fold (nickname_of u).
  destruct (upsertSojuUser _ _ _ _ _ _ db) as [result db'] eqn:Heq.
  apply upsertSojuUser_cases in Heq as [Hclient Hcase];
    [|apply kept_username].
  unfold hashIrcPassword in Hcase. rewrite kept_hash in Hcase.
  destruct result as [r|err]; simpl; (split; [done|]).
  - left. by destruct Hcase as (_ & ? & ? & ? & ?).
  - right. by destruct Hcase as (? & ?).
Qed.

(** A call that answers 200 was made for an authenticated user and a
    community, and ran the whole upsert. *)
Lemma provision_success `{Bcrypt} (e : Entropy) (req : Request) (db : Db) :
  let result := provisionIrcUserHandler e req db in
  status result.1 = 200 →
  ∃ u community,
    req = authenticated u community ∧ community ≠ "" ∧
    result.1
    = Provisioned (username_of u) (generateSecurePassword e) "commonground" ∧
    users result.2
    = upserted_users (username_of u)
        (hashIrcPassword e (generateSecurePassword e))
        (kept (nickname_of u)) (kept (nickname_of u)) db ∧
    networks result.2
    = upserted_networks (target_id (username_of u) db) (kept (nickname_of u))
        (username_of u) db.
Proof.
  cbv zeta. intros Hst.
  destruct (request_cases req)
    as [Hu|[Hj|[(u & ->)|[(u & ->)|(u & community & Hc & ->)]]]].
  - unfold provisionIrcUserHandler in Hst. by rewrite Hu in Hst.
  - unfold provisionIrcUserHandler in Hst. rewrite Hj in Hst.
    by destruct (user req).
  - done.
  - done.
  - exists u, community.
    destruct (provision_cases e u community db Hc)
      as (_ & [(H1 & H2 & H3 & _)|(H1 & _)]).
    + by split_and!.
    + rewrite H1 in Hst. done.
Qed.

(** The success lemma for a request of the shape [authenticated]. *)
Lemma provision_success_for `{Bcrypt} (e : Entropy) (u : JwtUser)
    (community : string) (db : Db) :
  let result := provisionIrcUserHandler e (authenticated u community) db in
  status result.1 = 200 →
  community ≠ "" ∧
  result.1
  = Provisioned (username_of u) (generateSecurePassword e) "commonground" ∧
  users result.2
  = upserted_users (username_of u)
      (hashIrcPassword e (generateSecurePassword e))
      (kept (nickname_of u)) (kept (nickname_of u)) db ∧
  networks result.2
  = upserted_networks (target_id (username_of u) db) (kept (nickname_of u))
      (username_of u) db ∧
  stored_password (username_of u) result.2
  = Some (hashIrcPassword e (generateSecurePassword e)).
Proof.
  cbv zeta. intros Hst.
  destruct (provision_success e _ db Hst)
    as (u' & community' & [= <- <-] & Hc & H1 & H2 & H3).
  split_and!; try done. by apply stored_upserted in H2.
Qed.

(** C3, as the code has it.  For [provisionIrcUserHandler] of the endpoint
    specification and a user whose name and id are the same in both
    requests: when two successive calls both answer 200, they answer with
    the same username and with the passwords they generated; after the
    second call the account's row holds the hash of the second password,
    which verifies; and the first password verifies exactly when bcrypt
    gives it the digest of the second one under the second salt, as it
    does when the two passwords are equal. *)
Theorem provisioning_twice `{Bcrypt} (e1 e2 : Entropy) (u : JwtUser)
    (community : string) (db : Db) :
  let first := provisionIrcUserHandler e1 (authenticated u community) db in
  let second := provisionIrcUserHandler e2 (authenticated u community) first.2 in
  status first.1 = 200 → status second.1 = 200 →
  first.1 = Provisioned (username_of u) (generateSecurePassword e1) "commonground" ∧
  second.1 = Provisioned (username_of u) (generateSecurePassword e2) "commonground" ∧
  stored_password (username_of u) second.2
  = Some (hashIrcPassword e2 (generateSecurePassword e2)) ∧
  verify (username_of u) (generateSecurePassword e2) second.2 = true ∧
  (verify (username_of u) (generateSecurePassword e1) second.2 = true ↔
   bcrypt_digest (genSalt (salt_seed e2)) (generateSecurePassword e1)
   = bcrypt_digest (genSalt (salt_seed e2)) (generateSecurePassword e2)).
Proof.
  cbv zeta. intros Hst1 Hst2.
  destruct (provision_success_for e1 u community db Hst1) as (_ & H1 & _).
  destruct (provision_success_for e2 u community _ Hst2)
    as (_ & H2 & _ & _ & Hpw).
  unfold verify. rewrite Hpw. split_and!; try done.
  - apply compare_hash_same.
  - apply compare_hash.
Qed.

Lemma provisioning_twice_witness :
  let H := example_bcrypt in
  let first := provisionIrcUserHandler draws_a (authenticated bob "general") empty_db in
  let second := provisionIrcUserHandler draws_b (authenticated bob "general") first.2 in
  first.1 = Provisioned "bob_1234" "abc123zyx987" "commonground" ∧
  second.1 = Provisioned "bob_1234" "klm456543uvw" "commonground" ∧
  verify "bob_1234" "klm456543uvw" second.2 = true ∧
  verify "bob_1234" "abc123zyx987" second.2 ≠ true.
Proof.
  intros H first second.
  destruct (@provisioning_twice example_bcrypt draws_a draws_b bob "general" empty_db
              eq_refl eq_refl)
    as (H1 & H2 & _ & H4 & H5).
  split_and!.
  - exact H1.
  - exact H2.
  - exact H4.
  - intros Hold. apply H5 in Hold. discriminate Hold.
Defined.

(** C3 as stated fails.  The username is derived from the display name at
    every call, so a user who was renamed in between gets another
    username; and when the random source repeats its draws, the two
    passwords are equal and the first one still verifies. *)
Lemma provisioning_twice_counterexample :
  let H := example_bcrypt in
  let first := provisionIrcUserHandler draws_a (authenticated bob "general") empty_db in
  let renamed :=
    provisionIrcUserHandler draws_b (authenticated bob_renamed "general") first.2 in
  let repeated :=
    provisionIrcUserHandler draws_a (authenticated bob "general") first.2 in
  first.1 = Provisioned "bob_1234" "abc123zyx987" "commonground" ∧
  renamed.1 = Provisioned "robert_1234" "klm456543uvw" "commonground" ∧
  verify "bob_1234" "abc123zyx987" renamed.2 = true ∧
  repeated.1 = Provisioned "bob_1234" "abc123zyx987" "commonground" ∧
  verify "bob_1234" "abc123zyx987" repeated.2 = true.
Proof. by vm_compute. Qed.

(** C6.  A request without an authenticated caller gets the 401 answer
    and the database is left as it was: in the handler of the endpoint
    specification and in the draft's [POST] alike. *)
Theorem unauthenticated_request_rejected `{Bcrypt} (e : Entropy)
    (req : Request) (draft_req : ProvisionDraft.Request) (db : Db) :
  user req = None → ProvisionDraft.session draft_req = None →
  provisionIrcUserHandler e req db = (Failed 401 "User not found", db) ∧
  ProvisionDraft.POST e draft_req db = (Failed 401 "Unauthorized", db).
Proof.
  intros Hu Hs. unfold provisionIrcUserHandler, ProvisionDraft.POST.
  by rewrite Hu, Hs.
Qed.

Lemma unauthenticated_request_rejected_witness :
  status (@provisionIrcUserHandler example_bcrypt draws_a anonymous_request empty_db).1
  = 401%nat ∧
  (@provisionIrcUserHandler example_bcrypt draws_a anonymous_request empty_db).2
  = empty_db ∧
  ProvisionDraft.POST draws_a ProvisionDraft.anonymous_request empty_db
  = (Failed 401 "Unauthorized", empty_db).
Proof.
  destruct (@unauthenticated_request_rejected example_bcrypt draws_a
              anonymous_request ProvisionDraft.anonymous_request empty_db
              eq_refl eq_refl) as [H1 H2].
  rewrite H1. by split_and!.
Defined.

(** The draft's upsert on a client that was used before. *)
Lemma draft_upsert_reused cu username pw nick rn cid db :
  client db ≠ ClientNew →
  ProvisionDraft.upsertSojuUser cu username pw nick rn cid db
  = (Thrown ClientReused, db).
Proof.
  intros Hc. unfold ProvisionDraft.upsertSojuUser, bind, client_connect.
  by destruct (client db).
Qed.

Ltac split_guards :=
  repeat match goal with
         | H : _ && _ = true |- _ => apply andb_prop in H as [? ?]
         end.

(** What a successful upsert of the draft leaves behind, for a username
    that the column keeps as it is. *)
Lemma draft_upsert_cases cu username pw nick rn cid db id db' :
  kept username = username →
  ProvisionDraft.upsertSojuUser cu username pw nick rn cid db = (Ok id, db') →
  client db = ClientNew ∧
  client db' = ClientEnded ∧
  varchar_ok pw = true ∧
  stored_password username db' = Some (kept pw) ∧
  (accounts username db ≠ [] → networks db' = networks db).
Proof.
  intros Hk Heq. unfold ProvisionDraft.upsertSojuUser in Heq.
  unfold bind at 1 in Heq. unfold client_connect in Heq.
  destruct (client db) eqn:Hclient; [|done|done].
  split; [done|].
  unfold try_finally, client_end, bind, client_query, bind, ret,
    select_user_ids, checked in Heq.
  query_step Heq; [|done].
  query_step Heq; [|done].
  query_step Heq; [|done].
  destruct (accounts username db) as [|r0 rest] eqn:Hacc; simpl in Heq.
  - unfold insert_user, insert_network_if_absent, checked in Heq.
    rewrite Hk in Heq.
    query_step Heq; [|done].
    query_step Heq; [|done].
    query_step Heq; [done|].
    query_step Heq; [|done].
    query_step Heq; [|done].
    assert (∀ d, users d = users db ++
                 [ {| user_id := next_user_id db; user_username := username;
                      user_password := kept pw; user_nick := kept nick;
                      user_realname := kept rn; user_admin := false;
                      user_enabled := true |} ] →
                 stored_password username d = Some (kept pw)) as Hstored.
    { intros d Hd. apply (stored_upserted username _ (kept nick) (kept rn) db).
      unfold upserted_users. by rewrite Hacc. }
    split_guards.
    query_step Heq; [|query_step Heq; [|done]]; query_step Heq;
      (split_and!; [done|done|by apply Hstored|done]).
  - unfold update_user_by_username, checked in Heq.
    query_step Heq; [|done].
    query_step Heq; [|done].
    split_guards.
    query_step Heq. split_and!; [done|done| |done].
    unfold stored_password. simpl.
    rewrite accounts_map by (intros r; by destruct (String.eqb _ _)).
    rewrite Hacc. simpl.
    assert (user_username r0 = username) as Hr0.
    { assert (r0 ∈ accounts username db) as Hin
        by (rewrite Hacc; apply list_elem_of_here).
      by apply list_elem_of_filter in Hin as [? _]. }
    by rewrite Hr0, String.eqb_refl.
Qed.

Lemma digit36_not_space (n : nat) : digit36 n ≠ " "%char.
Proof.
  unfold digit36. pose proof (Nat.mod_upper_bound n 36) as Hlt.
  generalize dependent (n `mod` 36). intros k Hk.
  do 36 (destruct k as [|k]; [discriminate|]). lia.
Qed.

(** A generated password holds no space, so the column keeps the whole
    of it or refuses it. *)
Lemma kept_password (e : Entropy) :
  varchar_ok (generateSecurePassword e) = true →
  kept (generateSecurePassword e) = generateSecurePassword e.
Proof.
  intros Hok. apply kept_no_space; [done|].
  unfold generateSecurePassword, random_base36.
  intros Hin.
  assert (∀ a b, to_list (of_list a +:+ of_list b) = a ++ b) as Happ.
  { intros a b. induction a as [|x a IH]; simpl.
    - apply String.list_ascii_of_string_of_list_ascii.
    - by rewrite IH. }
  rewrite Happ in Hin.
  apply elem_of_app in Hin as [Hin|Hin];
    apply list_elem_of_fmap in Hin as (n & Hn & _);
    by apply (digit36_not_space n).
Qed.

(** C7 at a failing input.  After the draft's [POST] for a new user the
    password column of the account equals the password handed to the
    caller.  A second call in the same server process does not get as far
    as the update branch: the module-level client refuses to connect
    again, the call answers 500 and the column stays as it was.  In a
    process whose client is new the second call runs the update branch,
    and the column then equals the second password. *)
Theorem draft_upsert_keeps_plaintext :
  let request := ProvisionDraft.request_of "cg-user-1234" "Bob" "general" in
  let first := ProvisionDraft.POST draws_a request empty_db in
  let again := ProvisionDraft.POST draws_b request first.2 in
  let second := ProvisionDraft.POST draws_b request (ProvisionDraft.restart first.2) in
  first.1 = Provisioned "bob_1234" "abc123zyx987" "commonground" ∧
  stored_password "bob_1234" first.2 = Some "abc123zyx987" ∧
  again = (Failed 500 "Provisioning failed", first.2) ∧
  second.1 = Provisioned "bob_1234" "klm456543uvw" "commonground" ∧
  stored_password "bob_1234" second.2 = Some "klm456543uvw".
Proof. by vm_compute. Qed.

(** C8 at its failing input and beyond.  The upsert makes one pass: the
    username is the one [generateIrcUsername] derives, and no other is
    tried.  When that username is taken, by the caller's account or by
    another user's, a call that answers 200 has added no account and has
    replaced the password of the account that was there: the row holds
    the hash of the new password, which verifies. *)
Theorem taken_username_is_updated `{Bcrypt} (e : Entropy) (u : JwtUser)
    (community : string) (db : Db) :
  accounts (username_of u) db ≠ [] →
  let result := provisionIrcUserHandler e (authenticated u community) db in
  status result.1 = 200 →
  result.1 = Provisioned (username_of u) (generateSecurePassword e) "commonground" ∧
  map user_username (users result.2) = map user_username (users db) ∧
  map user_id (users result.2) = map user_id (users db) ∧
  stored_password (username_of u) result.2
  = Some (hashIrcPassword e (generateSecurePassword e)) ∧
  verify (username_of u) (generateSecurePassword e) result.2 = true.
Proof.
  cbv zeta. intros Hacc Hst.
  destruct (provision_success_for e u community db Hst)
    as (_ & H1 & H2 & _ & Hpw).
  destruct (upserted_taken (username_of u)
              (hashIrcPassword e (generateSecurePassword e))
              (kept (nickname_of u)) (kept (nickname_of u)) db Hacc) as [Hn Hi].
  rewrite H2. split_and!; try done.
  unfold verify. rewrite Hpw. apply compare_hash_same.
Qed.

Lemma taken_username_is_updated_witness :
  let H := example_bcrypt in
  let first := provisionIrcUserHandler draws_a (authenticated bob "general") empty_db in
  let result := provisionIrcUserHandler draws_b (authenticated other_bob "general") first.2 in
  result.1 = Provisioned "bob_1234" "klm456543uvw" "commonground" ∧
  map user_username (users result.2) = ["bob_1234"] ∧
  verify "bob_1234" "klm456543uvw" result.2 = true.
Proof.
  intros H first result.
  destruct (@taken_username_is_updated example_bcrypt draws_b other_bob "general"
              first.2 ltac:(discriminate) eq_refl) as (H1 & H2 & _ & _ & H5).
  split_and!.
  - exact H1.
  - exact H2.
  - exact H5.
Defined.

(** C8 as stated fails: two users called Bob whose ids end alike derive
    the same username; the second call neither retries with another
    suffix nor fails, it succeeds and replaces the password of the first
    user's account. *)
Lemma username_collision_counterexample :
  let H := example_bcrypt in
  let first := provisionIrcUserHandler draws_a (authenticated bob "general") empty_db in
  let second := provisionIrcUserHandler draws_b (authenticated other_bob "general") first.2 in
  first.1 = Provisioned "bob_1234" "abc123zyx987" "commonground" ∧
  second.1 = Provisioned "bob_1234" "klm456543uvw" "commonground" ∧
  status second.1 = 200%nat ∧
  map user_username (users second.2) = ["bob_1234"] ∧
  verify "bob_1234" "abc123zyx987" second.2 = false ∧
  verify "bob_1234" "klm456543uvw" second.2 = true.
Proof. by vm_compute. Qed.

End ProvisionFacts.

(** ** The auth callback *)

Module AuthCallbackFacts.
Import AuthCallback.

Section Handler.
Variable verifyPassword : string → string → bool.
Variable now : nat.

(** C4.  The callback answers 200 exactly when the username is in the
    table and [verifyPassword] accepts the password against the stored
    hash; in every other case it answers 403 and leaves the table as it
    was.  No third status occurs. *)
Theorem auth_status (username password : string) (table : gmap string IrcUser) :
  let result := handler verifyPassword now username password table in
  (status result.1.1 = 200%nat ↔
     ∃ ircUser, table !! username = Some ircUser ∧
                verifyPassword password (ircPasswordHash ircUser) = true) ∧
  (status result.1.1 ≠ 200%nat →
     status result.1.1 = 403%nat ∧ result.1.2 = table).
Proof.
  intros result. subst result. unfold handler.
  destruct (table !! username) as [ircUser|] eqn:Hlook.
  - destruct (verifyPassword password (ircPasswordHash ircUser)) eqn:Hv; simpl.
    + split; [|done]. split; [|done]. intros _. by exists ircUser.
    + split; [|done]. split; [done|]. intros (u & [= <-] & Hu). congruence.
  - simpl. split; [|done]. split; [done|]. by intros (u & Hu & _).
Qed.

(** C5, as the code has it.  For a username that is not in the table the
    callback answers 403 right after the lookup and never calls
    [verifyPassword]; for a known username with a wrong password it calls
    [verifyPassword] once, on the stored hash, and then answers 403.  The
    two failures take different paths and carry different error texts. *)
Theorem auth_failure_paths (unknown known wrong : string) (ircUser : IrcUser)
    (table : gmap string IrcUser) :
  table !! unknown = None →
  table !! known = Some ircUser →
  verifyPassword wrong (ircPasswordHash ircUser) = false →
  handler verifyPassword now unknown wrong table
  = ({| status := 403; body := inl "User not found" |}, table,
     [FindIrcUserByUsername unknown]) ∧
  handler verifyPassword now known wrong table
  = ({| status := 403; body := inl "Invalid password" |}, table,
     [FindIrcUserByUsername known;
      VerifyPassword wrong (ircPasswordHash ircUser)]).
Proof.
  intros Hu Hk Hv. unfold handler. by rewrite Hu, Hk, Hv.
Qed.

End Handler.

Lemma auth_status_witness :
  status (handler example_verify 7 "alice_42" "s3cr3t" one_user).1.1 = 200%nat ∧
  status (handler example_verify 7 "alice_42" "wrong" one_user).1.1 = 403%nat ∧
  (handler example_verify 7 "alice_42" "wrong" one_user).1.2 = one_user.
Proof.
  destruct (auth_status example_verify 7 "alice_42" "s3cr3t" one_user)
    as [[_ Hyes] _].
  destruct (auth_status example_verify 7 "alice_42" "wrong" one_user)
    as [_ Hno].
  split.
  - apply Hyes. exists alice_row. split; reflexivity.
  - apply Hno. discriminate.
Defined.

Lemma auth_failure_paths_witness :
  (handler example_verify 7 "mallory" "guess" one_user).2
  = [FindIrcUserByUsername "mallory"] ∧
  (handler example_verify 7 "alice_42" "guess" one_user).2
  = [FindIrcUserByUsername "alice_42";
     VerifyPassword "guess" (ircPasswordHash alice_row)].
Proof.
  destruct (auth_failure_paths example_verify 7 "mallory" "alice_42" "guess"
              alice_row one_user eq_refl eq_refl eq_refl) as [H1 H2].
  rewrite H1, H2. by split.
Defined.

(** C5 as stated fails: on a table that knows alice_42 only, a login as
    mallory is refused without any password check, a login as alice_42
    with a wrong password after one; the operations differ, and so do the
    bodies of the two answers. *)
Lemma auth_timing_counterexample :
  let unknown := handler example_verify 7 "mallory" "guess" one_user in
  let wrong := handler example_verify 7 "alice_42" "guess" one_user in
  status unknown.1.1 = 403%nat ∧ status wrong.1.1 = 403%nat ∧
  unknown.2 = [FindIrcUserByUsername "mallory"] ∧
  wrong.2 = [FindIrcUserByUsername "alice_42";
             VerifyPassword "guess" "$2a$10$/AB...................s3cr3t"] ∧
  length unknown.2 ≠ length wrong.2 ∧
  body unknown.1.1 ≠ body wrong.1.1.
Proof. by vm_compute. Qed.

(** With bcrypt's [compare] as [verifyPassword], the callback accepts
    the passwords that bcrypt gives the digest of the hashed one. *)
Lemma auth_accepts_hashed_password `{Bcryptjs.Bcrypt} (now : nat)
    (username password secret : string) (seed : list nat) (ircUser : IrcUser)
    (table : gmap string IrcUser) :
  table !! username = Some ircUser →
  ircPasswordHash ircUser = Bcryptjs.hash seed secret →
  status (handler Bcryptjs.compare now username password table).1.1 = 200%nat
  ↔ Bcryptjs.bcrypt_digest (Bcryptjs.genSalt seed) password
    = Bcryptjs.bcrypt_digest (Bcryptjs.genSalt seed) secret.
Proof.
  intros Hlook Hhash. unfold handler.
  rewrite Hlook, Hhash, <- BcryptFacts.compare_hash.
  by destruct (Bcryptjs.compare _ _).
Qed.

(** The callback accepts the provisioned password and refuses another. *)
Example auth_accepts_alice :
  status (handler example_verify 7 "alice_42" "s3cr3t" one_user).1.1 = 200%nat ∧
  status (handler example_verify 7 "alice_42" "wrong" one_user).1.1 = 403%nat.
Proof. by vm_compute. Qed.

End AuthCallbackFacts.

(** ** The iframe integration script, continued *)

Module IframeMoreFacts.
Import Js Iframe IframeFacts IframeMore.

Ltac out_intro :=
  let Hd := fresh "Hdom" in
  let Hl := fresh "Hload" in
  let Hm := fresh "Hmsg" in
  let Hc := fresh "Hdcl" in
  let Hw := fresh "Hwrap" in
  let Ht := fresh "Htim" in
  let Hn := fresh "Hnext" in
  let Hs := fresh "Hsub" in
  let Hk := fresh "Hcalls" in
  intros (Hd & Hl & Hm & Hc & Hw & Ht & Hn & Hs & Hk).

Ltac out_close := unfold same_but_output; simpl; repeat split; congruence.

Lemma same_but_output_refl p : same_but_output p p.
Proof. out_close. Qed.

Lemma same_but_output_trans p q r :
  same_but_output p q → same_but_output q r → same_but_output p r.
Proof. out_intro. out_intro. out_close. Qed.

Lemma notifyParent_output w ty d p : same_but_output (notifyParent w ty d p) p.
Proof. unfold notifyParent. destruct (parent_is_other w); out_close. Qed.

Lemma monitor_output w args p : same_but_output (monitor w args p).2 p.
Proof.
  unfold monitor. destruct (join_values " " args) as [message|]; simpl;
    [|apply same_but_output_refl].
  repeat match goal with |- context [if ?b then _ else _] => destruct b end;
    auto using notifyParent_output, same_but_output_refl.
Qed.

Lemma console_log_at_output depth w args p :
  same_but_output (console_log_at depth w args p).2 p.
Proof.
  revert p. induction depth as [|n IH]; intros p; simpl.
  - out_close.
  - unfold seq. pose proof (monitor_output w args p) as Hm.
    destruct (monitor w args p) as [[|] p']; simpl in *; [|done].
    eapply same_but_output_trans; [apply IH|done].
Qed.

Lemma console_log_output w args p : same_but_output (console_log w args p).2 p.
Proof. apply console_log_at_output. Qed.

(** [console.log] keeps every property that the output does not matter
    to. *)
Lemma console_log_keeps (I : Page → Prop) w args :
  (∀ p q, same_but_output q p → I p → I q) → preserves I (console_log w args).
Proof. intros HI p H. eapply HI; [apply console_log_output|done]. Qed.

(** A line that can be joined goes through every wrapper. *)
Lemma console_log_at_returns depth w args p message :
  join_values " " args = Some message →
  (console_log_at depth w args p).1 = Returns ∧
  console (console_log_at depth w args p).2 = console p ++ [(Log, args)].
Proof.
  intros Hjoin. revert p. induction depth as [|n IH]; intros p; simpl; [done|].
  unfold seq, monitor. rewrite Hjoin. simpl.
  destruct (IH (if JsString.includes message "Connected to"
                then notifyParent w "connected" (VObj [("message", VStr message)]) p
                else if JsString.includes message "Disconnected from"
                then notifyParent w "disconnected" (VObj [("message", VStr message)]) p
                else if JsString.includes message "Joined channel"
                then notifyParent w "joined" (VObj [("message", VStr message)]) p
                else p)) as [H1 H2].
  split; [done|]. rewrite H2. f_equal.
  unfold notifyParent.
  repeat match goal with |- context [if ?b then _ else _] => destruct b end;
    reflexivity.
Qed.

Lemma console_log_returns w args p message :
  join_values " " args = Some message → (console_log w args p).1 = Returns.
Proof. intros H. by apply (console_log_at_returns _ w args p message). Qed.

(** X1.  A call of [console.log] whose arguments can be joined into a
    line (as they always can while [console.log] is not wrapped) reaches
    the native console exactly once and with its arguments unchanged,
    however often [console.log] has been wrapped.  A call whose arguments
    cannot be joined is lost once a wrapper is installed: the wrapper
    throws before it calls the previous [console.log], and the page is
    left as it was. *)
Theorem console_log_reaches_console (w : Window) (args : list value) (p : Page) :
  (log_wrappers p = 0 ∨ is_Some (join_values " " args) →
     (console_log w args p).1 = Returns ∧
     console (console_log w args p).2 = console p ++ [(Log, args)] ∧
     same_but_output (console_log w args p).2 p) ∧
  (0 < log_wrappers p → join_values " " args = None →
     console_log w args p = (Throws, p)).
Proof.
  split.
  - intros Hcan. split_and!; [| |apply console_log_output].
    + destruct Hcan as [Hzero|[message Hjoin]].
      * unfold console_log. by rewrite Hzero.
      * by apply (console_log_returns w args p message).
    + destruct Hcan as [Hzero|[message Hjoin]].
      * unfold console_log. by rewrite Hzero.
      * by apply (console_log_at_returns _ w args p message).
  - intros Hpos Hjoin. unfold console_log.
    destruct (log_wrappers p) as [|n]; [lia|]. simpl.
    unfold seq, monitor. by rewrite Hjoin.
Qed.

Lemma console_log_reaches_console_witness :
  let p := run embedded_window (fresh_page connect_page false) [ScriptLoaded] in
  let odd := VObj [("toString", VNull)] in
  console (console_log embedded_window [VStr "Connected to"; VStr "irc"] p).2
  = console p ++ [(Log, [VStr "Connected to"; VStr "irc"])] ∧
  console_log embedded_window [VStr "state:"; odd] p = (Throws, p) ∧
  console (console_log embedded_window [VStr "state:"; odd]
             (fresh_page connect_page false)).2
  = [(Log, [VStr "state:"; odd])].
Proof.
  intros p odd.
  destruct (console_log_reaches_console embedded_window
              [VStr "Connected to"; VStr "irc"] p) as [Hyes _].
  destruct (console_log_reaches_console embedded_window [VStr "state:"; odd] p)
    as [_ Hno].
  destruct (console_log_reaches_console embedded_window [VStr "state:"; odd]
              (fresh_page connect_page false)) as [Hnone _].
  split_and!.
  - apply Hyes. right. by eexists.
  - apply Hno; [simpl; lia|reflexivity].
  - apply Hnone. by left.
Defined.

Lemma monitor_posted w args p message :
  join_values " " args = Some message →
  monitor w args p
  = (Returns,
     set_posted
       (posted p ++
        match connection_event message with
        | Some label =>
            if parent_is_other w
            then [(irc_event label (VObj [("message", VStr message)]), "*")]
            else []
        | None => []
        end) p).
Proof.
  intros Hjoin. unfold monitor, connection_event, notifyParent. rewrite Hjoin.
  unfold act. f_equal. destruct p.
  repeat match goal with |- context [if ?b then _ else _] => destruct b end;
    unfold set_posted; simpl; by rewrite ?app_nil_r.
Qed.

Lemma console_log_at_posted depth w args p message :
  join_values " " args = Some message →
  posted (console_log_at depth w args p).2
  = posted p ++
    match connection_event message with
    | Some label =>
        replicate (if parent_is_other w then depth else 0)
          (irc_event label (VObj [("message", VStr message)]), "*")
    | None => []
    end.
Proof.
  intros Hjoin. revert p. induction depth as [|n IH]; intros p; simpl.
  - destruct (connection_event _); [|by rewrite app_nil_r].
    destruct (parent_is_other w); by rewrite app_nil_r.
  - unfold seq. rewrite (monitor_posted w args p message Hjoin).
    rewrite IH. simpl. rewrite <- app_assoc. f_equal.
    destruct (connection_event _); [|done].
    by destruct (parent_is_other w).
Qed.

(** X2.  One [console.log] call posts one event per installed wrapper,
    all under the first label that matches the joined arguments
    ('connected' before 'disconnected' before 'joined'), each carrying the
    whole line; a line that matches none, a window without a distinct
    parent, or arguments that cannot be joined post nothing. *)
Theorem console_log_posts (w : Window) (args : list value) (p : Page) :
  posted (console_log w args p).2
  = posted p ++
    match join_values " " args with
    | Some message =>
        match connection_event message with
        | Some label =>
            replicate (if parent_is_other w then log_wrappers p else 0)
              (irc_event label (VObj [("message", VStr message)]), "*")
        | None => []
        end
    | None => []
    end.
Proof.
  destruct (join_values " " args) as [message|] eqn:Hjoin.
  - by apply console_log_at_posted.
  - rewrite app_nil_r. unfold console_log.
    destruct (log_wrappers p) as [|n]; simpl; [done|].
    unfold seq, monitor. by rewrite Hjoin.
Qed.

(** *** The interval callback *)

(** What one run of the interval callback leaves: nothing while the form
    is missing; else the interval is cleared, the fields are written as
    far as the assignments get, and the submit is scheduled unless an
    assignment threw. *)
Lemma wait_for_form_cases id nick password realname p :
  wait_for_form id nick password realname p = (Returns, p) ∨
  ∃ d,
    wait_for_form id nick password realname p
    = (Returns, add_timer SubmitForm (set_dom d (clear_timer id p))) ∨
    wait_for_form id nick password realname p
    = (Throws, set_dom d (clear_timer id p)).
Proof.
  unfold wait_for_form. destruct p as [[[n|] [pw|] r [|]] ? ? ? ? ? ? ? ? ? ?];
    simpl; try (by left).
  right. unfold seq, act, set_value, skip, throw.
  repeat first
    [ match goal with |- context [if ?b then _ else _] => destruct b end
    | match goal with
      | |- context [match to_string ?v with _ => _ end] => destruct (to_string v)
      end ];
    simpl; eexists; (left; reflexivity) || (right; reflexivity).
Qed.

Lemma join_two_strings (s : string) (v : value) (t : string) :
  element_string v = Some t → join_values " " [VStr s; v] = Some (s +:+ " " +:+ t).
Proof. intros Hv. unfold join_values. simpl. by rewrite Hv. Qed.

(** *** Submissions and logins *)

Lemma login_budget_frame p q :
  submits q = submits p → timers q = timers p → calls q = calls p →
  login_budget p → login_budget q.
Proof.
  unfold login_budget, pending_logins, login_calls. by intros -> -> ->.
Qed.

Lemma login_budget_output p q :
  same_but_output q p → login_budget p → login_budget q.
Proof. out_intro. by apply login_budget_frame. Qed.

Lemma count_clear_le id ts :
  length (List.filter is_login_task (filter (fun t => t.1 ≠ id) ts))
  ≤ length (List.filter is_login_task ts).
Proof.
  induction ts as [|[i t] ts IH]; [done|]. rewrite filter_cons. simpl.
  destruct (decide (i ≠ id)); simpl; destruct (is_login_task (i, t)); simpl; lia.
Qed.

Lemma count_clear_found id t ts :
  find_timer id ts = Some t → is_login_task (id, t) = true →
  length (List.filter is_login_task (filter (fun t => t.1 ≠ id) ts)) + 1
  ≤ length (List.filter is_login_task ts).
Proof.
  intros Hfind Hlogin. induction ts as [|[i t'] ts IH]; [done|].
  rewrite filter_cons. simpl in *.
  destruct (Nat.eqb_spec i id) as [->|Hne].
  - injection Hfind as ->. rewrite decide_False by (intros H; by apply H).
    change (is_login_task (id, t)) with (is_login_task (id, t)) in Hlogin.
    replace (is_login_task (id, t)) with true. simpl.
    pose proof (count_clear_le id ts). lia.
  - rewrite decide_True by done. simpl.
    destruct (is_login_task (i, t')); simpl; specialize (IH Hfind); lia.
Qed.

Lemma pending_add_timer t p :
  pending_logins (add_timer t p)
  = pending_logins p + (if is_login_task (next_timer p, t) then 1 else 0).
Proof.
  unfold pending_logins, add_timer. simpl. rewrite List.filter_app, length_app.
  simpl. by destruct (is_login_task _).
Qed.

Lemma handleIrcLogin_budget w data : preserves login_budget (handleIrcLogin w data).
Proof.
  intros p H. unfold handleIrcLogin, seq, act.
  set (p0 := set_calls (calls p ++ [HandleIrcLogin data]) p).
  pose proof (console_log_output w
    [VStr "Attempting IRC login for user:"; get data "nick"] p0) as Hout.
  destruct (console_log w _ p0) as [[|] p1]; simpl in *;
    revert Hout; out_intro; unfold login_budget in *.
  - rewrite !pending_add_timer. unfold login_calls, pending_logins in *. simpl.
    rewrite Hsub, Hcalls, Htim. simpl.
    rewrite List.filter_app, length_app. simpl. lia.
  - unfold login_calls, pending_logins in *.
    rewrite Hsub, Hcalls, Htim. simpl.
    rewrite List.filter_app, length_app. simpl. lia.
Qed.

Lemma handleThemeChange_budget w data :
  preserves login_budget (handleThemeChange w data).
Proof.
  unfold handleThemeChange. apply preserves_seq.
  - apply preserves_act. intros p H.
    unfold login_budget, login_calls, pending_logins in *. simpl.
    rewrite List.filter_app, length_app. simpl. lia.
  - apply preserves_if; [|apply preserves_skip].
    apply console_log_keeps. apply login_budget_output.
Qed.

Lemma on_message_budget w origin data p :
  login_budget p → login_budget (on_message w origin data p).
Proof.
  intros H. unfold on_message. destruct (negb _).
  - by apply (login_budget_frame p).
  - apply preserves_uncaught; [|done].
    apply preserves_seq; [apply console_log_keeps, login_budget_output|].
    repeat apply preserves_if;
      auto using handleIrcLogin_budget, handleThemeChange_budget, preserves_skip.
Qed.

Lemma clear_timer_budget id p :
  login_budget p → login_budget (clear_timer id p).
Proof.
  unfold login_budget, pending_logins, login_calls, clear_timer. simpl.
  pose proof (count_clear_le id (timers p)). lia.
Qed.

Lemma fire_budget w id p : login_budget p → login_budget (fire w id p).
Proof.
  intros H. unfold fire.
  destruct (find_timer id (timers p)) as [[nick password realname| |i|]|] eqn:Hfind.
  - unfold uncaught.
    destruct (wait_for_form_cases id nick password realname p)
      as [->|(d & [->| ->])]; simpl; [done| |].
    + unfold login_budget in *. rewrite pending_add_timer.
      unfold pending_logins, login_calls in *. simpl.
      pose proof (count_clear_found id _ _ Hfind eq_refl). lia.
    + by apply (login_budget_frame (clear_timer id p)), clear_timer_budget.
  - unfold uncaught, seq, act.
    set (p0 := clear_timer id p).
    pose proof (console_log_output w [VStr "Submitting IRC connection form"] p0)
      as Hout.
    pose proof (count_clear_found id _ _ Hfind eq_refl) as H0.
    destruct (console_log w _ p0) as [[|] p1]; simpl in *;
      revert Hout; out_intro; unfold login_budget, pending_logins, login_calls in *;
      simpl; rewrite ?length_app, Hsub, Htim, Hcalls; subst p0; simpl; lia.
  - by apply clear_timer_budget, clear_timer_budget.
  - eapply login_budget_output; [apply notifyParent_output|].
    by apply clear_timer_budget.
  - done.
Qed.

Lemma run_script_budget w p : login_budget p → login_budget (run_script w p).
Proof.
  intros H. unfold run_script. destruct (self_is_top w); [done|].
  apply preserves_uncaught; [|done].
  apply preserves_seq; [apply console_log_keeps, login_budget_output|].
  apply preserves_act. intros q Hq.
  unfold login_budget in *. rewrite pending_add_timer.
  unfold pending_logins, login_calls in *.
  destruct (loading _) eqn:Hl; simpl; lia.
Qed.

Lemma step_budget w e p : login_budget p → login_budget (step w p e).
Proof.
  intros H. destruct e as [|origin data|id| |args|d]; simpl.
  - by apply run_script_budget.
  - apply preserves_iter; auto using on_message_budget.
  - by apply fire_budget.
  - destruct (loading p); [|done]. apply preserves_iter; [|done].
    intros q Hq. by apply (login_budget_frame q).
  - eapply login_budget_output; [apply console_log_output|done].
  - by apply (login_budget_frame p).
Qed.

Lemma run_budget w events p : login_budget p → login_budget (run w p events).
Proof.
  revert p. induction events as [|e events IH]; intros p H; simpl; [done|].
  by apply IH, step_budget.
Qed.

(** X3.  Whatever happens on a page, the connect form is submitted at
    most as often as [handleIrcLogin] was entered: every submission, and
    every login still polling or waiting to submit, goes back to an
    'irc-login' message that passed the origin check. *)
Theorem submits_bounded_by_logins (w : Window) (d : Dom) (is_loading : bool)
    (events : list event) :
  let p := run w (fresh_page d is_loading) events in
  length (submits p) + pending_logins p ≤ login_calls p.
Proof.
  apply (run_budget w events (fresh_page d is_loading)).
  unfold login_budget, pending_logins, login_calls. simpl. lia.
Qed.

Lemma no_login_task_without_call id t p :
  login_budget p → calls p = [] → find_timer id (timers p) = Some t →
  is_login_task (id, t) = false.
Proof.
  unfold login_budget, pending_logins, login_calls. intros Hb Hc Hfind.
  rewrite Hc in Hb. simpl in Hb.
  destruct (is_login_task (id, t)) eqn:E; [|done].
  pose proof (count_clear_found id t (timers p) Hfind E). lia.
Qed.

Lemma iter_setup_frame n p :
  dom (Nat.iter n setupConnectionMonitoring p) = dom p ∧
  calls (Nat.iter n setupConnectionMonitoring p) = calls p.
Proof. induction n as [|n [IH1 IH2]]; simpl; auto. Qed.

(** Pieces of the script that touch neither the document nor the record
    of the handlers entered. *)
Lemma console_log_quiet w args p :
  calls (console_log w args p).2 = calls p ∧ dom (console_log w args p).2 = dom p.
Proof.
  pose proof (console_log_output w args p) as Hout. revert Hout. out_intro.
  by split.
Qed.

Lemma step_without_login w e p :
  match e with
  | Message origin _ => origin_allowed origin = false
  | _ => True
  end →
  calls p = [] → login_budget p →
  calls (step w p e) = [] ∧ dom (step w p e) = last_render (dom p) e.
Proof.
  intros He Hc Hb. destruct e as [|origin data|id| |args|d]; simpl.
  - unfold run_script. destruct (self_is_top w); [done|].
    unfold uncaught, seq, act.
    destruct (console_log_quiet w [VStr "CommonGround IRC integration loaded"] p)
      as [Hk Hd].
    destruct (console_log w _ p) as [[|] p1]; simpl in *; [|split; congruence].
    unfold add_timer, setupConnectionMonitoring.
    destruct (loading _); simpl; split; congruence.
  - assert (origin ∉ allowedOrigins) as Hnot.
    { intros Hin. apply origin_allowed_spec in Hin. congruence. }
    pose proof (deliver_unauthorized w origin data p Hnot) as Heq.
    simpl in Heq. rewrite Heq.
    pose proof (iter_console_warn_sim
      [VStr "Ignored message from unauthorized origin:"; VStr origin]
      (message_listeners p) p) as (Hd & _ & _ & _ & _ & _ & _ & _ & _ & Hk).
    split; congruence.
  - unfold fire.
    destruct (find_timer id (timers p)) as [[nick password realname| |i|]|] eqn:Hfind;
      try (by pose proof (no_login_task_without_call _ _ _ Hb Hc Hfind)).
    + pose proof (notifyParent_output w "ready"
        (VObj [("url", VStr (href w)); ("userAgent", VStr (userAgent w))])
        (clear_timer id p)) as Hout.
      revert Hout. out_intro. simpl in *. split; congruence.
    + done.
  - destruct (loading p); [|done].
    destruct (iter_setup_frame (dcl_listeners p) (set_loading false p))
      as [Hd Hk].
    simpl in *. split; congruence.
  - destruct (console_log_quiet w args p) as [Hk Hd]. unfold uncaught.
    split; congruence.
  - done.
Qed.

Lemma run_without_login w events p :
  unauthorized_only events → calls p = [] → login_budget p →
  calls (run w p events) = [] ∧ login_budget (run w p events) ∧
  dom (run w p events) = fold_left last_render events (dom p).
Proof.
  revert p. induction events as [|e events IH]; intros p Hev Hc Hb; simpl;
    [done|].
  apply Forall_cons in Hev as [He Hev].
  destruct (step_without_login w e p He Hc Hb) as [Hc' Hd'].
  destruct (IH (step w p e) Hev Hc' (step_budget w e p Hb)) as (H1 & H2 & H3).
  split_and!; try done. by rewrite H3, Hd'.
Qed.

(** X4.  On a page that receives messages from origins off the
    allow-list only, [handleIrcLogin] and [handleThemeChange] are never
    entered, no login is under way, the form is never submitted, and the
    form fields are those the web client rendered last, whatever else
    happens (timers firing, log lines, re-renders, the script loading
    again). *)
Theorem unauthorized_messages_never_log_in (w : Window) (d : Dom)
    (is_loading : bool) (events : list event) :
  unauthorized_only events →
  let p := run w (fresh_page d is_loading) events in
  calls p = [] ∧ submits p = [] ∧ pending_logins p = 0 ∧
  dom p = fold_left last_render events d.
Proof.
  intros Hev p. subst p.
  destruct (run_without_login w events (fresh_page d is_loading) Hev eq_refl)
    as (Hc & Hb & Hd).
  { unfold login_budget, pending_logins, login_calls. simpl. lia. }
  unfold login_budget, login_calls in Hb. rewrite Hc in Hb. simpl in Hb.
  split_and!; try done.
  - apply length_zero_iff_nil. lia.
  - lia.
Qed.

Lemma unauthorized_messages_never_log_in_witness :
  let p := run embedded_window (fresh_page connect_page true)
             [ScriptLoaded; Message "https://evil.example" login_message;
              DomContentLoaded; TimerFired 1; TimerFired 2;
              PageLog [VStr "Connected to irc"]] in
  calls p = [] ∧ submits p = [] ∧ dom p = connect_page.
Proof.
  intros p.
  destruct (unauthorized_messages_never_log_in embedded_window connect_page true
              [ScriptLoaded; Message "https://evil.example" login_message;
               DomContentLoaded; TimerFired 1; TimerFired 2;
               PageLog [VStr "Connected to irc"]])
    as (Hc & Hs & _ & Hd).
  - unfold unauthorized_only. repeat (constructor; [done|]). constructor.
  - by split_and!.
Defined.

(** X5.  A message that is not an 'irc-login' one (a theme message, any
    other payload, from any origin) sets no timer, writes to no form
    field, submits nothing and does not count as a login: all it can do
    is log, and thereby post. *)
Theorem other_messages_only_log (w : Window) (origin : string) (data : value)
    (p : Page) :
  is_irc_login data = false →
  let p' := on_message w origin data p in
  dom p' = dom p ∧ timers p' = timers p ∧ next_timer p' = next_timer p ∧
  submits p' = submits p ∧ login_calls p' = login_calls p.
Proof.
  intros Hno. unfold is_irc_login in Hno. cbv zeta. unfold on_message.
  destruct (negb (origin_allowed origin)); [done|]. rewrite Hno.
  set (I := fun q : Page =>
              dom q = dom p ∧ timers q = timers p ∧ next_timer q = next_timer p ∧
              submits q = submits p ∧ login_calls q = login_calls p).
  assert (∀ q r, same_but_output r q → I q → I r) as Hout.
  { intros q r. out_intro. unfold I, login_calls. intros (? & ? & ? & ? & ?).
    rewrite Hcalls. split_and!; congruence. }
  apply (preserves_uncaught I); [|by unfold I].
  apply preserves_seq; [by apply console_log_keeps|].
  apply preserves_if; [|apply preserves_skip].
  unfold handleThemeChange. apply preserves_seq.
  - apply preserves_act. intros q (? & ? & ? & ? & Hk). unfold I, login_calls in *.
    simpl. rewrite List.filter_app, length_app. simpl. split_and!; try done. lia.
  - apply preserves_if; [by apply console_log_keeps|apply preserves_skip].
Qed.

Lemma other_messages_only_log_witness :
  let data := VObj [("type", VStr "irc-theme"); ("theme", VStr "dark")] in
  let p := run embedded_window (fresh_page connect_page false) [ScriptLoaded] in
  let p' := on_message embedded_window "https://curia.network" data p in
  dom p' = connect_page ∧ timers p' = timers p ∧ submits p' = [].
Proof.
  intros data p p'.
  destruct (other_messages_only_log embedded_window "https://curia.network"
              data p eq_refl) as (Hd & Ht & _ & Hs & _).
  by split_and!.
Defined.

(** *** Timers *)

Lemma find_timer_app id ts us :
  find_timer id (ts ++ us)
  = match find_timer id ts with
    | Some t => Some t
    | None => find_timer id us
    end.
Proof.
  induction ts as [|[i t] ts IH]; [done|]. simpl.
  by destruct (Nat.eqb i id).
Qed.

Lemma find_timer_cleared id ts :
  find_timer id (filter (fun t => t.1 ≠ id) ts) = None.
Proof.
  induction ts as [|[i t] ts IH]; [done|]. rewrite filter_cons. simpl.
  destruct (decide (i ≠ id)) as [Hne|Heq]; [|done]. simpl.
  apply Nat.eqb_neq in Hne. by rewrite Hne.
Qed.

Lemma find_timer_clear_other id k ts :
  id ≠ k → find_timer id (filter (fun t => t.1 ≠ k) ts) = find_timer id ts.
Proof.
  intros Hne. induction ts as [|[i t] ts IH]; [done|]. rewrite filter_cons. simpl.
  destruct (decide (i ≠ k)) as [Hik|Hik]; simpl.
  - by rewrite IH.
  - destruct (Nat.eqb_spec i id) as [->|_]; [|done].
    exfalso. apply Hik. done.
Qed.

Lemma find_timer_clear_none id k ts :
  find_timer id ts = None → find_timer id (filter (fun t => t.1 ≠ k) ts) = None.
Proof.
  intros Hnone. destruct (decide (id = k)) as [->|Hne].
  - apply find_timer_cleared.
  - by rewrite find_timer_clear_other.
Qed.

Lemma find_timer_elem id t ts : find_timer id ts = Some t → (id, t) ∈ ts.
Proof.
  induction ts as [|[i t'] ts IH]; [done|]. simpl.
  destruct (Nat.eqb_spec i id) as [->|_].
  - intros [= ->]. apply list_elem_of_here.
  - intros H. by apply list_elem_of_further, IH.
Qed.

Lemma find_timer_beyond id n ts :
  Forall (fun t : nat * task => t.1 < n) ts → n ≤ id → find_timer id ts = None.
Proof.
  intros Hall Hle. induction Hall as [|[i t] ts Hi _ IH]; [done|]. simpl in *.
  destruct (Nat.eqb_spec i id); [lia|done].
Qed.

Lemma timers_fresh_ids p :
  timers_fresh p → Forall (fun t : nat * task => t.1 < next_timer p) (timers p).
Proof.
  unfold timers_fresh. intros H. eapply Forall_impl; [exact H|].
  by intros t [? _].
Qed.

Lemma timers_fresh_frame p q :
  timers q = timers p → next_timer q = next_timer p →
  timers_fresh p → timers_fresh q.
Proof. unfold timers_fresh. by intros -> ->. Qed.

Lemma timers_fresh_output p q :
  same_but_output q p → timers_fresh p → timers_fresh q.
Proof. out_intro. by apply timers_fresh_frame. Qed.

Lemma add_timer_fresh t p :
  match t with
  | StopWaiting interval => interval ≤ next_timer p
  | _ => True
  end →
  timers_fresh p → timers_fresh (add_timer t p).
Proof.
  unfold timers_fresh, add_timer. simpl. intros Ht Hall.
  apply Forall_app. split.
  - eapply Forall_impl; [exact Hall|]. intros [i t'] [Hi Ht']. simpl in *.
    split; [lia|]. destruct t'; try done. lia.
  - apply Forall_singleton. simpl. split; [lia|]. destruct t; try done. lia.
Qed.

Lemma clear_timer_fresh id p : timers_fresh p → timers_fresh (clear_timer id p).
Proof.
  unfold timers_fresh, clear_timer. simpl. intros Hall.
  apply Forall_forall. intros t Hin. apply list_elem_of_filter in Hin as [_ Hin].
  by apply (proj1 (Forall_forall _ _) Hall).
Qed.

Lemma act_fresh (f : Page → Page) :
  (∀ p, timers (f p) = timers p ∧ next_timer (f p) = next_timer p) →
  preserves timers_fresh (act f).
Proof.
  intros Hf. apply preserves_act. intros p.
  destruct (Hf p). by apply timers_fresh_frame.
Qed.

Lemma console_log_fresh w args : preserves timers_fresh (console_log w args).
Proof. apply console_log_keeps. intros p q. apply timers_fresh_output. Qed.

Lemma handleIrcLogin_fresh w data : preserves timers_fresh (handleIrcLogin w data).
Proof.
  unfold handleIrcLogin.
  apply preserves_seq; [by apply act_fresh|].
  apply preserves_seq; [apply console_log_fresh|].
  apply preserves_act. intros p H.
  apply add_timer_fresh; [simpl; lia|]. by apply add_timer_fresh.
Qed.

Lemma handleThemeChange_fresh w data :
  preserves timers_fresh (handleThemeChange w data).
Proof.
  unfold handleThemeChange. apply preserves_seq; [by apply act_fresh|].
  apply preserves_if; [apply console_log_fresh|apply preserves_skip].
Qed.

Lemma on_message_fresh w origin data p :
  timers_fresh p → timers_fresh (on_message w origin data p).
Proof.
  intros H. unfold on_message. destruct (negb _).
  - by apply (timers_fresh_frame p).
  - apply preserves_uncaught; [|done].
    apply preserves_seq; [apply console_log_fresh|].
    repeat apply preserves_if;
      auto using handleIrcLogin_fresh, handleThemeChange_fresh, preserves_skip.
Qed.

Lemma fire_fresh w id p : timers_fresh p → timers_fresh (fire w id p).
Proof.
  intros H. unfold fire.
  destruct (find_timer id (timers p)) as [[nick password realname| |i|]|].
  - unfold uncaught.
    destruct (wait_for_form_cases id nick password realname p)
      as [->|(d & [->| ->])]; simpl; [done| |].
    + apply add_timer_fresh; [done|].
      eapply timers_fresh_frame; [| |apply (clear_timer_fresh id p H)]; done.
    + eapply timers_fresh_frame; [| |apply (clear_timer_fresh id p H)]; done.
  - apply preserves_uncaught; [|done].
    apply preserves_seq.
    { apply preserves_act. intros q. apply clear_timer_fresh. }
    apply preserves_seq; [apply console_log_fresh|by apply act_fresh].
  - by apply clear_timer_fresh, clear_timer_fresh.
  - eapply timers_fresh_output; [apply notifyParent_output|].
    by apply clear_timer_fresh.
  - done.
Qed.

Lemma run_script_fresh w p : timers_fresh p → timers_fresh (run_script w p).
Proof.
  intros H. unfold run_script. destruct (self_is_top w); [done|].
  apply preserves_uncaught; [|done].
  apply preserves_seq; [apply console_log_fresh|].
  apply preserves_act. intros q Hq.
  apply add_timer_fresh; [done|].
  destruct (loading _); by eapply timers_fresh_frame; [| |exact Hq].
Qed.

Lemma step_fresh w e p : timers_fresh p → timers_fresh (step w p e).
Proof.
  intros H. destruct e as [|origin data|id| |args|d]; simpl.
  - by apply run_script_fresh.
  - apply preserves_iter; auto using on_message_fresh.
  - by apply fire_fresh.
  - destruct (loading p); [|done]. apply preserves_iter; [|done].
    intros q Hq. by apply (timers_fresh_frame q).
  - by apply console_log_fresh.
  - by apply (timers_fresh_frame p).
Qed.

Lemma run_fresh w events p : timers_fresh p → timers_fresh (run w p events).
Proof.
  revert p. induction events as [|e events IH]; intros p H; simpl; [done|].
  by apply IH, step_fresh.
Qed.

Lemma fresh_page_fresh d is_loading : timers_fresh (fresh_page d is_loading).
Proof. unfold timers_fresh. simpl. constructor. Qed.

(** A dead timer stays dead. *)

Lemma dead_timer_frame id p q :
  timers q = timers p → next_timer q = next_timer p →
  dead_timer id p → dead_timer id q.
Proof. unfold dead_timer. by intros -> ->. Qed.

Lemma dead_timer_output id p q :
  same_but_output q p → dead_timer id p → dead_timer id q.
Proof. out_intro. by apply dead_timer_frame. Qed.

Lemma add_timer_dead id t p : dead_timer id p → dead_timer id (add_timer t p).
Proof.
  unfold dead_timer, add_timer. simpl. intros [Hlt Hnone]. split; [lia|].
  rewrite find_timer_app, Hnone. simpl.
  destruct (Nat.eqb_spec (next_timer p) id); [lia|done].
Qed.

Lemma clear_timer_dead id k p : dead_timer id p → dead_timer id (clear_timer k p).
Proof.
  unfold dead_timer, clear_timer. simpl. intros [Hlt Hnone]. split; [done|].
  by apply find_timer_clear_none.
Qed.

Lemma act_dead id (f : Page → Page) :
  (∀ p, timers (f p) = timers p ∧ next_timer (f p) = next_timer p) →
  preserves (dead_timer id) (act f).
Proof.
  intros Hf. apply preserves_act. intros p.
  destruct (Hf p). by apply dead_timer_frame.
Qed.

Lemma console_log_dead id w args : preserves (dead_timer id) (console_log w args).
Proof. apply console_log_keeps. intros p q. apply dead_timer_output. Qed.

Lemma on_message_dead w id origin data p :
  dead_timer id p → dead_timer id (on_message w origin data p).
Proof.
  intros H. unfold on_message. destruct (negb _).
  - by apply (dead_timer_frame id p).
  - apply preserves_uncaught; [|done].
    apply preserves_seq; [apply console_log_dead|].
    repeat apply preserves_if; try apply preserves_skip.
    + unfold handleIrcLogin.
      apply preserves_seq; [by apply act_dead|].
      apply preserves_seq; [apply console_log_dead|].
      apply preserves_act. intros q Hq. by apply add_timer_dead, add_timer_dead.
    + unfold handleThemeChange. apply preserves_seq; [by apply act_dead|].
      apply preserves_if; [apply console_log_dead|apply preserves_skip].
Qed.

Lemma fire_dead w id k p : dead_timer id p → dead_timer id (fire w k p).
Proof.
  intros H. unfold fire.
  destruct (find_timer k (timers p)) as [[nick password realname| |i|]|].
  - unfold uncaught.
    destruct (wait_for_form_cases k nick password realname p)
      as [->|(d & [->| ->])]; simpl; [done| |].
    + apply add_timer_dead.
      eapply dead_timer_frame; [| |apply (clear_timer_dead id k p H)]; done.
    + eapply dead_timer_frame; [| |apply (clear_timer_dead id k p H)]; done.
  - apply preserves_uncaught; [|done].
    apply preserves_seq.
    { apply preserves_act. intros q. apply clear_timer_dead. }
    apply preserves_seq; [apply console_log_dead|by apply act_dead].
  - by apply clear_timer_dead, clear_timer_dead.
  - eapply dead_timer_output; [apply notifyParent_output|].
    by apply clear_timer_dead.
  - done.
Qed.

Lemma step_dead w id e p : dead_timer id p → dead_timer id (step w p e).
Proof.
  intros H. destruct e as [|origin data|k| |args|d]; simpl.
  - unfold run_script. destruct (self_is_top w); [done|].
    apply preserves_uncaught; [|done].
    apply preserves_seq; [apply console_log_dead|].
    apply preserves_act. intros q Hq. apply add_timer_dead.
    destruct (loading _); by eapply dead_timer_frame; [| |exact Hq].
  - apply preserves_iter; auto using on_message_dead.
  - by apply fire_dead.
  - destruct (loading p); [|done]. apply preserves_iter; [|done].
    intros q Hq. by apply (dead_timer_frame id q).
  - by apply console_log_dead.
  - by apply (dead_timer_frame id p).
Qed.

Lemma run_dead w id events p : dead_timer id p → dead_timer id (run w p events).
Proof.
  revert p. induction events as [|e events IH]; intros p H; simpl; [done|].
  by apply IH, step_dead.
Qed.

Lemma fire_dead_timer w id p : dead_timer id p → fire w id p = p.
Proof. intros [_ Hnone]. unfold fire. by rewrite Hnone. Qed.

(** X6.  Once the ten-second timeout of a login has fired, the polling
    interval of that login is cleared for good: its id is never handed
    out again, and a tick of it changes nothing on the page, whatever
    happened before and whatever happens afterwards (the form appearing,
    further logins, other timers).  The timeout clears the interval only:
    a submit that the interval had scheduled before is a timer of its own
    and still fires. *)
Theorem stopped_polling_stays_stopped (w : Window) (d : Dom) (is_loading : bool)
    (before later : list event) (stop interval : nat) :
  let p := run w (fresh_page d is_loading) before in
  find_timer stop (timers p) = Some (StopWaiting interval) →
  let q := run w (fire w stop p) later in
  dead_timer interval q ∧ fire w interval q = q.
Proof.
  intros p Hfind q. subst q.
  assert (dead_timer interval (run w (fire w stop p) later)) as Hdead;
    [|split; [done|by apply fire_dead_timer]].
  apply run_dead.
  assert (timers_fresh p) as Hfresh
    by apply run_fresh, fresh_page_fresh.
  unfold fire. rewrite Hfind.
  split; [simpl|apply find_timer_cleared].
  apply find_timer_elem in Hfind.
  by destruct (proj1 (Forall_forall _ _) Hfresh _ Hfind) as [_ Hint].
Qed.

Lemma stopped_polling_stays_stopped_witness :
  let p := polling_page in
  let q := run embedded_window (fire embedded_window 3 p)
             [DomChanged connect_page; TimerFired 1] in
  let found := run embedded_window polling_page
                 [DomChanged connect_page; TimerFired 2] in
  fire embedded_window 2 q = q ∧ dom q = connect_page ∧ submits q = [] ∧
  length (submits (run embedded_window found [TimerFired 3; TimerFired 4])) = 1.
Proof.
  intros p q found.
  destruct (stopped_polling_stays_stopped embedded_window
    {| nickInput := None; passwordInput := None;
       realnameInput := None; connectForm := false |} false
    [ScriptLoaded; Message "https://curia.network" login_message]
    [DomChanged connect_page; TimerFired 1] 3 2 eq_refl) as [_ H].
  split; [exact H|]. by split_and!.
Defined.

(** *** A login from start to finish *)

Lemma to_string_element v s : to_string v = Some s → is_Some (element_string v).
Proof. intros H. destruct v; simpl; eauto. Qed.

Lemma console_log_line w (s : string) (v : value) p :
  is_Some (element_string v) →
  (console_log w [VStr s; v] p).1 = Returns ∧
  same_but_output (console_log w [VStr s; v] p).2 p.
Proof.
  intros [t Ht]. split; [|apply console_log_output].
  apply (console_log_returns w _ p (s +:+ " " +:+ t)).
  by apply join_two_strings.
Qed.

Lemma handleIrcLogin_fields w data p :
  is_Some (element_string (get data "nick")) →
  let q := (handleIrcLogin w data p).2 in
  dom q = dom p ∧ submits q = submits p ∧
  next_timer q = S (S (next_timer p)) ∧
  timers q
  = timers p ++
    [ (next_timer p,
       WaitForForm (get data "nick") (get data "password") (get data "realname"));
      (S (next_timer p), StopWaiting (next_timer p)) ].
Proof.
  intros Hnick. unfold handleIrcLogin, seq, act.
  set (p0 := set_calls (calls p ++ [HandleIrcLogin data]) p).
  destruct (console_log_line w "Attempting IRC login for user:"
              (get data "nick") p0 Hnick) as [Hret Hout].
  destruct (console_log w _ p0) as [c p1]. simpl in Hret, Hout. subst c.
  destruct Hout as (Hd & _ & _ & _ & _ & Ht & Hn & Hs & _).
  subst p0. simpl in *. rewrite Hd, Hs, Hn, Ht, <- app_assoc. done.
Qed.

Lemma fire_submit w id p :
  find_timer id (timers p) = Some SubmitForm →
  dom (fire w id p) = dom p ∧
  submits (fire w id p) = submits p ++ [dom p] ∧
  timers (fire w id p) = filter (fun t => t.1 ≠ id) (timers p) ∧
  next_timer (fire w id p) = next_timer p.
Proof.
  intros Hfind. unfold fire. rewrite Hfind. unfold uncaught, seq, act.
  pose proof (console_log_returns w [VStr "Submitting IRC connection form"]
                (clear_timer id p) _ eq_refl) as Hret.
  pose proof (console_log_output w [VStr "Submitting IRC connection form"]
                (clear_timer id p)) as Hout.
  destruct (console_log w _ (clear_timer id p)) as [c p1].
  simpl in Hret, Hout. subst c.
  destruct Hout as (Hd & _ & _ & _ & _ & Ht & Hn & Hs & _).
  simpl in *. by rewrite Hd, Hs, Ht, Hn.
Qed.

(** The interval callback on a page where the form is there and every
    value converts to a string. *)
Lemma wait_for_form_fills id (nickv passwordv realnamev : value) p
    (old_nick old_password nick password realname : string) :
  nickInput (dom p) = Some old_nick →
  passwordInput (dom p) = Some old_password →
  connectForm (dom p) = true →
  to_string nickv = Some nick → to_string passwordv = Some password →
  to_string realnamev = Some realname →
  ∃ filled,
    wait_for_form id nickv passwordv realnamev p
    = (Returns, add_timer SubmitForm (set_dom filled (clear_timer id p))) ∧
    nickInput filled
    = Some (if truthy nickv then JsString.strip_newlines nick else old_nick) ∧
    passwordInput filled
    = Some (if truthy passwordv
            then JsString.strip_newlines password else old_password) ∧
    realnameInput filled
    = (fun old => if truthy realnamev
                  then JsString.strip_newlines realname else old)
        <$> realnameInput (dom p) ∧
    connectForm filled = true.
Proof.
  intros Hnick Hpw Hform Hn Hp Hr. unfold wait_for_form.
  destruct p as [[n pw r f] ? ? ? ? ? ? ? ? ? ?]. simpl in *. subst n pw f.
  unfold seq, act, set_value, skip. rewrite Hn, Hp, Hr.
  destruct (truthy nickv), (truthy passwordv), (truthy realnamev),
    r as [old_realname|]; simpl;
    (eexists; split; [reflexivity|by split_and!]).
Qed.

(** X7.  A login from start to finish.  On a page with one listener whose
    connect form is rendered, an 'irc-login' message from an allowed
    origin whose data, nick, password and real name convert to strings,
    the first tick of its polling interval and the delayed submit leave
    the form filled and submitted once: the nick and password fields take
    the string form of the message's [nick] and [password], without line
    breaks, where these are truthy, and keep their value otherwise; the
    realname field likewise when it exists; and the interval is gone. *)
Theorem login_fills_and_submits (w : Window) (origin : string) (data : value)
    (p : Page) (old_nick old_password nick password realname : string) :
  origin_allowed origin = true → is_irc_login data = true →
  message_listeners p = 1 → timers_fresh p →
  nickInput (dom p) = Some old_nick →
  passwordInput (dom p) = Some old_password →
  connectForm (dom p) = true →
  is_Some (to_string data) →
  to_string (get data "nick") = Some nick →
  to_string (get data "password") = Some password →
  to_string (get data "realname") = Some realname →
  let i := next_timer p in
  let q := run w p [Message origin data; TimerFired i; TimerFired (S (S i))] in
  nickInput (dom q)
  = Some (if truthy (get data "nick")
          then JsString.strip_newlines nick else old_nick) ∧
  passwordInput (dom q)
  = Some (if truthy (get data "password")
          then JsString.strip_newlines password else old_password) ∧
  realnameInput (dom q)
  = (fun old => if truthy (get data "realname")
                then JsString.strip_newlines realname else old)
      <$> realnameInput (dom p) ∧
  connectForm (dom q) = true ∧
  submits q = submits p ++ [dom q] ∧
  dead_timer i q.
Proof.
  intros Hallow Hlogin Hone Hfresh Hnick Hpw Hform [text Hdata] Hn Hp Hr i q.
  subst q. unfold is_irc_login in Hlogin. apply timers_fresh_ids in Hfresh.
  change (run w p [Message origin data; TimerFired i; TimerFired (S (S i))])
    with (fire w (S (S i)) (fire w i (step w p (Message origin data)))).
  (* the listener logs the message and enters handleIrcLogin *)
  destruct (console_log_line w "Received message from parent:" data p
              (to_string_element _ _ Hdata)) as [Hret0 Hout0].
  assert (step w p (Message origin data)
          = (handleIrcLogin w data
               (console_log w [VStr "Received message from parent:"; data] p).2).2)
    as ->.
  { simpl. rewrite Hone. simpl. unfold on_message, uncaught, seq.
    rewrite Hallow, Hlogin. simpl.
    destruct (console_log w _ p) as [c p0]. simpl in Hret0. by subst c. }
  set (p0 := (console_log w _ p).2) in *. clearbody p0.
  destruct Hout0 as (Hd0 & _ & _ & _ & _ & Ht0 & Hn0 & Hs0 & _).
  destruct (handleIrcLogin_fields w data p0 (to_string_element _ _ Hn))
    as (Hd1 & Hs1 & Hn1 & Ht1).
  set (q1 := (handleIrcLogin w data p0).2) in *. clearbody q1.
  rewrite Hd0 in Hd1. rewrite Hs0 in Hs1. rewrite Hn0 in Hn1, Ht1.
  rewrite Ht0 in Ht1. fold i in Hn1, Ht1.
  (* the interval fires and finds the form *)
  assert (find_timer i (timers q1)
          = Some (WaitForForm (get data "nick") (get data "password")
                    (get data "realname"))) as Hfind1.
  { rewrite Ht1, find_timer_app, (find_timer_beyond i i) by (done || lia).
    simpl. by rewrite Nat.eqb_refl. }
  assert (find_timer (S (S i)) (timers q1) = None) as Hnone1.
  { apply (find_timer_beyond _ (S (S i))); [|lia]. rewrite Ht1.
    apply Forall_app. split.
    - eapply Forall_impl; [exact Hfresh|]. intros t Ht. simpl in Ht. lia.
    - repeat constructor; simpl; lia. }
  destruct (wait_for_form_fills i (get data "nick") (get data "password")
              (get data "realname") q1 old_nick old_password nick password
              realname) as (filled & Hfill & Hfn & Hfp & Hfr & Hfc);
    try done; try (by rewrite Hd1).
  rewrite Hd1 in Hfr.
  assert (fire w i q1 = add_timer SubmitForm (set_dom filled (clear_timer i q1)))
    as -> by (unfold fire, uncaught; by rewrite Hfind1, Hfill).
  set (q2 := add_timer SubmitForm (set_dom filled (clear_timer i q1))).
  assert (dom q2 = filled) as Hd2 by done.
  assert (submits q2 = submits p) as Hs2 by (by rewrite <- Hs1).
  assert (next_timer q2 = S (S (S i))) as Hn2 by (simpl; by rewrite Hn1).
  assert (timers q2
          = filter (fun t => t.1 ≠ i) (timers q1) ++ [(S (S i), SubmitForm)])
    as Ht2 by (simpl; by rewrite Hn1).
  clearbody q2.
  (* the delayed submit fires *)
  assert (find_timer (S (S i)) (timers q2) = Some SubmitForm) as Hfind2.
  { rewrite Ht2, find_timer_app, (find_timer_clear_none _ _ _ Hnone1).
    simpl. by rewrite Nat.eqb_refl. }
  destruct (fire_submit w (S (S i)) q2 Hfind2) as (Hd3 & Hs3 & Ht3 & Hn3).
  set (q3 := fire w (S (S i)) q2) in *. clearbody q3.
  rewrite Hd3, Hd2, Hs3, Hs2, Hd2.
  split_and!; try done.
  split; [lia|]. rewrite Ht3. apply find_timer_clear_none.
  rewrite Ht2, find_timer_app, find_timer_cleared.
  change (find_timer i [(S (S i), SubmitForm)])
    with (if Nat.eqb (S (S i)) i then Some SubmitForm else None).
  by rewrite (proj2 (Nat.eqb_neq (S (S i)) i)) by lia.
Qed.

Lemma login_fills_and_submits_witness :
  let p := run embedded_window (fresh_page connect_page false) [ScriptLoaded] in
  let data := VObj [("type", VStr "irc-login");
                    ("nick", VStr (String "a" (String "010" "lice")));
                    ("password", VStr "")] in
  let q := run embedded_window p
             [Message "https://curia.network" data; TimerFired 2; TimerFired 4] in
  submits q = [ {| nickInput := Some "alice"; passwordInput := Some "";
                    realnameInput := Some ""; connectForm := true |} ] ∧
  find_timer 2 (timers q) = None.
Proof.
  intros p data q.
  destruct (login_fills_and_submits embedded_window "https://curia.network"
              data p "" "" (String "a" (String "010" "lice")) "" "undefined"
              eq_refl eq_refl eq_refl)
    as (_ & _ & _ & _ & Hs & Hdead).
  - unfold timers_fresh. simpl. repeat constructor.
  - reflexivity.
  - reflexivity.
  - reflexivity.
  - by eexists.
  - reflexivity.
  - reflexivity.
  - reflexivity.
  - split; [exact Hs|apply Hdead].
Defined.

(** A login whose nick cannot be converted to a string, on a page where
    [console.log] is wrapped: the handler stops at its log line and sets
    no timer, so the form is never filled.  Without the wrapper the
    interval clears itself, stops at the assignment of the nick, and the
    form is not submitted. *)
Example login_with_odd_nick :
  let data := VObj [("type", VStr "irc-login");
                    ("nick", VObj [("toString", VNull)]);
                    ("password", VStr "hunter2")] in
  let wrapped := run embedded_window (fresh_page connect_page false) [ScriptLoaded] in
  let plain := set_message_listeners 1 (fresh_page connect_page false) in
  let q := run embedded_window wrapped [Message "https://curia.network" data] in
  let r := run embedded_window plain
             [Message "https://curia.network" data; TimerFired 1] in
  timers q = timers wrapped ∧ calls q = [HandleIrcLogin data] ∧
  dom r = connect_page ∧ find_timer 1 (timers r) = None ∧
  timers r = [(2, StopWaiting 1)] ∧ submits r = [].
Proof. by vm_compute. Qed.

End IframeMoreFacts.

(** ** The deep-link builders, continued *)

Module RedirectMoreFacts.
Import JsString JsStringFacts Redirect RedirectFacts RedirectMore.

Lemma set_param_named name value q :
  named name (set_param name value q) = [(name, value)].
Proof.
  unfold named. induction q as [|[k v] q IH]; simpl.
  - by rewrite filter_cons, decide_True.
  - destruct (String.eqb_spec k name) as [->|Hne].
    + rewrite filter_cons, decide_True by done. f_equal.
      clear IH. induction q as [|[k' v'] q IH]; [done|].
      rewrite (filter_cons (fun kv : string * string => kv.1 ≠ name)). simpl.
      destruct (decide (k' ≠ name)) as [Hk|Hk]; [|done].
      by rewrite filter_cons, decide_False.
    + by rewrite filter_cons, decide_False.
Qed.

Lemma set_param_named_other name value k q :
  k ≠ name → named k (set_param name value q) = named k q.
Proof.
  intros Hne. unfold named. induction q as [|[k' v'] q IH]; simpl.
  - by rewrite filter_cons, decide_False.
  - destruct (String.eqb_spec k' name) as [->|Hk'].
    + rewrite !filter_cons. simpl. rewrite !decide_False by done.
      clear IH. induction q as [|[k'' v''] q IH]; [done|].
      rewrite (filter_cons (fun kv : string * string => kv.1 ≠ name)). simpl.
      destruct (decide (k'' ≠ name)) as [Hk|Hk].
      * rewrite !filter_cons. simpl. by rewrite IH.
      * rewrite (filter_cons _ (k'', v'')). simpl.
        rewrite decide_False; [done|]. intros ->. by apply Hk.
    + rewrite !filter_cons. simpl. by rewrite IH.
Qed.

Lemma buildChatUrl_query baseUrl params :
  buildChatUrl baseUrl params
  = href {| before_query := before_query baseUrl;
            searchParams := chat_query baseUrl params;
            fragment := fragment baseUrl |}.
Proof. reflexivity. Qed.

Ltac named_chain :=
  repeat first
    [ apply set_param_named
    | rewrite set_param_named_other by (intros ?; discriminate) ].

(** X8.  Whatever parameters the base URL carries, also twice under one
    name, the query of the URL that [buildChatUrl] returns holds each of
    [autologin], [user], [al-password], [autoconnect], [nick], [username],
    [realname], [nofocus] and [lockchannel] exactly once, with the value
    the builder gave it; [join] exactly once when channels are given, and
    as the base URL had it when none are; and parameters under other
    names as the base URL had them. *)
Theorem buildChatUrl_sets_each_parameter_once (baseUrl : Url) (params : ChatParams) :
  let q := chat_query baseUrl params in
  buildChatUrl baseUrl params
  = href {| before_query := before_query baseUrl; searchParams := q;
            fragment := fragment baseUrl |} ∧
  named "autologin" q = [("autologin", "")] ∧
  named "user" q = [("user", username params)] ∧
  named "al-password" q = [("al-password", password params)] ∧
  named "autoconnect" q = [("autoconnect", "")] ∧
  named "nick" q = [("nick", nick params)] ∧
  named "username" q = [("username", username params)] ∧
  named "realname" q = [("realname", realname params)] ∧
  named "nofocus" q = [("nofocus", "")] ∧
  named "lockchannel" q = [("lockchannel", "")] ∧
  named "join" q
  = (if (0 <? length (channels params))%nat
     then [("join", join "," (channels params))]
     else named "join" (searchParams baseUrl)) ∧
  ∀ name, name ∉ "join" :: fixed_names →
    named name q = named name (searchParams baseUrl).
Proof.
  intros q. subst q. unfold chat_query.
  split; [reflexivity|].
  destruct (0 <? length (channels params))%nat;
    (split_and!; [named_chain; try reflexivity ..|]).
  - intros name Hname. unfold fixed_names in Hname.
    repeat (rewrite set_param_named_other;
            [|intros ->; apply Hname;
              repeat first [apply list_elem_of_here|apply list_elem_of_further]]).
    done.
  - intros name Hname. unfold fixed_names in Hname.
    repeat (rewrite set_param_named_other;
            [|intros ->; apply Hname;
              repeat first [apply list_elem_of_here|apply list_elem_of_further]]).
    done.
Qed.

Lemma buildChatUrl_sets_each_parameter_once_witness :
  named "user" (chat_query busy_base alice) = [("user", "alice_42")] ∧
  named "join" (chat_query busy_base alice) = [("join", "general")] ∧
  named "theme" (chat_query busy_base alice) = [("theme", "dark")].
Proof.
  destruct (buildChatUrl_sets_each_parameter_once busy_base alice)
    as (_ & _ & Hu & _ & _ & _ & _ & _ & _ & _ & Hj & Hother).
  split; [exact Hu|]. split; [exact Hj|].
  rewrite (Hother "theme"); [reflexivity|].
  unfold fixed_names. intros Hin.
  repeat (apply elem_of_cons in Hin as [Heq|Hin]; [discriminate Heq|]).
  by apply elem_of_nil in Hin.
Defined.

(** *** Characters of the query string *)

Lemma to_list_app (a b : string) : to_list (a +:+ b) = to_list a ++ to_list b.
Proof.
  induction a as [|x a IH]; [done|]. rewrite append_cons. simpl. by rewrite IH.
Qed.

Lemma all_chars_app f a b :
  all_chars f (a +:+ b) = all_chars f a && all_chars f b.
Proof. unfold all_chars. by rewrite to_list_app, forallb_app. Qed.

Lemma count_char_app c a b :
  count_char c (a +:+ b) = count_char c a + count_char c b.
Proof. unfold count_char. by rewrite to_list_app, filter_app, length_app. Qed.

Lemma count_char_cons c x s :
  count_char c (String x s) = (if decide (x = c) then 1 else 0) + count_char c s.
Proof.
  unfold count_char. simpl. rewrite filter_cons. by destruct (decide (x = c)).
Qed.

Lemma count_char_absent f c s :
  f c = false → all_chars f s = true → count_char c s = 0.
Proof.
  intros Hc. unfold all_chars. induction s as [|x s IH]; [done|]. simpl.
  intros [Hx Hs]%andb_true_iff. rewrite count_char_cons, (IH Hs).
  destruct (decide (x = c)) as [->|_]; [congruence|done].
Qed.

Lemma hex_digit_safe n : url_safe (hex_digit n) = true.
Proof. do 15 (destruct n as [|n]; [reflexivity|]). reflexivity. Qed.

Lemma encode_byte_safe c : all_chars url_safe (encode_byte c) = true.
Proof.
  unfold encode_byte. destruct (Ascii.eqb c " "); [reflexivity|].
  fold (unreserved c). destruct (unreserved c) eqn:E.
  - unfold all_chars, url_safe. simpl. by rewrite E.
  - unfold all_chars. simpl. by rewrite !hex_digit_safe.
Qed.

Lemma encode_safe s : all_chars url_safe (encode s) = true.
Proof.
  induction s as [|c s IH]; [done|]. simpl.
  by rewrite all_chars_app, encode_byte_safe, IH.
Qed.

Lemma encode_count c s : url_safe c = false → count_char c (encode s) = 0.
Proof. intros Hc. apply (count_char_absent url_safe); [done|apply encode_safe]. Qed.

Lemma encode_pair_count c kv :
  url_safe c = false →
  count_char c (encode_pair kv) = if decide (c = "="%char) then 1 else 0.
Proof.
  intros Hc. unfold encode_pair.
  rewrite !count_char_app, !encode_count by done.
  change "=" with (String "="%char "") at 1. rewrite count_char_cons.
  destruct (decide ("="%char = c)) as [<-|Hne].
  - by rewrite decide_True.
  - rewrite decide_False by congruence. done.
Qed.

Lemma join_cons2 sep x y l : join sep (x :: y :: l) = x +:+ sep +:+ join sep (y :: l).
Proof. reflexivity. Qed.

Lemma serialize_count c q :
  url_safe c = false →
  count_char c (serialize q)
  = (if decide (c = "="%char) then length q else 0)
    + (if decide (c = "&"%char) then length q - 1 else 0).
Proof.
  intros Hc. unfold serialize.
  induction q as [|kv q IH]; [by repeat case_decide|].
  destruct q as [|kv' q].
  - simpl. rewrite encode_pair_count by done. repeat case_decide; lia.
  - change (map encode_pair (kv :: kv' :: q))
      with (encode_pair kv :: encode_pair kv' :: map encode_pair q).
    rewrite join_cons2, !count_char_app, encode_pair_count by done.
    change (map encode_pair (kv' :: q))
      with (encode_pair kv' :: map encode_pair q) in IH.
    rewrite IH. change "&" with (String "&"%char "") at 1.
    rewrite count_char_cons. simpl length.
    change (count_char c "") with 0.
    repeat case_decide; subst; simpl; try done; try lia.
Qed.

(** X9.  No input value can add, split or end a parameter: in the query
    string that [buildChatUrl] writes, whatever the user name, password,
    nick, real name, channels and the base URL's own parameters contain,
    ['='] occurs once per parameter and ['&'] once between two
    parameters, and ['#'], ['?'], [','], ['/'] and the space do not occur
    at all. *)
Theorem buildChatUrl_query_is_well_delimited (baseUrl : Url) (params : ChatParams) :
  let q := chat_query baseUrl params in
  buildChatUrl baseUrl params
  = before_query baseUrl +:+ ("?" +:+ serialize q) +:+ fragment baseUrl ∧
  count_char "=" (serialize q) = length q ∧
  count_char "&" (serialize q) = length q - 1 ∧
  count_char "#" (serialize q) = 0 ∧ count_char "?" (serialize q) = 0 ∧
  count_char "," (serialize q) = 0 ∧ count_char "/" (serialize q) = 0 ∧
  count_char " " (serialize q) = 0.
Proof.
  intros q. split.
  - rewrite buildChatUrl_query. unfold href. simpl. fold q.
    assert (∃ kv rest, q = kv :: rest) as (kv & rest & ->); [|done].
    subst q. unfold chat_query.
    destruct (set_param "nofocus" "" _) as [|[k v] rest'];
      simpl; [eauto|]. destruct (String.eqb k "lockchannel"); eauto.
  - split_and!; by rewrite serialize_count by reflexivity.
Qed.

(** *** The URL determines the inputs *)

Lemma count_char_nonempty c s : 0 < count_char c s → s ≠ "".
Proof. intros H ->. unfold count_char in H. simpl in H. lia. Qed.

Lemma split_at_separator c a a' r r' :
  count_char c a = 0 → count_char c a' = 0 →
  a +:+ String c r = a' +:+ String c r' → a = a' ∧ r = r'.
Proof.
  revert a'. induction a as [|x a IH]; intros [|y a'] Ha Ha'.
  - rewrite !append_empty_l. by intros [= ->].
  - rewrite append_empty_l, append_cons. intros [= <- _].
    rewrite count_char_cons, decide_True in Ha' by done. lia.
  - rewrite append_empty_l, append_cons. intros [= -> _].
    rewrite count_char_cons, decide_True in Ha by done. lia.
  - rewrite !append_cons. intros [= -> Heq].
    rewrite count_char_cons in Ha, Ha'.
    destruct (IH a') as [-> ->]; [lia|lia|done|done].
Qed.

Lemma no_separator_inside c a a' r' :
  count_char c a = 0 → a ≠ a' +:+ String c r'.
Proof.
  intros Ha ->. rewrite count_char_app, count_char_cons, decide_True in Ha by done.
  lia.
Qed.

Lemma join_cons2_separator c x y l :
  join (String c "") (x :: y :: l) = x +:+ String c (join (String c "") (y :: l)).
Proof. reflexivity. Qed.

Lemma join_separator_inj c l l' :
  Forall (fun x => count_char c x = 0 ∧ x ≠ "") l →
  Forall (fun x => count_char c x = 0 ∧ x ≠ "") l' →
  join (String c "") l = join (String c "") l' → l = l'.
Proof.
  intros Hl. revert l'. induction Hl as [|x l [Hx Hx'] Hl IH]; intros l' Hl' Heq.
  - destruct Hl' as [|y l' [Hy Hy'] Hl']; [done|].
    destruct l' as [|z l'].
    + simpl in Heq. congruence.
    + rewrite join_cons2_separator in Heq.
      by apply (no_separator_inside c "") in Heq.
  - destruct Hl' as [|y l' [Hy Hy'] Hl'].
    + destruct l as [|z l].
      * simpl in Heq. congruence.
      * rewrite join_cons2_separator in Heq. symmetry in Heq.
        by apply (no_separator_inside c "") in Heq.
    + destruct l as [|z l], l' as [|z' l'].
      * simpl in Heq. by subst.
      * rewrite join_cons2_separator in Heq.
        change (join (String c "") [x]) with x in Heq.
        by apply no_separator_inside in Heq.
      * rewrite join_cons2_separator in Heq.
        change (join (String c "") [y]) with y in Heq. symmetry in Heq.
        by apply no_separator_inside in Heq.
      * rewrite !join_cons2_separator in Heq.
        apply split_at_separator in Heq as [-> Heq]; [|done|done].
        f_equal. by apply IH.
Qed.

Lemma hex_digit_inj n m :
  n < 16 → m < 16 → hex_digit n = hex_digit m → n = m.
Proof.
  intros Hn Hm.
  do 16 (destruct n as [|n]; [do 16 (destruct m as [|m]; [done|]); lia|]).
  lia.
Qed.

Lemma encode_byte_inj c d rest rest' :
  encode_byte c +:+ rest = encode_byte d +:+ rest' → c = d ∧ rest = rest'.
Proof.
  unfold encode_byte.
  destruct (Ascii.eqb_spec c " ") as [->|Hc];
    destruct (Ascii.eqb_spec d " ") as [->|Hd].
  - rewrite !append_cons, !append_empty_l. by intros [= ->].
  - fold (unreserved d). destruct (unreserved d) eqn:E;
      rewrite !append_cons, !append_empty_l; intros [= <- ?]; done.
  - fold (unreserved c). destruct (unreserved c) eqn:E;
      rewrite !append_cons, !append_empty_l; intros [= -> ?]; done.
  - fold (unreserved c) (unreserved d).
    pose proof (nat_ascii_bounded c) as Hbc.
    pose proof (nat_ascii_bounded d) as Hbd.
    pose proof (Nat.div_mod_eq (nat_of_ascii c) 16) as Hcdm.
    pose proof (Nat.div_mod_eq (nat_of_ascii d) 16) as Hddm.
    assert (nat_of_ascii c / 16 < 16) as Hc1
      by (apply Nat.Div0.div_lt_upper_bound; lia).
    assert (nat_of_ascii d / 16 < 16) as Hd1
      by (apply Nat.Div0.div_lt_upper_bound; lia).
    pose proof (Nat.mod_upper_bound (nat_of_ascii c) 16) as Hc2.
    pose proof (Nat.mod_upper_bound (nat_of_ascii d) 16) as Hd2.
    set (hc := nat_of_ascii c / 16) in *.
    set (lc := nat_of_ascii c `mod` 16) in *.
    set (hd := nat_of_ascii d / 16) in *.
    set (ld := nat_of_ascii d `mod` 16) in *.
    clearbody hc lc hd ld.
    destruct (unreserved c) eqn:Ec, (unreserved d) eqn:Ed;
      rewrite !append_cons, !append_empty_l.
    + by intros [= -> ->].
    + intros [= -> _]. done.
    + intros [= <- _]. done.
    + intros [= Hhi Hlo ->]. split; [|done].
      apply hex_digit_inj in Hhi; [|lia ..].
      apply hex_digit_inj in Hlo; [|lia ..].
      rewrite <- (ascii_nat_embedding c), <- (ascii_nat_embedding d).
      f_equal. lia.
Qed.

Lemma encode_inj s t : encode s = encode t → s = t.
Proof.
  revert t. induction s as [|c s IH]; intros [|d t]; simpl.
  - done.
  - unfold encode_byte.
    repeat match goal with |- context [if ?b then _ else _] => destruct b end;
      by rewrite ?append_cons.
  - unfold encode_byte.
    repeat match goal with |- context [if ?b then _ else _] => destruct b end;
      by rewrite ?append_cons.
  - intros [-> Heq]%encode_byte_inj. f_equal. by apply IH.
Qed.

Lemma encode_pair_inj kv kv' : encode_pair kv = encode_pair kv' → kv = kv'.
Proof.
  destruct kv as [k v], kv' as [k' v']. unfold encode_pair. simpl.
  intros Heq. rewrite !append_cons, !append_empty_l in Heq.
  apply split_at_separator in Heq as [Hk Hv]; [|by apply encode_count ..].
  apply encode_inj in Hk, Hv. congruence.
Qed.

Lemma serialize_inj q q' : serialize q = serialize q' → q = q'.
Proof.
  unfold serialize. intros Heq.
  assert (∀ l, Forall (fun x => count_char "&" x = 0 ∧ x ≠ "")
                 (map encode_pair l)) as Hok.
  { intros l. apply Forall_forall. intros x Hx.
    apply list_elem_of_fmap in Hx as (kv & -> & _). split.
    - rewrite encode_pair_count by done. by rewrite decide_False.
    - apply (count_char_nonempty "="). rewrite encode_pair_count by done.
      rewrite decide_True by done. lia. }
  apply (join_separator_inj "&" _ _ (Hok q) (Hok q')) in Heq.
  revert q' Heq. induction q as [|kv q IH]; intros [|kv' q']; simpl; try done.
  intros [= Hkv Hrest]. apply encode_pair_inj in Hkv as ->. f_equal. by apply IH.
Qed.

Lemma append_inj_r (a b c : string) : a +:+ c = b +:+ c → a = b.
Proof.
  revert b. induction a as [|x a IH]; intros [|y b].
  - done.
  - intros Heq. apply (f_equal String.length) in Heq.
    rewrite append_empty_l, string_length_app in Heq. simpl in Heq. lia.
  - intros Heq. apply (f_equal String.length) in Heq.
    rewrite append_empty_l, string_length_app in Heq. simpl in Heq. lia.
  - rewrite !append_cons. intros [= -> Heq]. f_equal. by apply IH.
Qed.

Lemma chat_query_plain baseUrl params :
  searchParams baseUrl = [] →
  chat_query baseUrl params
  = [ ("autologin", ""); ("user", username params);
      ("al-password", password params); ("autoconnect", "");
      ("nick", nick params); ("username", username params);
      ("realname", realname params) ]
    ++ (if (0 <? length (channels params))%nat
        then [("join", join "," (channels params))] else [])
    ++ [ ("nofocus", ""); ("lockchannel", "") ].
Proof.
  intros Hq. unfold chat_query. rewrite Hq.
  by destruct (0 <? length (channels params))%nat.
Qed.

(** X10.  The URL determines what went into it: on a base URL without a
    query, two calls of [buildChatUrl] that return the same URL were
    given the same user name, password, nick and real name, and the same
    comma-joined channel list, so distinct credentials never share a
    deep link. *)
Theorem buildChatUrl_determines_inputs (baseUrl : Url) (p1 p2 : ChatParams) :
  searchParams baseUrl = [] →
  buildChatUrl baseUrl p1 = buildChatUrl baseUrl p2 →
  username p1 = username p2 ∧ password p1 = password p2 ∧
  nick p1 = nick p2 ∧ realname p1 = realname p2 ∧
  join "," (channels p1) = join "," (channels p2).
Proof.
  intros Hq Heq. rewrite !buildChatUrl_query in Heq. unfold href in Heq.
  cbn [before_query searchParams fragment] in Heq.
  rewrite !(chat_query_plain _ _ Hq) in Heq.
  destruct (channels p1) as [|c1 cs1], (channels p2) as [|c2 cs2];
    cbn [app length Nat.ltb Nat.leb] in Heq;
    apply BcryptFacts.append_inj_l, append_inj_r,
      BcryptFacts.append_inj_l, serialize_inj in Heq;
    simplify_eq; by split_and!.
Qed.

Lemma buildChatUrl_determines_inputs_witness :
  buildChatUrl lounge_base two_channels
  = buildChatUrl lounge_base channel_with_comma ∧
  join "," (channels two_channels) = join "," (channels channel_with_comma).
Proof.
  split; [reflexivity|].
  apply (buildChatUrl_determines_inputs lounge_base two_channels
           channel_with_comma eq_refl eq_refl).
Defined.

(** *** Channel names *)

Lemma channel_piece_safe c rest :
  all_chars is_channel_char (channel_piece c rest) = true.
Proof.
  unfold channel_piece.
  repeat match goal with |- context [if ?b then _ else _] => destruct b eqn:? end;
    try reflexivity.
  - unfold all_chars, is_channel_char. simpl.
    match goal with H : _ || _ = true |- _ => by rewrite H end.
Qed.

Lemma channel_piece_ascii c rest :
  is_ascii c = true → String.length (channel_piece c rest) = 1.
Proof. unfold channel_piece, is_ascii. by intros ->. Qed.

(** X11.  The channel that [buildLoungeUrl] joins consists of lower-case
    letters, digits and hyphens only, whatever the community id holds, so
    a community id cannot smuggle a separator or a second parameter into
    the link; and for a community id of ASCII characters it is as long
    as the id. *)
Theorem channel_name_is_safe (communityId : string) :
  all_chars is_channel_char (channel_name communityId) = true ∧
  (all_chars is_ascii communityId = true →
   String.length (channel_name communityId) = String.length communityId).
Proof.
  induction communityId as [|c rest [IH1 IH2]]; [done|]. simpl. split.
  - by rewrite all_chars_app, channel_piece_safe, IH1.
  - unfold all_chars. simpl. intros [Hc Hrest]%andb_true_iff.
    rewrite string_length_app, (channel_piece_ascii _ _ Hc). f_equal.
    by apply IH2.
Qed.

Lemma channel_name_is_safe_witness :
  channel_name "My Community #1&join=x" = "my-community--1-join-x" ∧
  String.length (channel_name "My Community #1&join=x") = 22.
Proof.
  destruct (channel_name_is_safe "My Community #1&join=x") as [_ Hlen].
  split; [reflexivity|]. by apply Hlen.
Defined.

(** Characters outside ASCII: U+0130 gives "i-", the Kelvin sign "k",
    U+00E9 one hyphen and U+1F600 two. *)
Example channel_name_beyond_ascii :
  channel_name (String "196" (String "176" "")) = "i-" ∧
  channel_name (String "226" (String "132" (String "170" ""))) = "k" ∧
  channel_name (String "195" (String "169" "")) = "-" ∧
  channel_name (String "240" (String "159" (String "152" (String "128" ""))))
  = "--".
Proof. by vm_compute. Qed.

End RedirectMoreFacts.

(** ** The provisioning endpoint, continued *)

Module ProvisionMoreFacts.
Import JsString JsStringFacts Bcryptjs BcryptFacts Soju SojuFacts.
Import Provision ProvisionFacts ProvisionMore RedirectMore RedirectMoreFacts.

(** *** Usernames *)

Lemma slice_to_length n s :
  String.length (slice_to n s) = min n (String.length s).
Proof.
  unfold slice_to. by rewrite of_list_length, length_take, to_list_length.
Qed.

Lemma slice_last_length n s :
  String.length (slice_last n s) = min n (String.length s).
Proof.
  unfold slice_last. rewrite of_list_length, length_drop, to_list_length. lia.
Qed.

Lemma generateIrcUsername_clean name userId :
  generateIrcUsername name userId
  = slice_to 32 (clean_name name +:+ "_" +:+ slice_last 4 userId).
Proof. reflexivity. Qed.

(** X12.  The derived username is the cleaned name, an underscore and
    the last four characters of the user id, cut to 32 characters: its
    length is the smaller of 32 and the length of those three parts, so
    it never exceeds the IRC username limit. *)
Theorem generateIrcUsername_length (name userId : string) :
  String.length (generateIrcUsername name userId)
  = min 32 (String.length (clean_name name) + 1 + min 4 (String.length userId)) ∧
  String.length (generateIrcUsername name userId) ≤ 32.
Proof.
  rewrite generateIrcUsername_clean, slice_to_length, !string_length_app,
    slice_last_length.
  change (String.length "_") with 1. split; lia.
Qed.

(** X13.  A name with 32 or more letters and digits uses up the whole
    username: the suffix from the user id is cut off, and the username no
    longer depends on the user id at all, so two users with such a name
    get the same username. *)
Theorem long_name_drops_user_suffix (name userId : string) :
  32 ≤ String.length (clean_name name) →
  generateIrcUsername name userId = slice_to 32 (clean_name name).
Proof.
  intros Hlen. rewrite generateIrcUsername_clean. unfold slice_to.
  rewrite to_list_app, take_app_le; [done|]. by rewrite to_list_length.
Qed.

Lemma long_name_drops_user_suffix_witness :
  generateIrcUsername long_name "cg-user-1234"
  = "bartholomewmaximilianfeatherston" ∧
  generateIrcUsername long_name "cg-user-9999"
  = generateIrcUsername long_name "cg-user-1234".
Proof.
  assert (32 ≤ String.length (clean_name long_name)) as Hlen
    by (vm_compute; lia).
  rewrite (long_name_drops_user_suffix long_name "cg-user-9999" Hlen).
  rewrite (long_name_drops_user_suffix long_name "cg-user-1234" Hlen).
  by split.
Defined.

(** *** Passwords *)

Lemma digit36_base36 n : is_base36 (digit36 n) = true.
Proof.
  unfold digit36. pose proof (Nat.mod_upper_bound n 36) as Hlt.
  generalize dependent (n `mod` 36). intros k Hk.
  do 36 (destruct k as [|k]; [reflexivity|]). lia.
Qed.

Lemma digit36_encode n :
  Redirect.encode_byte (digit36 n) = String (digit36 n) "".
Proof.
  unfold digit36. pose proof (Nat.mod_upper_bound n 36) as Hlt.
  generalize dependent (n `mod` 36). intros k Hk.
  do 36 (destruct k as [|k]; [reflexivity|]). lia.
Qed.

Lemma random_base36_base36 digits :
  all_chars is_base36 (random_base36 digits) = true.
Proof.
  unfold random_base36, all_chars. rewrite to_list_of_list.
  apply forallb_forall. intros c Hin. apply in_map_iff in Hin as (n & <- & _).
  apply digit36_base36.
Qed.

Lemma random_base36_encode digits :
  Redirect.encode (random_base36 digits) = random_base36 digits.
Proof.
  unfold random_base36. induction digits as [|n digits IH]; [done|]. simpl.
  by rewrite digit36_encode, IH.
Qed.

Lemma encode_app a b :
  Redirect.encode (a +:+ b) = Redirect.encode a +:+ Redirect.encode b.
Proof.
  induction a as [|x a IH]; [done|]. rewrite append_cons. simpl.
  by rewrite IH, append_assoc.
Qed.

(** X14.  A generated password has one character per random base-36
    digit drawn, all of them digits or lower-case letters, so it goes
    into a URL query unchanged by the encoding; it is as long as the
    two draws together, not of a fixed length, and empty when both draws
    are. *)
Theorem generateSecurePassword_is_base36 (e : Entropy) :
  String.length (generateSecurePassword e)
  = length (random1 e) + length (random2 e) ∧
  all_chars is_base36 (generateSecurePassword e) = true ∧
  Redirect.encode (generateSecurePassword e) = generateSecurePassword e.
Proof.
  unfold generateSecurePassword. split_and!.
  - unfold random_base36.
    by rewrite string_length_app, !of_list_length, !length_map.
  - by rewrite all_chars_app, !random_base36_base36.
  - by rewrite encode_app, !random_base36_encode.
Qed.

(** *** Calls that fail *)

(** What a call leaves of the User table, for any request: the table as
    it was, or the table with the caller's row written. *)
Lemma handler_users `{Bcrypt} (e : Entropy) (req : Request) (db : Db) :
  let result := provisionIrcUserHandler e req db in
  (status result.1 ≠ 200 ∧ status result.1 ≠ 500 ∧ result.2 = db) ∨
  (status result.1 = 500 ∧ networks result.2 = networks db ∧
   users result.2 = users db ∧
   next_user_id db ≤ next_user_id result.2 ≤ S (next_user_id db)) ∨
  (∃ u,
     user req = Some u ∧
     (status result.1 = 200 ∨ status result.1 = 500) ∧
     (status result.1 ≠ 200 → networks result.2 = networks db) ∧
     users result.2
     = upserted_users (username_of u)
         (hashIrcPassword e (generateSecurePassword e))
         (kept (nickname_of u)) (kept (nickname_of u)) db ∧
     next_user_id result.2
     = match accounts (username_of u) db with
       | _ :: _ => next_user_id db
       | [] => S (next_user_id db)
       end).
Proof.
  cbv zeta.
  destruct (request_cases req)
    as [Hu|[Hj|[(u & ->)|[(u & ->)|(u & community & Hc & ->)]]]].
  - left. unfold provisionIrcUserHandler. by rewrite Hu.
  - unfold provisionIrcUserHandler. rewrite Hj.
    destruct (user req); [right; left|left]; simpl; split_and!; done || lia.
  - by left.
  - by left.
  - right.
    destruct (provision_cases e u community db Hc)
      as (_ & [(H1 & H2 & _ & H4 & _)|(H1 & Hn & [[H2 H3]|[H2 H3]])]).
    + right. exists u. rewrite H1. split_and!; try done. by left.
    + left. rewrite H1. split_and!; try done; lia.
    + right. exists u. rewrite H1. split_and!; try done. by right.
Qed.

(** The upsert when the server answers the first two round trips and
    not the third. *)
Lemma upsert_interrupted cu username hp nick rn cid db rest :
  kept username = username →
  link db = true :: true :: false :: rest →
  varchar_ok username = true → varchar_ok hp = true →
  varchar_ok nick = true → varchar_ok rn = true →
  ∃ db',
    upsertSojuUser cu username hp nick rn cid db = (Thrown ConnectionError, db') ∧
    users db' = upserted_users username (kept hp) (kept nick) (kept rn) db ∧
    networks db' = networks db ∧
    link db' = rest.
Proof.
  intros Hk Hlink Hu Hp Hn Hr.
  assert (text_ok username = true) as Ht
    by (unfold varchar_ok in Hu; by apply andb_prop in Hu as [? _]).
  unfold upsertSojuUser, upserted_users, bind, ircQuery, bind, ret,
    select_user_ids, checked, round_trip.
  rewrite Hlink, Ht. simpl.
  destruct (accounts username db) as [|r0 others] eqn:Hacc; simpl.
  - unfold insert_user, checked. rewrite Hu, Hp, Hn, Hr, Hk. simpl.
    rewrite (no_account_existsb _ _ Hacc). simpl.
    eexists. by split_and!.
  - unfold update_user_by_id, checked. rewrite Hp, Hn, Hr. simpl.
    eexists. by split_and!.
Qed.

(** X15.  The upsert is not atomic.  A request that is answered 401 or
    400 has written nothing.  But when the server answers the first two
    round trips of a call and not the third, the call answers 500 and has
    written the account's row all the same: a new account, or the new
    password hash on the account that was there, while the Network table
    is as it was.  The statements go out one by one, each over a
    connection of its own and outside any transaction. *)
Theorem failed_call_keeps_first_writes `{Bcrypt} (e : Entropy) (u : JwtUser)
    (community : string) (req : Request) (db : Db) (rest : list bool) :
  let result := provisionIrcUserHandler e (authenticated u community) db in
  let rejected := provisionIrcUserHandler e req db in
  community ≠ "" →
  link db = true :: true :: false :: rest →
  varchar_ok (username_of u) = true →
  varchar_ok (hashIrcPassword e (generateSecurePassword e)) = true →
  varchar_ok (nickname_of u) = true →
  result.1 = Failed 500 "Failed to provision IRC user" ∧
  stored_password (username_of u) result.2
  = Some (hashIrcPassword e (generateSecurePassword e)) ∧
  networks result.2 = networks db ∧
  link result.2 = rest ∧
  (status rejected.1 = 401 ∨ status rejected.1 = 400 → rejected.2 = db).
Proof.
  cbv zeta. intros Hc Hlink Hu Hp Hn. split_and!.
  1-4: unfold provisionIrcUserHandler, authenticated; simpl;
    destruct community as [|c community]; [done|];
    fold (username_of u); fold (nickname_of u);
    destruct (upsert_interrupted (sub u) (username_of u)
                (hashIrcPassword e (generateSecurePassword e))
                (nickname_of u) (nickname_of u) (String c community) db rest
                (kept_username _ _) Hlink Hu Hp Hn Hn)
      as (db' & -> & Hus & Hnet & Hl); simpl; try done.
  - apply stored_upserted in Hus. rewrite Hus. unfold hashIrcPassword.
    by rewrite kept_hash.
  - intros Hst.
    destruct (handler_users e req db)
      as [(_ & _ & Hdb)|[(H5 & _)|(u' & _ & [H2|H5] & _)]];
      [done|destruct Hst; congruence..].
Qed.

Lemma failed_call_keeps_first_writes_witness :
  let H := example_bcrypt in
  let result :=
    provisionIrcUserHandler draws_a (authenticated bob "general")
      (drops_third empty_db) in
  result.1 = Failed 500 "Failed to provision IRC user" ∧
  map user_username (users result.2) = ["bob_1234"] ∧
  stored_password "bob_1234" result.2
  = Some (hashIrcPassword draws_a "abc123zyx987") ∧
  networks result.2 = [].
Proof.
  intros H result.
  destruct (@failed_call_keeps_first_writes example_bcrypt draws_a bob "general"
              anonymous_request (drops_third empty_db) []
              ltac:(discriminate) eq_refl eq_refl eq_refl eq_refl)
    as (H1 & H2 & H3 & _).
  split_and!; [exact H1|reflexivity|exact H2|exact H3].
Defined.

(** *** The constraints of the User table *)

Lemma no_account_not_elem username rows :
  filter (fun r => user_username r = username) rows = [] →
  username ∉ map user_username rows.
Proof.
  intros Hnil Hin. apply list_elem_of_fmap in Hin as (r & Hr & Hin).
  by apply (filter_nil_not_elem_of _ _ r Hnil).
Qed.

Lemma ids_map (f : UserRow → UserRow) rows :
  (∀ r, user_id (f r) = user_id r) →
  map user_id (map f rows) = map user_id rows.
Proof. intros Hf. rewrite map_map. apply map_ext. auto. Qed.

Lemma upserted_users_ok username hp nick rn db :
  users_ok db →
  NoDup (map user_username (upserted_users username hp nick rn db)) ∧
  NoDup (map user_id (upserted_users username hp nick rn db)) ∧
  Forall (fun r => user_id r <
            match accounts username db with
            | _ :: _ => next_user_id db
            | [] => S (next_user_id db)
            end) (upserted_users username hp nick rn db).
Proof.
  intros (Hnames & Hids & Hnext). unfold upserted_users.
  destruct (accounts username db) as [|r0 rest] eqn:Hacc.
  - rewrite !map_app. simpl. split_and!.
    + apply NoDup_app. split_and!; [done| |apply NoDup_singleton].
      intros x Hx ->%list_elem_of_singleton.
      by apply (no_account_not_elem _ _ Hacc).
    + apply NoDup_app. split_and!; [done| |apply NoDup_singleton].
      intros x Hx ->%list_elem_of_singleton.
      apply list_elem_of_fmap in Hx as (r & Hr & Hin).
      pose proof (proj1 (Forall_forall _ _) Hnext r Hin). simpl in *. lia.
    + apply Forall_app. split.
      * eapply Forall_impl; [exact Hnext|]. intros r Hr. simpl in *. lia.
      * apply Forall_singleton. simpl. lia.
  - assert (∀ r, user_username
                   (if Nat.eqb (user_id r) (user_id r0)
                    then update_row hp nick rn r else r) = user_username r)
      as Hkeep by (intros r; by destruct (Nat.eqb _ _)).
    assert (∀ r, user_id
                   (if Nat.eqb (user_id r) (user_id r0)
                    then update_row hp nick rn r else r) = user_id r)
      as Hkeep' by (intros r; by destruct (Nat.eqb _ _)).
    rewrite (usernames_map _ _ Hkeep), (ids_map _ _ Hkeep'). split_and!; try done.
    apply Forall_forall. intros r Hin.
    apply list_elem_of_fmap in Hin as (r' & -> & Hin).
    rewrite Hkeep'. by apply (proj1 (Forall_forall _ _) Hnext).
Qed.

(** X16.  Provisioning keeps the constraints of the "User" table: from a
    table with unique usernames, unique ids and ids below the next value
    of the sequence, every call (successful or not, for any request)
    leads to such a table again, so the INSERT of the create branch never
    meets a taken username. *)
Theorem provisioning_keeps_users_unique `{Bcrypt} (e : Entropy) (req : Request)
    (db : Db) :
  users_ok db → users_ok (provisionIrcUserHandler e req db).2.
Proof.
  intros Hok.
  destruct (handler_users e req db)
    as [(_ & _ & ->)|[(_ & _ & Hu & Hnext)|(u & _ & _ & _ & Hus & Hnext)]];
    [done| |].
  - destruct Hok as (Hnames & Hids & Hlt). unfold users_ok. rewrite Hu.
    split_and!; [done|done|].
    eapply Forall_impl; [exact Hlt|]. intros r Hr. simpl in *. lia.
  - unfold users_ok. rewrite Hus, Hnext. by apply upserted_users_ok.
Qed.

Lemma empty_db_ok : users_ok empty_db.
Proof. unfold users_ok. simpl. split_and!; constructor. Qed.

Lemma provisioning_keeps_users_unique_witness :
  users_ok two_accounts ∧
  map user_username (users two_accounts) = ["bob_1234"; "carol_9999"].
Proof.
  split; [|reflexivity].
  apply (@provisioning_keeps_users_unique example_bcrypt).
  apply (@provisioning_keeps_users_unique example_bcrypt).
  apply empty_db_ok.
Defined.

Lemma same_id_same_row rows r r' :
  NoDup (map user_id rows) → r ∈ rows → r' ∈ rows →
  user_id r = user_id r' → r = r'.
Proof.
  induction rows as [|x rows IH]; intros Hnd Hr Hr' Hid.
  - by apply elem_of_nil in Hr.
  - simpl in Hnd. apply NoDup_cons in Hnd as [Hx Hnd].
    apply elem_of_cons in Hr as [->|Hr]; apply elem_of_cons in Hr' as [->|Hr'].
    + done.
    + exfalso. apply Hx. rewrite Hid. by apply list_elem_of_fmap_2.
    + exfalso. apply Hx. rewrite <- Hid. by apply list_elem_of_fmap_2.
    + by apply IH.
Qed.

Lemma upserted_users_other username other hp nick rn db :
  users_ok db → other ≠ username →
  filter (fun r => user_username r = other) (upserted_users username hp nick rn db)
  = accounts other db.
Proof.
  intros (_ & Hids & _) Hne. unfold upserted_users.
  destruct (accounts username db) as [|r0 rest] eqn:Hacc.
  - rewrite filter_app, filter_cons, decide_False by (simpl; congruence).
    by rewrite filter_nil, app_nil_r.
  - assert (r0 ∈ users db ∧ user_username r0 = username) as [Hin0 Hname0].
    { assert (r0 ∈ accounts username db) as Hin
        by (rewrite Hacc; apply list_elem_of_here).
      apply list_elem_of_filter in Hin as [? ?]. done. }
    clear Hacc.
    assert (∀ r, r ∈ users db → user_username r = other →
              (if Nat.eqb (user_id r) (user_id r0)
               then update_row hp nick rn r else r) = r) as Hsame.
    { intros r Hin Hother.
      destruct (Nat.eqb_spec (user_id r) (user_id r0)) as [Hid|_]; [|done].
      apply (same_id_same_row _ _ _ Hids Hin Hin0) in Hid. congruence. }
    revert Hsame. generalize (users db). intros rows Hsame.
    induction rows as [|r rows IH]; [done|]. simpl.
    rewrite !filter_cons.
    assert (user_username
              (if Nat.eqb (user_id r) (user_id r0)
               then update_row hp nick rn r else r) = user_username r) as ->
      by (by destruct (Nat.eqb _ _)).
    destruct (decide (user_username r = other)) as [Ho|Ho].
    + rewrite (Hsame r) by (done || apply list_elem_of_here). f_equal.
      apply IH. intros r' Hin'. apply Hsame. by apply list_elem_of_further.
    + apply IH. intros r' Hin'. apply Hsame. by apply list_elem_of_further.
Qed.

(** X17.  On a table with unique ids, provisioning one user leaves every
    account under another username exactly as it was: row, password
    hash, nick and real name. *)
Theorem provisioning_leaves_other_accounts `{Bcrypt} (e : Entropy) (req : Request)
    (db : Db) (u : JwtUser) (other : string) :
  users_ok db → user req = Some u → other ≠ username_of u →
  accounts other (provisionIrcUserHandler e req db).2 = accounts other db ∧
  stored_password other (provisionIrcUserHandler e req db).2
  = stored_password other db.
Proof.
  intros Hok Hu Hne.
  assert (accounts other (provisionIrcUserHandler e req db).2 = accounts other db)
    as Hacc; [|split; [done|]; unfold stored_password; by rewrite Hacc].
  destruct (handler_users e req db)
    as [(_ & _ & ->)|[(_ & _ & -> & _)|(u' & Hu' & _ & _ & -> & _)]];
    [done|done|].
  rewrite Hu in Hu'. injection Hu' as <-.
  by apply upserted_users_other.
Qed.

Lemma two_accounts_ok : users_ok two_accounts.
Proof.
  unfold users_ok. simpl. split_and!.
  - apply NoDup_cons. split; [|apply NoDup_singleton].
    by intros ?%list_elem_of_singleton.
  - apply NoDup_cons. split; [|apply NoDup_singleton].
    by intros ?%list_elem_of_singleton.
  - repeat constructor.
Qed.

Lemma provisioning_leaves_other_accounts_witness :
  let H := example_bcrypt in
  stored_password "carol_9999"
    (provisionIrcUserHandler draws_b (authenticated bob "general") two_accounts).2
  = stored_password "carol_9999" two_accounts.
Proof.
  intros H.
  apply (@provisioning_leaves_other_accounts example_bcrypt draws_b
           (authenticated bob "general") two_accounts bob "carol_9999").
  - apply two_accounts_ok.
  - reflexivity.
  - discriminate.
Defined.

(** *** The Network table *)

Lemma same_network_refl id user addr nick username :
  same_network "commonground" user
    (new_network id "commonground" user addr nick username) = true.
Proof. unfold same_network. simpl. by rewrite Nat.eqb_refl. Qed.

Lemma upserted_networks_exist user nick username db :
  existsb (same_network "commonground" user)
    (upserted_networks user nick username db) = true.
Proof.
  unfold upserted_networks.
  destruct (existsb _ (networks db)) eqn:E.
  - apply existsb_exists in E as (n & Hin & Hn). apply existsb_exists.
    exists (if same_network "commonground" user n
            then {| net_id := net_id n; net_name := net_name n;
                    net_user := net_user n; net_addr := net_addr n;
                    net_nick := nick; net_username := username;
                    net_enabled := net_enabled n |}
            else n).
    split.
    + apply in_map_iff. by exists n.
    + by rewrite Hn.
  - rewrite existsb_app, E. simpl. by rewrite same_network_refl.
Qed.

Lemma upserted_networks_fields user nick username db n :
  In n (upserted_networks user nick username db) →
  same_network "commonground" user n = true →
  net_nick n = nick ∧ net_username n = username.
Proof.
  unfold upserted_networks. destruct (existsb _ (networks db)) eqn:E.
  - intros (m & <- & Hin)%in_map_iff.
    destruct (same_network "commonground" user m) eqn:Hm; [done|].
    intros Hm'. congruence.
  - intros [Hin|[<-|[]]]%in_app_iff Hn; [|done].
    assert (existsb (same_network "commonground" user) (networks db) = true)
      by (apply existsb_exists; eauto).
    congruence.
Qed.

Lemma upserted_users_target username hp nick rn db :
  match filter (fun r => user_username r = username)
          (upserted_users username hp nick rn db) with
  | r :: _ => user_id r
  | [] => 0
  end = target_id username db.
Proof.
  unfold upserted_users, target_id.
  destruct (accounts username db) as [|r0 rest] eqn:Hacc.
  - rewrite filter_app, Hacc, filter_cons, decide_True by done. done.
  - rewrite accounts_map by (intros r; by destruct (Nat.eqb _ _)).
    rewrite Hacc. simpl. by destruct (Nat.eqb _ _).
Qed.

(** X18.  A provisioning call that answers 200 leaves the account with
    a "commonground" network that carries the handler's nick, as the
    column keeps it, and the account's username; and when provisioning
    the same user again answers 200 too, it has updated that network
    instead of adding one: the Network table does not grow with repeated
    calls. *)
Theorem provisioning_keeps_one_network `{Bcrypt} (e1 e2 : Entropy) (u : JwtUser)
    (community : string) (db : Db) :
  let first := provisionIrcUserHandler e1 (authenticated u community) db in
  let second := provisionIrcUserHandler e2 (authenticated u community) first.2 in
  let account := target_id (username_of u) db in
  status first.1 = 200 →
  user_networks "commonground" account first.2 ≠ [] ∧
  Forall (fun n => net_nick n = kept (nickname_of u) ∧
                   net_username n = username_of u)
    (user_networks "commonground" account first.2) ∧
  (status second.1 = 200 →
   length (networks second.2) = length (networks first.2)).
Proof.
  cbv zeta. intros Hst1.
  destruct (provision_success_for e1 u community db Hst1)
    as (_ & _ & Hus & Hnet & _).
  set (account := target_id (username_of u) db) in *.
  set (first := (provisionIrcUserHandler e1 (authenticated u community) db).2) in *.
  clearbody first.
  assert (target_id (username_of u) first = account) as Htarget.
  { unfold target_id at 1. rewrite Hus.
    pose proof (upserted_users_target (username_of u)
                  (hashIrcPassword e1 (generateSecurePassword e1))
                  (kept (nickname_of u)) (kept (nickname_of u)) db) as Ht.
    destruct (filter _ (upserted_users _ _ _ _ db)) as [|r rest] eqn:Hf.
    - exfalso. unfold upserted_users in Hf.
      destruct (accounts (username_of u) db) as [|r0 rest0] eqn:Hacc.
      + rewrite filter_app, Hacc, filter_cons, decide_True in Hf by done. done.
      + rewrite accounts_map in Hf by (intros r; by destruct (Nat.eqb _ _)).
        by rewrite Hacc in Hf.
    - exact Ht. }
  split_and!.
  - unfold user_networks. rewrite Hnet. intros Hnil.
    pose proof (upserted_networks_exist account (kept (nickname_of u))
                  (username_of u) db) as Hex.
    apply existsb_exists in Hex as (n & Hin & Hn).
    assert (In n (List.filter (same_network "commonground" account)
                    (upserted_networks account (kept (nickname_of u))
                       (username_of u) db)))
      as Hin' by (apply filter_In; done).
    by rewrite Hnil in Hin'.
  - unfold user_networks. rewrite Hnet. apply Forall_forall. intros n Hin.
    apply list_elem_of_In, filter_In in Hin as [Hin Hn].
    by apply (upserted_networks_fields account _ _ db).
  - intros Hst2.
    destruct (provision_success_for e2 u community first Hst2)
      as (_ & _ & _ & Hnet2 & _).
    rewrite Hnet2, Htarget. unfold upserted_networks at 1.
    rewrite Hnet, upserted_networks_exist. by rewrite length_map.
Qed.

Lemma provisioning_keeps_one_network_witness :
  let H := example_bcrypt in
  let first := (provisionIrcUserHandler draws_a (authenticated bob "general") empty_db).2 in
  let second := (provisionIrcUserHandler draws_b (authenticated bob "general") first).2 in
  length (networks first) = 1 ∧ length (networks second) = 1.
Proof.
  intros H first second.
  destruct (@provisioning_keeps_one_network example_bcrypt draws_a draws_b bob
              "general" empty_db eq_refl) as (_ & _ & Hlen).
  split; [reflexivity|]. exact (Hlen eq_refl).
Defined.

(** *** What the password column holds *)

(** X19.  In the handler of the endpoint specification, after a call
    that answers 200 the password column of the provisioned account
    holds what [bcrypt.hash] made of the generated password, whether the
    account was created or updated, and the password returned to the
    caller verifies against it. *)
Theorem endpoint_stores_hash_only `{Bcrypt} (e : Entropy) (u : JwtUser)
    (community : string) (db : Db) :
  let result := provisionIrcUserHandler e (authenticated u community) db in
  status result.1 = 200 →
  result.1 = Provisioned (username_of u) (generateSecurePassword e) "commonground" ∧
  stored_password (username_of u) result.2
  = Some (Bcryptjs.hash (salt_seed e) (generateSecurePassword e)) ∧
  verify (username_of u) (generateSecurePassword e) result.2 = true.
Proof.
  cbv zeta. intros Hst.
  destruct (provision_success_for e u community db Hst) as (_ & H1 & _ & _ & Hpw).
  split_and!; [done|done|].
  unfold verify. rewrite Hpw. apply compare_hash_same.
Qed.

Lemma endpoint_stores_hash_only_witness :
  let H := example_bcrypt in
  let first := (provisionIrcUserHandler draws_a (authenticated bob "general") empty_db).2 in
  let second := (provisionIrcUserHandler draws_b (authenticated bob "general") first).2 in
  stored_password "bob_1234" first = Some (Bcryptjs.hash (salt_seed draws_a) "abc123zyx987") ∧
  stored_password "bob_1234" second = Some (Bcryptjs.hash (salt_seed draws_b) "klm456543uvw").
Proof.
  intros H first second. split.
  - apply (@endpoint_stores_hash_only example_bcrypt draws_a bob "general"
             empty_db eq_refl).
  - apply (@endpoint_stores_hash_only example_bcrypt draws_b bob "general"
             first eq_refl).
Defined.

(** *** The draft *)

(** X20.  The draft of the endpoint hands the generated password to its
    upsert as it is.  A call that answers 200 found the module-level
    client new, and after it the password column of the account equals
    the password returned to the caller, for a new account and for an
    existing one; for an existing account the call returns before the
    network statement, so the Network table stays as it was.  Once the
    client has been used, which the first call of a server process does,
    every call answers 500 and writes nothing. *)
Theorem draft_keeps_password_and_skips_network (e : Entropy)
    (id name community : string) (db : Db) :
  let username := generateIrcUsername name id in
  let result := ProvisionDraft.POST e (ProvisionDraft.request_of id name community) db in
  (status result.1 = 200 →
     client db = ClientNew ∧
     client result.2 = ClientEnded ∧
     result.1 = Provisioned username (generateSecurePassword e) "commonground" ∧
     stored_password username result.2 = Some (generateSecurePassword e) ∧
     (accounts username db ≠ [] → networks result.2 = networks db)) ∧
  (client db ≠ ClientNew → result = (Failed 500 "Provisioning failed", db)).
Proof.
  cbv zeta. unfold ProvisionDraft.POST. simpl. split.
  - destruct (ProvisionDraft.upsertSojuUser _ _ _ _ _ _ db) as [[i|err] db'] eqn:Heq;
      [|done].
    intros _.
    apply draft_upsert_cases in Heq as (? & ? & Hok & Hpw & ?);
      [|apply kept_username].
    rewrite (kept_password e Hok) in Hpw. by split_and!.
  - intros Hc. by rewrite draft_upsert_reused.
Qed.

Lemma draft_keeps_password_and_skips_network_witness :
  let request := ProvisionDraft.request_of "cg-user-1234" "Bob" "general" in
  let first := (ProvisionDraft.POST draws_a request empty_db).2 in
  let again := ProvisionDraft.POST draws_b request first in
  let second := ProvisionDraft.POST draws_b request (ProvisionDraft.restart first) in
  again = (Failed 500 "Provisioning failed", first) ∧
  stored_password "bob_1234" second.2 = Some "klm456543uvw" ∧
  networks second.2 = networks first.
Proof.
  intros request first again second.
  destruct (draft_keeps_password_and_skips_network draws_b "cg-user-1234" "Bob"
              "general" first) as (_ & Hused).
  destruct (draft_keeps_password_and_skips_network draws_b "cg-user-1234" "Bob"
              "general" (ProvisionDraft.restart first)) as (Hnew & _).
  destruct (Hnew eq_refl) as (_ & _ & _ & Hpw & Hnet).
  split_and!.
  - apply Hused. discriminate.
  - exact Hpw.
  - apply Hnet. discriminate.
Defined.

(** *** The characters of a username *)

Lemma forallb_take {A} (f : A → bool) n l :
  forallb f l = true → forallb f (take n l) = true.
Proof.
  revert n. induction l as [|x l IH]; intros [|n]; simpl; try done.
  intros [Hx Hl]%andb_true_iff. by rewrite Hx, IH.
Qed.

Lemma forallb_drop {A} (f : A → bool) n l :
  forallb f l = true → forallb f (drop n l) = true.
Proof.
  revert n. induction l as [|x l IH]; intros [|n]; simpl; try done.
  intros [Hx Hl]%andb_true_iff. by apply IH.
Qed.

Lemma lower_char_alnum c : is_alnum c = true → is_alnum (lower_char c) = true.
Proof.
  intros Hc. unfold lower_char. destruct (is_upper c) eqn:Hu; [|done].
  unfold is_upper in Hu. apply andb_true_iff in Hu as [H1 H2].
  apply Nat.leb_le in H1, H2.
  unfold is_alnum, is_lower.
  rewrite nat_ascii_embedding by lia.
  replace (97 <=? nat_of_ascii c + 32) with true
    by (symmetry; apply Nat.leb_le; lia).
  replace (nat_of_ascii c + 32 <=? 122) with true
    by (symmetry; apply Nat.leb_le; lia).
  simpl. by rewrite orb_true_r.
Qed.

Lemma clean_name_alnum name : all_chars is_alnum (clean_name name) = true.
Proof.
  unfold clean_name, to_lower, all_chars. rewrite !to_list_of_list.
  apply forallb_forall. intros c Hin. apply in_map_iff in Hin as (x & <- & Hx).
  apply lower_char_alnum.
  apply list_elem_of_In, list_elem_of_filter in Hx as [Hx _]. done.
Qed.

(** X21.  When the user id consists of letters and digits, so does the
    derived username apart from the one underscore: whatever the display
    name contains, the username holds no space, no separator of a URL
    query and no IRC control character. *)
Theorem generateIrcUsername_characters (name userId : string) :
  all_chars is_alnum userId = true →
  all_chars (fun c => is_alnum c || Ascii.eqb c "_")
    (generateIrcUsername name userId) = true.
Proof.
  intros Hid. rewrite generateIrcUsername_clean. unfold slice_to, all_chars.
  rewrite to_list_of_list. apply forallb_take.
  rewrite !to_list_app, !forallb_app.
  apply andb_true_iff. split; [|apply andb_true_iff; split].
  - pose proof (clean_name_alnum name) as Hclean. unfold all_chars in Hclean.
    apply forallb_forall. intros c Hc.
    rewrite (proj1 (forallb_forall _ _) Hclean c Hc). done.
  - done.
  - unfold slice_last. rewrite to_list_of_list.
    apply forallb_drop. unfold all_chars in Hid.
    apply forallb_forall. intros c Hc.
    rewrite (proj1 (forallb_forall _ _) Hid c Hc). done.
Qed.

Lemma generateIrcUsername_characters_witness :
  all_chars (fun c => is_alnum c || Ascii.eqb c "_")
    (generateIrcUsername "Bob & <Alice>?" "cguser1234") = true.
Proof. apply generateIrcUsername_characters. reflexivity. Defined.

End ProvisionMoreFacts.

(** ** The chat modal's link to the auth bridge *)

Module ChatModalFacts.
Import JsString JsStringFacts Redirect RedirectMore RedirectMoreFacts ChatModal.

Lemma encode_uri_byte_count c x :
  uri_unreserved c = false → is_alnum c = false → c ≠ "%"%char →
  count_char c (encode_uri_byte x) = 0.
Proof.
  intros Hc Hal Hpc. unfold encode_uri_byte.
  destruct (uri_unreserved x) eqn:Hx.
  - rewrite count_char_cons. change (count_char c "") with 0.
    rewrite decide_False; [done|]. intros ->. congruence.
  - rewrite !count_char_cons. change (count_char c "") with 0.
    assert (∀ n, hex_digit n ≠ c) as Hhex.
    { intros n <-. revert Hal.
      do 15 (destruct n as [|n]; [discriminate|]). discriminate. }
    rewrite !decide_False by (done || apply Hhex). done.
Qed.

Lemma encodeURIComponent_count c s :
  uri_unreserved c = false → is_alnum c = false → c ≠ "%"%char →
  count_char c (encodeURIComponent s) = 0.
Proof.
  intros Hc Hal Hpc. induction s as [|x s IH]; [done|]. simpl.
  by rewrite count_char_app, encode_uri_byte_count, IH.
Qed.

Lemma encode_uri_byte_inj c d rest rest' :
  encode_uri_byte c +:+ rest = encode_uri_byte d +:+ rest' → c = d ∧ rest = rest'.
Proof.
  unfold encode_uri_byte.
  pose proof (nat_ascii_bounded c) as Hbc.
  pose proof (nat_ascii_bounded d) as Hbd.
  pose proof (Nat.div_mod_eq (nat_of_ascii c) 16) as Hcdm.
  pose proof (Nat.div_mod_eq (nat_of_ascii d) 16) as Hddm.
  assert (nat_of_ascii c / 16 < 16) as Hc1
    by (apply Nat.Div0.div_lt_upper_bound; lia).
  assert (nat_of_ascii d / 16 < 16) as Hd1
    by (apply Nat.Div0.div_lt_upper_bound; lia).
  pose proof (Nat.mod_upper_bound (nat_of_ascii c) 16) as Hc2.
  pose proof (Nat.mod_upper_bound (nat_of_ascii d) 16) as Hd2.
  set (hc := nat_of_ascii c / 16) in *.
  set (lc := nat_of_ascii c `mod` 16) in *.
  set (hd := nat_of_ascii d / 16) in *.
  set (ld := nat_of_ascii d `mod` 16) in *.
  clearbody hc lc hd ld.
  destruct (uri_unreserved c) eqn:Ec, (uri_unreserved d) eqn:Ed;
    rewrite !append_cons, !append_empty_l.
  - by intros [= -> ->].
  - intros [= -> _]. done.
  - intros [= <- _]. done.
  - intros [= Hhi Hlo ->]. split; [|done].
    apply hex_digit_inj in Hhi; [|lia ..].
    apply hex_digit_inj in Hlo; [|lia ..].
    rewrite <- (ascii_nat_embedding c), <- (ascii_nat_embedding d).
    f_equal. lia.
Qed.

Lemma encodeURIComponent_inj s t :
  encodeURIComponent s = encodeURIComponent t → s = t.
Proof.
  revert t. induction s as [|c s IH]; intros [|d t]; simpl.
  - done.
  - unfold encode_uri_byte. destruct (uri_unreserved d); by rewrite ?append_cons.
  - unfold encode_uri_byte. destruct (uri_unreserved c); by rewrite ?append_cons.
  - intros [-> Heq]%encode_uri_byte_inj. f_equal. by apply IH.
Qed.

Lemma getChatUrl_path curiaBaseUrl communityId userId :
  getChatUrl curiaBaseUrl communityId userId
  = curiaBaseUrl +:+ bridge_path communityId userId.
Proof.
  unfold getChatUrl, bridge_path. by rewrite !append_assoc.
Qed.

Lemma bridge_path_split communityId userId :
  bridge_path communityId userId
  = ("/irc-auth-bridge?community=" +:+ encodeURIComponent communityId)
    +:+ String "&" ("user=" +:+ encodeURIComponent userId).
Proof. unfold bridge_path. by rewrite !append_assoc. Qed.

(** X23.  The link from the chat modal to the auth bridge is the base
    URL followed by a path with exactly one ['?'], one ['&'] and two
    ['='], whatever the community id and the user id contain, and no
    ['#']; so the ids cannot add a parameter or cut the query short.  Two
    links on one base URL are equal only for the same community and the
    same user. *)
Theorem getChatUrl_is_well_delimited (curiaBaseUrl communityId userId : string) :
  getChatUrl curiaBaseUrl communityId userId
  = curiaBaseUrl +:+ bridge_path communityId userId ∧
  count_char "?" (bridge_path communityId userId) = 1 ∧
  count_char "&" (bridge_path communityId userId) = 1 ∧
  count_char "=" (bridge_path communityId userId) = 2 ∧
  count_char "#" (bridge_path communityId userId) = 0 ∧
  ∀ communityId' userId',
    getChatUrl curiaBaseUrl communityId' userId'
    = getChatUrl curiaBaseUrl communityId userId →
    communityId' = communityId ∧ userId' = userId.
Proof.
  split; [apply getChatUrl_path|].
  assert (∀ c, uri_unreserved c = false → is_alnum c = false → c ≠ "%"%char →
            count_char c (bridge_path communityId userId)
            = count_char c "/irc-auth-bridge?community=&user=") as Hcount.
  { intros c H1 H2 H3. unfold bridge_path.
    rewrite !count_char_app, !encodeURIComponent_count by done.
    change "/irc-auth-bridge?community=&user="
      with ("/irc-auth-bridge?" +:+ "community=" +:+ "&" +:+ "user=").
    rewrite !count_char_app. lia. }
  split_and!; try (by rewrite Hcount).
  intros communityId' userId' Heq. rewrite !getChatUrl_path in Heq.
  apply BcryptFacts.append_inj_l in Heq. rewrite !bridge_path_split in Heq.
  apply split_at_separator in Heq as [Hc Hu].
  - apply BcryptFacts.append_inj_l, encodeURIComponent_inj in Hc.
    apply BcryptFacts.append_inj_l, encodeURIComponent_inj in Hu. done.
  - rewrite count_char_app, encodeURIComponent_count by done. done.
  - rewrite count_char_app, encodeURIComponent_count by done. done.
Qed.

Lemma getChatUrl_is_well_delimited_witness :
  getChatUrl "https://curia.network" "a&b=c" "u#1?"
  = "https://curia.network/irc-auth-bridge?community=a%26b%3Dc&user=u%231%3F" ∧
  count_char "&" (bridge_path "a&b=c" "u#1?") = 1.
Proof.
  destruct (getChatUrl_is_well_delimited "https://curia.network" "a&b=c" "u#1?")
    as (_ & _ & Hamp & _).
  split; [reflexivity|exact Hamp].
Defined.

End ChatModalFacts.
